(** * pdf2md-js: region clustering, bounded-concurrency pipeline and heading
    reconciliation, embedded from the TypeScript/JavaScript sources.

    Numbers.  JavaScript numbers that carry page coordinates and thresholds are
    embedded as exact rationals [Q]; the one irrational operation of the
    program, [Math.sqrt] in [getDistance], is taken in the reals [R].  Rounding
    of IEEE doubles is outside this model.

    Strings.  A JavaScript string is a sequence of UTF-16 code units; it is
    embedded as [list N], so that the character classes of the regular
    expressions ([\s], [.]) can be written exactly as ECMAScript defines them. *)

From Stdlib Require Import QArith Qminmax Qabs Qreals Reals Lra Lqa Lia.
From Stdlib Require Import List Bool String Ascii NArith.
From stdpp Require Import base option list gmap sorting.

(* ===================================================================== *)
(** * Part I.  Definitions                                                *)
(* ===================================================================== *)

(* --------------------------------------------------------------------- *)
(** ** Geometry primitives (src/utils.js)                                 *)
(* --------------------------------------------------------------------- *)

(** Arguments of type [RECT] are present objects: the guards [if (!rect)] and
    the [catch] clauses of the source, which serve absent or malformed
    objects only, have no counterpart here. *)
Local Open Scope Q_scope.

(** The array [[x0, y0, x1, y1]] handed to [turf.bboxPolygon] and returned by
    [turf.bbox]. *)
Record BBox : Type := mkBBox { b0 : Q; b1 : Q; b2 : Q; b3 : Q }.

(** Values of type [RECT].  [createRect] and [unionRects] build a GeoJSON
    Feature with [turf.bboxPolygon]; such an object has [type], [geometry]
    and, as its [bbox] member, the array it was built from (the page parser
    reads [rect.bbox]).  A bare Polygon geometry (the [geometry] member of
    such a feature) has a [type] but neither [geometry] nor [bbox]: it is the
    only kind of object for which [isValidRect] reaches its bounding-box
    test. *)
Inductive RECT : Type :=
| Feature (bounds : BBox)
| Polygon (corners : BBox).

(** [createRect(bounds)] = [turf.bboxPolygon([x0, y0, x1, y1])]. *)
Definition createRect (bounds : BBox) : RECT := Feature bounds.

(** [turf.bbox] is library code.  For a feature it gives the [bbox] member;
    for a bare geometry it gives the minimum and maximum of the ring
    [(x0,y0) (x1,y0) (x1,y1) (x0,y1) (x0,y0)] on each axis.  On bounds with
    [x0 <= x1] and [y0 <= y1] (a Rectangle of the specification, [wellFormed]
    below) the two are the same four numbers, so for such rectangles nothing
    depends on which of them the library takes. *)
Definition bbox (r : RECT) : BBox :=
  match r with
  | Feature bounds => bounds
  | Polygon c =>
      mkBBox (Qmin (b0 c) (b2 c)) (Qmin (b1 c) (b3 c))
             (Qmax (b0 c) (b2 c)) (Qmax (b1 c) (b3 c))
  end.

(** The invariant of a Rectangle in the data model of the specification:
    [x0 <= x1] and [y0 <= y1]. *)
Definition wellFormed (r : RECT) : Prop :=
  b0 (bbox r) <= b2 (bbox r) /\ b1 (bbox r) <= b3 (bbox r).

(** [a < b] and [a <= b] on numbers, as booleans. *)
Definition Qleb (a b : Q) : bool := Qle_bool a b.
Definition Qltb (a b : Q) : bool := negb (Qle_bool b a).

(** The test of line 40: the boxes overlap on both axes. *)
Definition overlapX (bbox1 bbox2 : BBox) : bool :=
  Qleb (b0 bbox1) (b2 bbox2) && Qleb (b0 bbox2) (b2 bbox1).
Definition overlapY (bbox1 bbox2 : BBox) : bool :=
  Qleb (b1 bbox1) (b3 bbox2) && Qleb (b1 bbox2) (b3 bbox1).
Definition overlaps (bbox1 bbox2 : BBox) : bool :=
  Qleb (b0 bbox1) (b2 bbox2) && Qleb (b0 bbox2) (b2 bbox1) &&
  Qleb (b1 bbox1) (b3 bbox2) && Qleb (b1 bbox2) (b3 bbox1).

(** Lines 45-58: [dx] and [dy]. *)
Definition gapX (bbox1 bbox2 : BBox) : Q :=
  if Qltb (b2 bbox1) (b0 bbox2) then b0 bbox2 - b2 bbox1
  else if Qltb (b2 bbox2) (b0 bbox1) then b0 bbox1 - b2 bbox2
  else 0.
Definition gapY (bbox1 bbox2 : BBox) : Q :=
  if Qltb (b3 bbox1) (b1 bbox2) then b1 bbox2 - b3 bbox1
  else if Qltb (b3 bbox2) (b1 bbox1) then b1 bbox1 - b3 bbox2
  else 0.

(** [dx * dx + dy * dy], the argument of [Math.sqrt]. *)
Definition sqGap (bbox1 bbox2 : BBox) : Q :=
  let dx := gapX bbox1 bbox2 in
  let dy := gapY bbox1 bbox2 in
  dx * dx + dy * dy.

Definition defaultBuffer : Q := 1 # 10.

(** [getDistance(rect1, rect2, buffer = 0.1)]. *)
Definition getDistance (rect1 rect2 : RECT) (buffer : Q) : R :=
  let bbox1 := bbox rect1 in
  let bbox2 := bbox rect2 in
  if overlaps bbox1 bbox2 then 0%R
  else (sqrt (Q2R (sqGap bbox1 bbox2)) - Q2R buffer * 2)%R.

(** [isNear(rect1, rect2, distance)] is [getDistance(rect1, rect2) < distance]
    with the default buffer.  The comparison is decided here on rationals,
    without extracting the root: [sqrt s - 2*buffer < d] holds exactly when
    [0 < d + 2*buffer] and [s < (d + 2*buffer)^2]; lemma [isNear_getDistance]
    below proves that this is the comparison of the source. *)
Definition isNear (rect1 rect2 : RECT) (distance : Q) : bool :=
  let bbox1 := bbox rect1 in
  let bbox2 := bbox rect2 in
  if overlaps bbox1 bbox2 then Qltb 0 distance
  else
    let t := distance + defaultBuffer * 2 in
    Qltb 0 t && Qltb (sqGap bbox1 bbox2) (t * t).

(** [isHorizontalNear(rect1, rect2, distance)]. *)
Definition isHorizontalNear (rect1 rect2 : RECT) (distance : Q) : bool :=
  let bbox1 := bbox rect1 in
  let bbox2 := bbox rect2 in
  let height1 := b3 bbox1 - b1 bbox1 in
  let height2 := b3 bbox2 - b1 bbox2 in
  let width1 := b2 bbox1 - b0 bbox1 in
  let width2 := b2 bbox2 - b0 bbox2 in
  let isHorizontalLine1 := Qltb height1 2 && Qltb 10 width1 in
  let isHorizontalLine2 := Qltb height2 2 && Qltb 10 width2 in
  if isHorizontalLine1 && isHorizontalLine2 then
    let horizontalOverlap :=
      (Qleb (b0 bbox1) (b2 bbox2) && Qleb (b0 bbox2) (b2 bbox1))
      || Qltb (Qabs (b0 bbox1 - b0 bbox2)) 5
      || Qltb (Qabs (b2 bbox1 - b2 bbox2)) 5 in
    if horizontalOverlap then
      let verticalDistance :=
        Qmin (Qabs (b1 bbox1 - b3 bbox2)) (Qabs (b3 bbox1 - b1 bbox2)) in
      Qltb verticalDistance distance
    else false
  else false.

(** [unionRects(rect1, rect2)] on two present rectangles; the [null] results
    of the source arise only from absent arguments. *)
Definition unionRects (rect1 rect2 : RECT) : RECT :=
  let bbox1 := bbox rect1 in
  let bbox2 := bbox rect2 in
  let minX := Qmin (b0 bbox1) (b0 bbox2) in
  let minY := Qmin (b1 bbox1) (b1 bbox2) in
  let maxX := Qmax (b2 bbox1) (b2 bbox2) in
  let maxY := Qmax (b3 bbox1) (b3 bbox2) in
  Feature (mkBBox minX minY maxX maxY).

(** [isValidRect(rect)]: an object with both [type] and [geometry] is accepted
    as it is; otherwise its bounding box must be ordered and have area. *)
Definition isValidRect (rect : RECT) : bool :=
  match rect with
  | Feature _ => true
  | Polygon _ =>
      let bb := bbox rect in
      Qleb (b0 bb) (b2 bb) && Qleb (b1 bb) (b3 bb) &&
      Qltb 0 (b2 bb - b0 bb) && Qltb 0 (b3 bb - b1 bb)
  end.

Local Close Scope Q_scope.

(** A pair of boxes one tenth of a unit apart. *)
Definition unitSquare : RECT := createRect (mkBBox 0 0 1 1).
Definition closeSquare : RECT := createRect (mkBBox (11 # 10) 0 2 1).

(** The contract of [distance] as the specification words it: the separation
    of two intervals is 0 when they overlap and the positive gap otherwise. *)
Definition separation (lo1 hi1 lo2 hi2 : Q) : Q :=
  if Qleb lo1 hi2 && Qleb lo2 hi1 then 0%Q
  else Qmax (lo2 - hi1) (lo1 - hi2).

Definition distance_spec (a b : RECT) (buffer : Q) : R :=
  let A := bbox a in
  let B := bbox b in
  let dx := Q2R (separation (b0 A) (b2 A) (b0 B) (b2 B)) in
  let dy := Q2R (separation (b1 A) (b3 A) (b1 B) (b3 B)) in
  if overlapX A B && overlapY A B then 0%R
  else (sqrt (dx * dx + dy * dy) - 2 * Q2R buffer)%R.

(* --------------------------------------------------------------------- *)
(** ** Region clustering (packages/pdf2md/src/rectProcessor.ts)           *)
(* --------------------------------------------------------------------- *)

(** Truthiness of a number: [horizontalDistance && ...] is skipped for [0]. *)
Definition truthy (x : Q) : bool := negb (Qeq_bool x 0).

(** The merge test of line 43.  [horizontalDistance] is [number | null]. *)
Definition shouldMerge (distance : Q) (horizontalDistance : option Q)
    (rect otherRect : RECT) : bool :=
  isNear rect otherRect distance ||
  match horizontalDistance with
  | Some h => truthy h && isHorizontalNear rect otherRect h
  | None => false
  end.

(** The [for] loop of lines 39-54: [rect] walks over the rest of the queue,
    swallowing (and splicing out) every rectangle it should merge with; the
    scan goes on from the same position with the grown [rect].  Returns the
    final [rect], what is left of the queue, and whether [merged] was set. *)
Fixpoint scanQueue (distance : Q) (horizontalDistance : option Q)
    (rect : RECT) (workingRects : list RECT) : RECT * list RECT * bool :=
  match workingRects with
  | [] => (rect, [], false)
  | otherRect :: rest =>
      if shouldMerge distance horizontalDistance rect otherRect then
        let '(rect', rest', _) :=
          scanQueue distance horizontalDistance (unionRects rect otherRect) rest in
        (rect', rest', true)
      else
        let '(rect', rest', merged) :=
          scanQueue distance horizontalDistance rect rest in
        (rect', otherRect :: rest', merged)
  end.

(** The inner [while] of lines 35-59: one pass over the queue.  The queue
    shrinks by at least one rectangle per iteration, so [length workingRects]
    iterations always empty it ([mergePass_fuel] below). *)
Fixpoint mergePass (fuel : nat) (distance : Q) (horizontalDistance : option Q)
    (workingRects : list RECT) : list RECT * bool :=
  match fuel, workingRects with
  | S fuel', rect :: rest =>
      let '(rect', rest', merged) :=
        scanQueue distance horizontalDistance rect rest in
      let '(newRectList, merged') :=
        mergePass fuel' distance horizontalDistance rest' in
      (rect' :: newRectList, merged || merged')
  | _, _ => ([], false)
  end.

Definition onePass (distance : Q) (horizontalDistance : option Q)
    (workingRects : list RECT) : list RECT * bool :=
  mergePass (length workingRects) distance horizontalDistance workingRects.

(** The outer [while (merged && workingRects.length > 0)] of lines 31-62. *)
Fixpoint mergeLoop (fuel : nat) (distance : Q) (horizontalDistance : option Q)
    (workingRects : list RECT) : list RECT :=
  match fuel with
  | O => workingRects
  | S fuel' =>
      match workingRects with
      | [] => []
      | _ :: _ =>
          let '(newRectList, merged) :=
            onePass distance horizontalDistance workingRects in
          if merged then mergeLoop fuel' distance horizontalDistance newRectList
          else newRectList
      end
  end.

(** [mergeRects(rectList, distance, horizontalDistance)].  Every pass that
    merges shortens the list, so [length validRects] passes reach the pass
    that merges nothing ([mergeLoop_stable] below). *)
Definition mergeRects (rectList : list RECT) (distance : Q)
    (horizontalDistance : option Q) : list RECT :=
  match rectList with
  | [] => []
  | _ :: _ =>
      let validRects := List.filter isValidRect rectList in
      match validRects with
      | [] => []
      | _ :: _ =>
          let workingRects :=
            mergeLoop (length validRects) distance horizontalDistance validRects in
          List.filter isValidRect workingRects
      end
  end.

(** A list on which a full pass merges nothing: where the outer loop stops. *)
Definition stable (distance : Q) (horizontalDistance : option Q)
    (workingRects : list RECT) : Prop :=
  onePass distance horizontalDistance workingRects = (workingRects, false).

(** The [for] loop of lines 86-96: the first target near [rect] is replaced by
    the union and the scan stops ([break]). *)
Fixpoint adsorbOne (rect : RECT) (distance : Q)
    (updatedTargetRects : list RECT) : list RECT * bool :=
  match updatedTargetRects with
  | [] => ([], false)
  | target :: rest =>
      if isNear rect target distance then (unionRects rect target :: rest, true)
      else
        let '(rest', adsorbed) := adsorbOne rect distance rest in
        (target :: rest', adsorbed)
  end.

(** [adsorbRectsToRects(sourceRects, targetRects, distance)], returning
    [[newSourceRects, updatedTargetRects]]. *)
Fixpoint adsorbRectsToRects (sourceRects targetRects : list RECT)
    (distance : Q) : list RECT * list RECT :=
  match sourceRects with
  | [] => ([], targetRects)
  | rect :: more =>
      let '(updatedTargetRects, adsorbed) := adsorbOne rect distance targetRects in
      let '(newSourceRects, finalTargetRects) :=
        adsorbRectsToRects more updatedTargetRects distance in
      (if adsorbed then newSourceRects else rect :: newSourceRects,
       finalTargetRects)
  end.

(** [filterSmallRects(rects, minWidth, minHeight)]. *)
Definition filterSmallRects (rects : list RECT) (minWidth minHeight : Q) : list RECT :=
  List.filter (fun rect =>
    let bb := bbox rect in
    let width := (b2 bb - b0 bb)%Q in
    let height := (b3 bb - b1 bb)%Q in
    Qltb minWidth width && Qltb minHeight height) rects.

(** The rectangles of test/testRectProcessor.js. *)
Definition TEST_RECTS : list RECT :=
  [ createRect (mkBBox 10 10 30 20); createRect (mkBBox 32 12 50 22);
    createRect (mkBBox 100 100 120 120); createRect (mkBBox 200 200 220 220);
    createRect (mkBBox 10 50 100 51); createRect (mkBBox 300 300 305 305) ].

(** The first target, in scan order, that is near [rect], with its index:
    the hit of the adsorption as the specification words it. *)
Definition firstNear (rect : RECT) (distance : Q) (targets : list RECT)
    : option (nat * RECT) :=
  list_find (fun target => isNear rect target distance = true) targets.

(** A source with two near targets, the second one nearer than the first. *)
Definition greedySource : RECT := createRect (mkBBox 10 10 20 20).
Definition greedyTargets : list RECT :=
  [ createRect (mkBBox 24 10 30 20); createRect (mkBBox 0 10 9 20) ].

(* --------------------------------------------------------------------- *)
(** ** JavaScript strings and the two regular expressions (src/utils.ts)  *)
(* --------------------------------------------------------------------- *)

(** A string is its sequence of UTF-16 code units. *)
Abbreviation jsstring := (list N).

(** Literals: the code units of an ASCII string. *)
Definition str (s : string) : jsstring :=
  List.map N_of_ascii (list_ascii_of_string s).

Definition LF : N := 10.
Definition CR : N := 13.
Definition HASH : N := 35.
Definition SPACE : N := 32.

(** [s.split('\n')]. *)
Fixpoint splitLines (s : jsstring) : list jsstring :=
  match s with
  | [] => [[]]
  | c :: rest =>
      if N.eqb c LF then [] :: splitLines rest
      else match splitLines rest with
           | line :: lines => (c :: line) :: lines
           | [] => [[c]]
           end
  end.

(** [lines.join('\n')]. *)
Fixpoint joinLines (lines : list jsstring) : jsstring :=
  match lines with
  | [] => []
  | [line] => line
  | line :: more => line ++ LF :: joinLines more
  end.

(** ECMAScript LineTerminator: LF, CR, LS, PS.  The pattern character [.]
    (no [s] flag) matches every code unit but these. *)
Definition isLineTerminator (c : N) : bool :=
  N.eqb c 10 || N.eqb c 13 || N.eqb c 8232 || N.eqb c 8233.

Definition dot (c : N) : bool := negb (isLineTerminator c).

(** The class [\s]: WhiteSpace and LineTerminator. *)
Definition isWhiteSpace (c : N) : bool :=
  (N.leb 9 c && N.leb c 13) || N.eqb c 32 || N.eqb c 160 || N.eqb c 5760
  || (N.leb 8192 c && N.leb c 8202) || N.eqb c 8232 || N.eqb c 8233
  || N.eqb c 8239 || N.eqb c 8287 || N.eqb c 12288 || N.eqb c 65279.

Definition isHash (c : N) : bool := N.eqb c HASH.

(** Backtracking matcher for a greedy [cls*] followed by the rest of the
    pattern [k]: the longest run is tried first and given back one code unit
    at a time while [k] fails.  [k] gets the text matched by the quantifier
    and the remaining input. *)
Fixpoint star {A : Type} (cls : N -> bool)
    (k : jsstring -> jsstring -> option A)
    (consumed input : jsstring) : option A :=
  match input with
  | c :: input' =>
      if cls c then
        match star cls k (consumed ++ [c]) input' with
        | Some r => Some r
        | None => k consumed input
        end
      else k consumed input
  | [] => k consumed input
  end.

(** Greedy [cls+]. *)
Definition plus {A : Type} (cls : N -> bool)
    (k : jsstring -> jsstring -> option A) (input : jsstring) : option A :=
  match input with
  | c :: input' => if cls c then star cls k [c] input' else None
  | [] => None
  end.

(** [line.match] with the pattern [^ #+ \s* ( .* )] (written here with
    blanks between its parts): [None] for [null], else the capture
    [match[1]].  The pattern is anchored, so it is tried at index 0 only. *)
Definition headingMatch (line : jsstring) : option jsstring :=
  plus isHash (fun _ afterHashes =>
    star isWhiteSpace (fun _ afterSpace =>
      star dot (fun content _ => Some content) [] afterSpace)
      [] afterHashes) line.

(** [line.match] with the pattern [^ ( #+ ) \s* ( .+ )]: the captures
    [match[1]] and [match[2]]. *)
Definition titleMatch (line : jsstring) : option (jsstring * jsstring) :=
  plus isHash (fun hashes afterHashes =>
    star isWhiteSpace (fun _ afterSpace =>
      plus dot (fun text _ => Some (hashes, text)) afterSpace)
      [] afterHashes) line.

Fixpoint dropWhile (cls : N -> bool) (s : jsstring) : jsstring :=
  match s with
  | c :: s' => if cls c then dropWhile cls s' else s
  | [] => []
  end.

Fixpoint takeWhile (cls : N -> bool) (s : jsstring) : jsstring :=
  match s with
  | c :: s' => if cls c then c :: takeWhile cls s' else []
  | [] => []
  end.

(** [s.trim()]. *)
Definition trim (s : jsstring) : jsstring :=
  rev (dropWhile isWhiteSpace (rev (dropWhile isWhiteSpace s))).

(** [needle] occurs in [s] at index 0. *)
Fixpoint startsWith (needle s : jsstring) : bool :=
  match needle, s with
  | [], _ => true
  | n :: needle', c :: s' => N.eqb n c && startsWith needle' s'
  | _ :: _, [] => false
  end.

(** [s.indexOf(needle)]; [None] stands for [-1]. *)
Fixpoint indexOf (needle s : jsstring) : option nat :=
  match s with
  | [] => if startsWith needle [] then Some 0%nat else None
  | _ :: s' =>
      if startsWith needle s then Some 0%nat else S <$> indexOf needle s'
  end.

(** [s.lastIndexOf(needle)]; [None] stands for [-1]. *)
Fixpoint lastIndexOf (needle s : jsstring) : option nat :=
  match s with
  | [] => if startsWith needle [] then Some 0%nat else None
  | _ :: s' =>
      match lastIndexOf needle s' with
      | Some i => Some (S i)
      | None => if startsWith needle s then Some 0%nat else None
      end
  end.

(** [s.substring(start, end)]: both indices are clamped to the length and
    swapped when [start > end]. *)
Definition substring (s : jsstring) (indexStart indexEnd : nat) : jsstring :=
  let a := Nat.min indexStart (length s) in
  let b := Nat.min indexEnd (length s) in
  take (Nat.max a b - Nat.min a b) (drop (Nat.min a b) s).

(** A line as [split] produces it: without a line feed. *)
Definition noLF (line : jsstring) : Prop := Forall (fun c => c <> LF) line.

(* --------------------------------------------------------------------- *)
(** ** Heading reconciliation (src/utils.ts)                              *)
(* --------------------------------------------------------------------- *)

Definition mdFence : jsstring := str "```markdown".
Definition fence : jsstring := str "```".

(** [extractMdFromLLMOutput(output)]; [None] stands for [undefined]. *)
Definition extractMdFromLLMOutput (output : jsstring) : option jsstring :=
  match indexOf mdFence output, lastIndexOf fence output with
  | Some mdStart, Some mdEnd => Some (substring output (mdStart + 12) mdEnd)
  | _, _ => None
  end.


(** The body of the loop of [createTitleLevelMap]. *)
Definition setTitleLevel (map : gmap jsstring nat) (line : jsstring)
    : gmap jsstring nat :=
  match titleMatch line with
  | Some (hashes, text) => <[ trim text := length hashes ]> map
  | None => map
  end.

(** [createTitleLevelMap(data, map = new Map())]. *)
Definition createTitleLevelMap (data : jsstring) (map : gmap jsstring nat)
    : gmap jsstring nat :=
  fold_left setTitleLevel (splitLines data) map.

(** The callback of [lines.forEach] in [adjustMarkdownHeadings]: the line that
    is pushed to [processedLines]. *)
Definition adjustLine (map : gmap jsstring nat) (line : jsstring) : jsstring :=
  match headingMatch line with
  | None => line
  | Some content =>
      match map !! content with
      | Some level => replicate level HASH ++ SPACE :: content
      | None => line
      end
  end.

(** [adjustMarkdownHeadings(markdownText, newTitle)]. *)
Definition adjustMarkdownHeadings (markdownText newTitle : jsstring) : jsstring :=
  let map := createTitleLevelMap newTitle ∅ in
  joinLines (List.map (adjustLine map) (splitLines markdownText)).

(** Inputs used in the examples below. *)
Definition sampleText : jsstring :=
  str "# A" ++ [LF] ++ str "## Intro" ++ [LF] ++ str "body" ++ [LF] ++ str "# B".
Definition sampleOutline : jsstring := str "## A" ++ [LF] ++ str "### B".

(** A response whose fence is opened and never closed. *)
Definition unclosedResponse : jsstring := str "```markdown" ++ [LF] ++ str "# A".

(** A heading line with a carriage return inside, and an outline naming the
    part before it. *)
Definition crText : jsstring := str "# A" ++ [CR] ++ str "B".
Definition crOutline : jsstring := str "## A".

(* --------------------------------------------------------------------- *)
(** ** The page pipeline of [parsePdf] (src/index.ts)                     *)
(* --------------------------------------------------------------------- *)

(** JavaScript runs [parsePdf] on one thread: code runs until it awaits, and
    what is awaited settles later, in an order the program does not choose.
    The embedding is a transition system.  A state holds the variables that
    [parsePdf], [processImages] and [processInParallel] share; an event is one
    resumption of suspended code; [step] runs the resumed code up to its next
    [await].  Which event comes next is left to the environment, so every
    completion order is a list of events. *)

Record PageImage : Type := mkPageImage { index : nat; data : jsstring }.

Record PageContent : Type := mkPageContent { pageIndex : nat; content : jsstring }.

Inductive TaskStatus : Type := starting | running | finished.

Record ProgressInfo : Type :=
  mkProgress { current : nat; total : nat; taskStatus : TaskStatus }.

(** What [processImages] returns: [{ success: true, item, data }] or
    [{ success: false, item, error }].  Its [try]/[catch] encloses the call of
    the model and everything after it, so the promise of an invocation is
    never rejected: a failed call is a returned [Failure].  [onProgress] is
    taken to return normally. *)
Inductive Outcome : Type :=
| Success (pageContent : jsstring)
| Failure (message : jsstring).

(** One entry of [results], the promise
    [processFunction(item).then(result => { inProgress.delete(promise); ... })]:
    - [Pending]: [processImages] is suspended at
      [await modelClient.processImage];
    - [Returned r]: [processImages] has returned [r]; the [then] reaction is
      queued and has not run;
    - [Fulfilled r]: the reaction has run, the promise is fulfilled. *)
Inductive PromiseState : Type :=
| Pending
| Returned (r : Outcome)
| Fulfilled (r : Outcome).

Record Task : Type := mkTask { item : PageImage; promise : PromiseState }.

Record ParseResult : Type :=
  mkParseResult { resultContent : jsstring; mdFile : jsstring }.

(** Where the body of [parsePdf] is suspended. *)
Inductive Phase : Type :=
| Running
    (* not suspended: the state inside a step, before the next [await] *)
| AwaitingRace (settled : bool)
    (* at [await Promise.race(inProgress)]; [settled]: one of the raced
       promises has been fulfilled since *)
| Spinning
    (* the outer [while] runs without reaching an [await]: limit 0 *)
| AwaitingOutline (assembled : jsstring)
    (* at [await modelClient.processImage(null, ...)] *)
| AwaitingWrite (assembled convertContent : jsstring)
    (* at [await fs.writeFile(mdFilePath, convertContent)] *)
| Resolved (result : ParseResult)
| Rejected.

Record State : Type := mkState {
  queue : list PageImage;            (* [queue] of [processInParallel] *)
  results : list Task;               (* [results], in start order *)
  inProgress : gset nat;             (* [inProgress], promises by position in [results] *)
  pageContents : list PageContent;   (* the shared [pageContents] *)
  progress : list ProgressInfo;      (* the calls of [onProgress], oldest first *)
  phase : Phase
}.

Definition setPhase (p : Phase) (s : State) : State :=
  mkState (queue s) (results s) (inProgress s) (pageContents s) (progress s) p.

(** [pageContents.sort((a, b) => a.pageIndex - b.pageIndex)]: the sort of
    [Array.prototype.sort] is stable; this is the stable sort by insertion. *)
Fixpoint insertPage (p : PageContent) (sorted : list PageContent) : list PageContent :=
  match sorted with
  | [] => [p]
  | q :: sorted' =>
      if (pageIndex p <=? pageIndex q)%nat then p :: sorted
      else q :: insertPage p sorted'
  end.

Definition sortByPageIndex (pages : list PageContent) : list PageContent :=
  foldr insertPage [] pages.

(** Lines 122-125: [content += page.content + '\n'] for each page. *)
Definition assemble (pages : list PageContent) : jsstring :=
  flat_map (fun page => content page ++ [LF]) pages.

(** Lines 178-184: one iteration of the inner [while], starting the
    invocation for [item]; the call of [processImages] runs up to its
    [await]. *)
Definition startTask (item : PageImage) (rest : list PageImage) (s : State) : State :=
  let id := length (results s) in
  mkState rest (results s ++ [mkTask item Pending]) ({[ id ]} ∪ inProgress s)
          (pageContents s) (progress s) (phase s).

(** Lines 177-185: [while (inProgress.size < concurrencyLimit && queue.length > 0)]. *)
Fixpoint startTasks (concurrencyLimit : nat) (pending : list PageImage) (s : State) : State :=
  match pending with
  | item :: rest =>
      if (size (inProgress s) <? concurrencyLimit)%nat
      then startTasks concurrencyLimit rest (startTask item rest s)
      else s
  | [] => s
  end.

(** Lines 116-134 of [parsePdf], run when [processInParallel] has returned:
    sort, assemble, and ask the model for the corrected outline. *)
Definition afterPipeline (s : State) : State :=
  let sorted := sortByPageIndex (pageContents s) in
  mkState (queue s) (results s) (inProgress s) sorted (progress s)
          (AwaitingOutline (assemble sorted)).

(** Line 175: [queue.length > 0 || inProgress.size > 0]. *)
Definition loopCondition (s : State) : bool :=
  (0 <? length (queue s))%nat || (0 <? size (inProgress s))%nat.

(** Lines 175-193: the outer [while] from its head up to the next [await].
    An iteration that starts nothing and finds nothing in progress comes back
    to the head in the same state: if the condition still holds the loop
    never yields. *)
Definition runLoop (concurrencyLimit : nat) (s : State) : State :=
  if loopCondition s then
    let s1 := startTasks concurrencyLimit (queue s) s in
    if (0 <? size (inProgress s1))%nat then setPhase (AwaitingRace false) s1
    else if loopCondition s1 then setPhase Spinning s1
    else afterPipeline s1
  else afterPipeline s.

(** [parsePdf] from line 64 to its first [await] inside [processInParallel]:
    the [starting] report, then the pipeline over [imageFiles]. *)
Definition init (imageFiles : list PageImage) (concurrency : nat) : State :=
  runLoop concurrency
    (mkState imageFiles [] ∅ []
             [mkProgress 0 (length imageFiles) starting] Running).

Inductive Event : Type :=
| ModelReturns (id : nat) (pageContent : jsstring)
    (* [modelClient.processImage] of invocation [id] is fulfilled *)
| ModelThrows (id : nat) (message : jsstring)
    (* ... or rejected *)
| Reaction (id : nat)
    (* the [then] reaction of promise [id] runs *)
| RaceResumes
    (* the code after [await Promise.race(inProgress)] runs *)
| OutlineReturns (response : jsstring)
| OutlineThrows
| WriteDone
| WriteFails.

Definition setTask (id : nat) (t : Task) (s : State) : State :=
  mkState (queue s) (<[ id := t ]> (results s)) (inProgress s)
          (pageContents s) (progress s) (phase s).

(** Lines 89-105: [processImages] after its [await], on success. *)
Definition onModelReturns (totalPages : nat) (id : nat) (it : PageImage)
    (pageContent : jsstring) (s : State) : State :=
  let pages := pageContents s ++ [mkPageContent (index it) pageContent] in
  mkState (queue s) (<[ id := mkTask it (Returned (Success pageContent)) ]> (results s))
          (inProgress s) pages
          (progress s ++ [mkProgress (length pages) totalPages running])
          (phase s).

(** Lines 106-109: the [catch] of [processImages]. *)
Definition onModelThrows (id : nat) (it : PageImage) (message : jsstring)
    (s : State) : State :=
  setTask id (mkTask it (Returned (Failure message))) s.

(** Lines 179-182: [inProgress.delete(promise); return result]. *)
Definition onReaction (id : nat) (it : PageImage) (r : Outcome) (s : State) : State :=
  mkState (queue s) (<[ id := mkTask it (Fulfilled r) ]> (results s))
          (inProgress s ∖ {[ id ]}) (pageContents s) (progress s)
          (match phase s with AwaitingRace _ => AwaitingRace true | p => p end).

(** Lines 135-144: extraction of the outline and rewriting of the headings;
    [convertedTitle || ''] is [''] for [undefined] (and for ['']). *)
Definition onOutlineReturns (assembled response : jsstring) (s : State) : State :=
  let convertedTitle := extractMdFromLLMOutput response in
  let convertContent := adjustMarkdownHeadings assembled (default [] convertedTitle) in
  setPhase (AwaitingWrite assembled convertContent) s.

(** Lines 148-159: the [finished] report and the result. *)
Definition onWriteDone (totalPages : nat) (assembled convertContent : jsstring)
    (s : State) : State :=
  mkState (queue s) (results s) (inProgress s) (pageContents s)
          (progress s ++ [mkProgress totalPages totalPages finished])
          (Resolved (mkParseResult assembled convertContent)).

(** One event; [None] when the event cannot happen in state [s]. *)
Definition step (concurrencyLimit totalPages : nat) (s : State) (e : Event)
    : option State :=
  match e with
  | ModelReturns id pageContent =>
      match results s !! id with
      | Some (mkTask it Pending) => Some (onModelReturns totalPages id it pageContent s)
      | _ => None
      end
  | ModelThrows id message =>
      match results s !! id with
      | Some (mkTask it Pending) => Some (onModelThrows id it message s)
      | _ => None
      end
  | Reaction id =>
      match results s !! id with
      | Some (mkTask it (Returned r)) => Some (onReaction id it r s)
      | _ => None
      end
  | RaceResumes =>
      match phase s with
      | AwaitingRace true => Some (runLoop concurrencyLimit (setPhase Running s))
      | _ => None
      end
  | OutlineReturns response =>
      match phase s with
      | AwaitingOutline assembled => Some (onOutlineReturns assembled response s)
      | _ => None
      end
  | OutlineThrows =>
      match phase s with
      | AwaitingOutline _ => Some (setPhase Rejected s)
      | _ => None
      end
  | WriteDone =>
      match phase s with
      | AwaitingWrite assembled convertContent =>
          Some (onWriteDone totalPages assembled convertContent s)
      | _ => None
      end
  | WriteFails =>
      match phase s with
      | AwaitingWrite _ _ => Some (setPhase Rejected s)
      | _ => None
      end
  end.

(** A run: the events in the order in which they happen. *)
Fixpoint run (concurrencyLimit totalPages : nat) (s : State) (events : list Event)
    : option State :=
  match events with
  | [] => Some s
  | e :: events' =>
      match step concurrencyLimit totalPages s e with
      | Some s' => run concurrencyLimit totalPages s' events'
      | None => None
      end
  end.

(** A run of [parsePdf] on [imageFiles] with the given [concurrency]. *)
Definition parsePdf (imageFiles : list PageImage) (concurrency : nat)
    (events : list Event) : option State :=
  run concurrency (length imageFiles) (init imageFiles concurrency) events.

(** Invocations that have started and not settled. *)
Definition unsettled (s : State) : nat :=
  length (List.filter (fun t => match promise t with Pending => true | _ => false end)
                      (results s)).

(** The pages whose invocation has returned a success, in start order. *)
Definition successOf (t : Task) : option PageContent :=
  match promise t with
  | Returned (Success d) | Fulfilled (Success d) => Some (mkPageContent (index (item t)) d)
  | _ => None
  end.

Definition successes (s : State) : list PageContent := omap successOf (results s).

(** Five pages as [generateFullPageImages] numbers them. *)
Definition fivePages : list PageImage :=
  List.map (fun i => mkPageImage (S i) []) (seq 0 5).

(** Concurrency 2, every call succeeds, and within each window the later
    page completes first. *)
Definition reverseOrder : list Event :=
  [ ModelReturns 1 (str "page2"); ModelReturns 0 (str "page1");
    Reaction 1; Reaction 0; RaceResumes;
    ModelReturns 3 (str "page4"); ModelReturns 2 (str "page3");
    Reaction 3; Reaction 2; RaceResumes;
    ModelReturns 4 (str "page5"); Reaction 4; RaceResumes ].

(** The order of the sort: ascending [pageIndex]. *)
Definition pageLe (a b : PageContent) : Prop := (pageIndex a <= pageIndex b)%nat.

Definition isFulfilled (t : Task) : bool :=
  match promise t with Fulfilled _ => true | _ => false end.

(** Entries of [results] whose promise is not fulfilled yet. *)
Definition notFulfilled (s : State) : nat :=
  length (List.filter (fun t => negb (isFulfilled t)) (results s)).

(** What holds in every state of a run of [parsePdf] on [imageFiles] with
    limit [concurrency]. *)
Record Inv (imageFiles : list PageImage) (concurrency : nat) (s : State) : Prop := {
  (* the items started so far and the queue make up the input, in order *)
  inv_items : List.map item (results s) ++ queue s = imageFiles;
  (* a promise that is not fulfilled is in [inProgress] *)
  inv_active : forall id t,
      results s !! id = Some t -> isFulfilled t = false -> id ∈ inProgress s;
  (* [inProgress] holds positions of [results] only *)
  inv_bound : forall id, id ∈ inProgress s -> (id < length (results s))%nat;
  inv_size : size (inProgress s) = notFulfilled s;
  inv_limit : (size (inProgress s) <= concurrency)%nat;
  (* the shared collection holds the successful pages, in some order *)
  inv_pages : pageContents s ≡ₚ successes s;
  inv_progress :
    progress s =
    mkProgress 0 (length imageFiles) starting ::
    List.map (fun k => mkProgress k (length imageFiles) running)
             (seq 1 (length (pageContents s))) ++
    match phase s with
    | Resolved _ => [mkProgress (length imageFiles) (length imageFiles) finished]
    | _ => []
    end;
  (* once [processInParallel] has returned *)
  inv_done :
    match phase s with
    | AwaitingOutline c | AwaitingWrite c _ | Resolved (mkParseResult c _) =>
        queue s = [] /\ inProgress s = ∅ /\
        StronglySorted pageLe (pageContents s) /\
        c = assemble (pageContents s)
    | Rejected => queue s = [] /\ inProgress s = ∅
    (* a race that nothing has settled yet still has its promises *)
    | AwaitingRace settled => settled = false -> (0 < size (inProgress s))%nat
    | Running | Spinning => True
    end
}.

(** The text assembled at lines 122-125, once the run has got there. *)
Definition assembledContent (s : State) : option jsstring :=
  match phase s with
  | AwaitingOutline c | AwaitingWrite c _ | Resolved (mkParseResult c _) => Some c
  | _ => None
  end.

(** Concurrency 2 with failures: the first call is rejected, the others are
    served in mixed order, page 4 fails too. *)
Definition failingRun : list Event :=
  [ ModelThrows 0 (str "timeout"); Reaction 0; RaceResumes;
    ModelReturns 2 (str "page3"); ModelReturns 1 (str "page2");
    Reaction 2; RaceResumes; Reaction 1;
    ModelThrows 3 (str "overloaded"); Reaction 3; RaceResumes;
    ModelReturns 4 (str "page5"); Reaction 4; RaceResumes ].

(* --------------------------------------------------------------------- *)
(** ** Relations between boxes, used to state properties                  *)
(* --------------------------------------------------------------------- *)

(** [outer] reaches at least as far as [inner] on each of the four sides:
    a comparison of the four numbers.  When [inner] has ordered bounds this
    says that the box [inner] lies within the box [outer]; for bounds out of
    order the numbers do not say what the rectangle spans, see [extent]. *)
Definition covers (outer inner : BBox) : Prop :=
  (b0 outer <= b0 inner /\ b1 outer <= b1 inner /\
   b2 inner <= b2 outer /\ b3 inner <= b3 outer)%Q.

(** What a rectangle with the bounds [A] spans on the page: the ring that
    [turf.bboxPolygon] builds has the corners [(x0,y0) (x1,y0) (x1,y1)
    (x0,y1)], so it reaches from the lesser to the greater coordinate on
    each axis, whichever comes first in [A]. *)
Definition extent (A : BBox) : BBox :=
  mkBBox (Qmin (b0 A) (b2 A)) (Qmin (b1 A) (b3 A))
         (Qmax (b0 A) (b2 A)) (Qmax (b1 A) (b3 A)).

(** [inner] lies inside [outer]: what [inner] spans is within what [outer]
    spans. *)
Definition inside (inner outer : RECT) : Prop :=
  covers (extent (bbox outer)) (extent (bbox inner)).


(** A horizontal line in the sense of [isHorizontalNear]: lower than 2 and
    wider than 10. *)
Definition isHorizontalLine (rect : RECT) : bool :=
  let bb := bbox rect in
  Qltb (b3 bb - b1 bb) 2 && Qltb 10 (b2 bb - b0 bb).

(* --------------------------------------------------------------------- *)
(** ** Regions of a page (parseRects of pdfParser.js)                     *)
(* --------------------------------------------------------------------- *)

(** [parseRects] from the point where its four lists are built up to the
    second merge: merge everything with thresholds 25 and 150; if the page
    has drawings or images, adsorb the large text rectangles (0.1) and then
    the small ones (5) to the merged rectangles; merge again with threshold
    10 and no horizontal threshold. *)
Definition clusterRects
    (drawingRects imageRects largeTextRects smallTextRects : list RECT)
    : list RECT :=
  let allRects :=
    drawingRects ++ imageRects ++ largeTextRects ++ smallTextRects in
  let mergedRects := mergeRects allRects 25%Q (Some 150%Q) in
  let updatedMergedRects :=
    if (0 <? length drawingRects)%nat || (0 <? length imageRects)%nat then
      let temp := (adsorbRectsToRects largeTextRects mergedRects (1 # 10)%Q).2 in
      (adsorbRectsToRects smallTextRects temp 5%Q).2
    else mergedRects in
  mergeRects updatedMergedRects 10%Q None.

(** The regions [parseRects] returns for a page.  Its four lists hold
    rectangles made by [createRect]; they are given here by the bounds handed
    to [createRect].  The result reads the [bbox] member of each rectangle
    that is wider than 15 and higher than 10. *)
Definition parseRects (drawing image largeText smallText : list BBox)
    : list BBox :=
  let mergedRects :=
    clusterRects (List.map createRect drawing) (List.map createRect image)
                 (List.map createRect largeText) (List.map createRect smallText) in
  let mergedRects := filterSmallRects mergedRects 15%Q 10%Q in
  List.map bbox mergedRects.

(* --------------------------------------------------------------------- *)
(** ** Fences and heading lines (src/utils.ts)                            *)
(* --------------------------------------------------------------------- *)

(** The code unit of the backtick, of which the fences are made. *)
Definition BACKTICK : N := 96.


(* --------------------------------------------------------------------- *)
(** ** Page images (src/imageGenerator.js)                                *)
(* --------------------------------------------------------------------- *)

(** [generateFullPageImages]: the loop [for (let i = 0; i < numPages; i++)]
    pushes one entry per page with [index: i + 1]; [render] stands for what
    is stored beside the index (the path of the image file, or its data). *)
Definition generateFullPageImages (numPages : nat) (render : nat -> jsstring)
    : list PageImage :=
  List.map (fun i => let pageIndex := (i + 1)%nat in
                     mkPageImage pageIndex (render pageIndex))
           (seq 0 numPages).


(* --------------------------------------------------------------------- *)
(** ** Batches of region images (src/markdownConverter.js)                *)
(* --------------------------------------------------------------------- *)

(** The loop of [convertImagesToMarkdown] that collects the answers for the
    regions of one page,
    [for (let i = 0; i < tasks.length; i += concurrency)], from index [i] on:
    each round appends the values of [tasks.slice(i, i + concurrency)] to
    [results] (a task catches its own failure, so [Promise.all] gives the
    values of the batch in order).  [None]: the loop has not ended within
    [fuel] rounds. *)
Fixpoint awaitBatches {A : Type} (fuel concurrency i : nat)
    (tasks results : list A) : option (list A) :=
  match fuel with
  | O => None
  | S fuel' =>
      if (i <? length tasks)%nat then
        let batch := take concurrency (drop i tasks) in
        awaitBatches fuel' concurrency (i + concurrency) tasks (results ++ batch)
      else Some results
  end.

(* --------------------------------------------------------------------- *)
(** ** What [parsePdf] writes                                             *)
(* --------------------------------------------------------------------- *)

(** One page whose text is a heading, an answer of the model that moves the
    heading one level down, and the run in which the page is converted, the
    answer arrives and the file is written. *)
Definition onePage : list PageImage := [mkPageImage 1 []].
Definition outlineAnswer : jsstring :=
  mdFence ++ [LF] ++ str "## A" ++ [LF] ++ fence.
Definition headingRun : list Event :=
  [ ModelReturns 0 (str "# A"); Reaction 0; RaceResumes;
    OutlineReturns outlineAnswer; WriteDone ].

(** After the inner loop of [processInParallel] and before any promise has
    settled, either the queue is empty or every slot is taken. *)
Definition saturated (concurrencyLimit : nat) (s : State) : Prop :=
  phase s = AwaitingRace false ->
  queue s = [] \/ size (inProgress s) = concurrencyLimit.

(* ===================================================================== *)
(** * Part II.  Properties                                                *)
(* ===================================================================== *)

Ltac qlra := Lqa.lra.
Ltac rlra := Lra.lra.
Ltac qnra := Lqa.nra.
Ltac rnra := Lra.nra.

Section Comparisons.
Local Open Scope Q_scope.

Lemma Qleb_true (a b : Q) : Qleb a b = true <-> a <= b.
Proof. apply Qle_bool_iff. Qed.

Lemma Qleb_false (a b : Q) : Qleb a b = false <-> b < a.
Proof.
  unfold Qleb. rewrite <- not_true_iff_false, Qle_bool_iff.
  split; [apply Qnot_le_lt | apply Qlt_not_le].
Qed.

Lemma Qltb_true (a b : Q) : Qltb a b = true <-> a < b.
Proof.
  unfold Qltb. rewrite negb_true_iff. apply (Qleb_false b a).
Qed.

Lemma Qltb_false (a b : Q) : Qltb a b = false <-> b <= a.
Proof.
  unfold Qltb. rewrite negb_false_iff. apply Qle_bool_iff.
Qed.
End Comparisons.

(** Destructs every boolean comparison of the goal into its order fact. *)
Ltac cmp_cases :=
  repeat match goal with
  | |- context [Qleb ?a ?b] =>
      let E := fresh "E" in
      destruct (Qleb a b) eqn:E;
      [apply Qleb_true in E | apply Qleb_false in E]
  | |- context [Qltb ?a ?b] =>
      let E := fresh "E" in
      destruct (Qltb a b) eqn:E;
      [apply Qltb_true in E | apply Qltb_false in E]
  end.

Ltac minmax_cases :=
  repeat match goal with
  | |- context [Qmax ?a ?b] =>
      let H := fresh "M" in
      destruct (Q.max_spec a b) as [[? H]|[? H]];
      generalize dependent (Qmax a b); intros
  | |- context [Qmin ?a ?b] =>
      let H := fresh "M" in
      destruct (Q.min_spec a b) as [[? H]|[? H]];
      generalize dependent (Qmin a b); intros
  end.

Section GeometryFacts.
Local Open Scope Q_scope.

(** The box computed for a bare geometry is always ordered. *)
Lemma Polygon_wellFormed (c : BBox) : wellFormed (Polygon c).
Proof.
  unfold wellFormed; simpl; split.
  - apply Qle_trans with (b0 c); [apply Q.le_min_l | apply Q.le_max_l].
  - apply Qle_trans with (b1 c); [apply Q.le_min_l | apply Q.le_max_l].
Qed.

(** The union of two rectangles is well formed as soon as one of them is. *)
Lemma unionRects_wellFormed (a b : RECT) :
  wellFormed a -> wellFormed (unionRects a b).
Proof.
  intros [Hx Hy]. unfold wellFormed, unionRects; simpl. split.
  - apply Qle_trans with (b0 (bbox a)); [apply Q.le_min_l|].
    apply Qle_trans with (b2 (bbox a)); [assumption | apply Q.le_max_l].
  - apply Qle_trans with (b1 (bbox a)); [apply Q.le_min_l|].
    apply Qle_trans with (b3 (bbox a)); [assumption | apply Q.le_max_l].
Qed.

Lemma gap_separation (lo1 hi1 lo2 hi2 : Q) :
  lo1 <= hi1 -> lo2 <= hi2 ->
  (if Qltb hi1 lo2 then lo2 - hi1
   else if Qltb hi2 lo1 then lo1 - hi2 else 0)
  == separation lo1 hi1 lo2 hi2.
Proof.
  intros H1 H2. unfold separation.
  cmp_cases; simpl; try qlra; minmax_cases; qlra.
Qed.

Lemma separation_positive (lo1 hi1 lo2 hi2 : Q) :
  Qleb lo1 hi2 && Qleb lo2 hi1 || Qltb 0 (separation lo1 hi1 lo2 hi2) = true.
Proof.
  unfold separation.
  destruct (Qleb lo1 hi2) eqn:E1; destruct (Qleb lo2 hi1) eqn:E2; simpl; auto;
    apply Qltb_true;
    try apply Qleb_true in E1; try apply Qleb_false in E1;
    try apply Qleb_true in E2; try apply Qleb_false in E2;
    minmax_cases; qlra.
Qed.

Lemma sqGap_nonneg (A B : BBox) : 0 <= sqGap A B.
Proof.
  unfold sqGap. generalize (gapX A B) (gapY A B). intros x y.
  assert (0 <= x * x) by (destruct (Qlt_le_dec x 0); qnra).
  assert (0 <= y * y) by (destruct (Qlt_le_dec y 0); qnra).
  qlra.
Qed.
End GeometryFacts.

Section DistanceFacts.
Local Open Scope R_scope.

Lemma sqrt_lt_square (s t : R) :
  0 <= s -> (sqrt s < t <-> 0 < t /\ s < t * t).
Proof.
  intros Hs.
  pose proof (sqrt_pos s) as Hp.
  pose proof (sqrt_sqrt s Hs) as Hq.
  split.
  - intros Hlt. split; [rlra | rnra].
  - intros [Ht Hlt]. destruct (Rlt_le_dec (sqrt s) t) as [|Hge]; [assumption | rnra].
Qed.

Lemma Q2R_sqGap_nonneg (A B : BBox) : 0 <= Q2R (sqGap A B).
Proof.
  replace 0 with (Q2R 0) by (unfold Q2R; simpl; rlra).
  apply Qle_Rle, sqGap_nonneg.
Qed.

Lemma overlaps_both_axes (A B : BBox) :
  overlaps A B = overlapX A B && overlapY A B.
Proof. unfold overlaps, overlapX, overlapY. now rewrite !andb_assoc. Qed.

Lemma gapX_separation (a b : RECT) :
  wellFormed a -> wellFormed b ->
  Q2R (gapX (bbox a) (bbox b)) =
  Q2R (separation (b0 (bbox a)) (b2 (bbox a)) (b0 (bbox b)) (b2 (bbox b))).
Proof.
  intros [Ha _] [Hb _]. apply Qeq_eqR, gap_separation; assumption.
Qed.

Lemma gapY_separation (a b : RECT) :
  wellFormed a -> wellFormed b ->
  Q2R (gapY (bbox a) (bbox b)) =
  Q2R (separation (b1 (bbox a)) (b3 (bbox a)) (b1 (bbox b)) (b3 (bbox b))).
Proof.
  intros [_ Ha] [_ Hb]. apply Qeq_eqR, gap_separation; assumption.
Qed.

Lemma getDistance_distance_spec (a b : RECT) (buffer : Q) :
  wellFormed a -> wellFormed b ->
  getDistance a b buffer = distance_spec a b buffer.
Proof.
  intros Ha Hb. unfold getDistance, distance_spec; cbv zeta.
  rewrite overlaps_both_axes.
  destruct (overlapX (bbox a) (bbox b) && overlapY (bbox a) (bbox b)); [reflexivity|].
  unfold sqGap. rewrite Q2R_plus, !Q2R_mult.
  rewrite (gapX_separation a b Ha Hb), (gapY_separation a b Ha Hb). f_equal. ring.
Qed.

(** The source comparison [getDistance(rect1, rect2) < distance] and its
    root-free form [isNear] agree. *)
Lemma isNear_getDistance (rect1 rect2 : RECT) (distance : Q) :
  isNear rect1 rect2 distance = true <->
  getDistance rect1 rect2 defaultBuffer < Q2R distance.
Proof.
  unfold isNear, getDistance; cbv zeta.
  destruct (overlaps (bbox rect1) (bbox rect2)).
  - rewrite Qltb_true. replace 0 with (Q2R 0) by (unfold Q2R; simpl; rlra).
    split; [apply Qlt_Rlt | apply Rlt_Qlt].
  - set (s := sqGap (bbox rect1) (bbox rect2)).
    set (t := (distance + defaultBuffer * 2)%Q).
    pose proof (Q2R_sqGap_nonneg (bbox rect1) (bbox rect2)) as Hs. fold s in Hs.
    assert (Ht : Q2R t = Q2R distance + Q2R defaultBuffer * 2).
    { unfold t. rewrite Q2R_plus, Q2R_mult. f_equal. f_equal.
      unfold Q2R; simpl; rlra. }
    rewrite andb_true_iff, !Qltb_true.
    transitivity (sqrt (Q2R s) < Q2R t); [|rewrite Ht; split; intros; rlra].
    rewrite (sqrt_lt_square _ _ Hs).
    replace 0 with (Q2R 0) by (unfold Q2R; simpl; rlra).
    rewrite <- Q2R_mult.
    split; intros [H1 H2]; split;
      first [apply Qlt_Rlt; assumption | apply Rlt_Qlt; assumption].
Qed.
End DistanceFacts.

(** C4.  For rectangles with [x0 <= x1] and [y0 <= y1], [getDistance]
    returns exactly 0 when the bounding boxes overlap on both axes, and
    otherwise the root of [dx^2 + dy^2] minus twice the buffer, where [dx] and
    [dy] are the per-axis separations, each 0 when the intervals overlap on
    that axis and the positive gap otherwise; boxes that nearly touch get a
    negative value (here one tenth apart, default buffer). *)
Theorem getDistance_contract (a b : RECT) (buffer : Q) :
  wellFormed a -> wellFormed b ->
  getDistance a b buffer = distance_spec a b buffer /\
  (forall lo1 hi1 lo2 hi2 : Q,
      Qleb lo1 hi2 && Qleb lo2 hi1 || Qltb 0 (separation lo1 hi1 lo2 hi2) = true) /\
  overlaps (bbox unitSquare) (bbox closeSquare) = false /\
  (getDistance unitSquare closeSquare defaultBuffer < 0)%R.
Proof.
  intros Ha Hb.
  split; [exact (getDistance_distance_spec a b buffer Ha Hb)|].
  split; [exact separation_positive|].
  assert (E : overlaps (bbox unitSquare) (bbox closeSquare) = false) by reflexivity.
  split; [exact E|].
  unfold getDistance; cbv zeta. rewrite E.
  assert (Hs : (sqGap (bbox unitSquare) (bbox closeSquare) == 1 # 100)%Q)
    by (vm_compute; reflexivity).
  rewrite (Qeq_eqR _ _ Hs).
  assert (Hlt : (sqrt (Q2R (1 # 100)) < Q2R defaultBuffer * 2)%R).
  { apply sqrt_lt_square; unfold Q2R; simpl; rlra. }
  rlra.
Qed.

Lemma getDistance_contract_witness :
  getDistance unitSquare closeSquare defaultBuffer =
  distance_spec unitSquare closeSquare defaultBuffer.
Proof.
  apply (getDistance_contract unitSquare closeSquare defaultBuffer);
    split; vm_compute; discriminate.
Defined.

Section NearSymmetry.
Local Open Scope Q_scope.

Lemma Qltb_proper (a b c d : Q) : a == b -> c == d -> Qltb a c = Qltb b d.
Proof.
  intros Hab Hcd.
  destruct (Qltb a c) eqn:E1; destruct (Qltb b d) eqn:E2; try reflexivity;
    first [apply Qltb_true in E1 | apply Qltb_false in E1];
    first [apply Qltb_true in E2 | apply Qltb_false in E2]; qlra.
Qed.

Lemma overlaps_sym (A B : BBox) : overlaps A B = overlaps B A.
Proof.
  unfold overlaps.
  destruct (Qleb (b0 A) (b2 B)), (Qleb (b0 B) (b2 A)),
    (Qleb (b1 A) (b3 B)), (Qleb (b1 B) (b3 A)); reflexivity.
Qed.

Lemma gap_sym (lo1 hi1 lo2 hi2 : Q) :
  lo1 <= hi1 -> lo2 <= hi2 ->
  (if Qltb hi1 lo2 then lo2 - hi1 else if Qltb hi2 lo1 then lo1 - hi2 else 0)
  == (if Qltb hi2 lo1 then lo1 - hi2 else if Qltb hi1 lo2 then lo2 - hi1 else 0).
Proof. intros H1 H2. cmp_cases; qlra. Qed.

Lemma sqGap_sym (a b : RECT) :
  wellFormed a -> wellFormed b ->
  sqGap (bbox a) (bbox b) == sqGap (bbox b) (bbox a).
Proof.
  intros [Hax Hay] [Hbx Hby].
  unfold sqGap, gapX, gapY.
  rewrite (gap_sym _ _ _ _ Hax Hbx), (gap_sym _ _ _ _ Hay Hby). reflexivity.
Qed.

(** On well-formed rectangles [isNear] does not depend on the order of its
    two arguments. *)
Lemma isNear_sym (a b : RECT) (distance : Q) :
  wellFormed a -> wellFormed b ->
  isNear a b distance = isNear b a distance.
Proof.
  intros Ha Hb. unfold isNear. rewrite (overlaps_sym (bbox a) (bbox b)).
  destruct (overlaps (bbox b) (bbox a)); [reflexivity|].
  f_equal. apply Qltb_proper; [now apply sqGap_sym | reflexivity].
Qed.
End NearSymmetry.

Lemma filter_all {A : Type} (f : A -> bool) (l : list A) :
  Forall (fun x => f x = true) l -> List.filter f l = l.
Proof.
  induction 1 as [|x l Hx _ IH]; simpl; [reflexivity|]. now rewrite Hx, IH.
Qed.

Lemma filter_Forall {A : Type} (f : A -> bool) (l : list A) :
  Forall (fun x => f x = true) (List.filter f l).
Proof.
  induction l as [|x l IH]; simpl; [constructor|].
  destruct (f x) eqn:E; [constructor; assumption | assumption].
Qed.


Section MergeFacts.
Variable distance : Q.
Variable horizontalDistance : option Q.

Local Abbreviation near := (shouldMerge distance horizontalDistance).
Local Abbreviation valid := (fun r : RECT => isValidRect r = true).

(** What one scan of the queue does: it never lengthens the queue, shortens it
    when it merges, and leaves everything as it was when it does not. *)
Lemma scanQueue_spec (ws : list RECT) :
  forall (rect rect' : RECT) (ws' : list RECT) (merged : bool),
    scanQueue distance horizontalDistance rect ws = (rect', ws', merged) ->
    (length ws' <= length ws)%nat /\
    (merged = true -> (length ws' < length ws)%nat) /\
    (merged = false ->
       rect' = rect /\ ws' = ws /\ Forall (fun o => near rect o = false) ws).
Proof.
  induction ws as [|o rest IH]; intros rect rect' ws' merged H; simpl in H.
  - inversion H; subst. repeat split; auto; discriminate.
  - destruct (near rect o) eqn:E.
    + destruct (scanQueue distance horizontalDistance (unionRects rect o) rest)
        as [[r1 w1] m1] eqn:E1.
      inversion H; subst. apply IH in E1 as (L & _ & _). simpl.
      split; [lia | split; [intros _; lia | discriminate]].
    + destruct (scanQueue distance horizontalDistance rect rest)
        as [[r1 w1] m1] eqn:E1.
      inversion H; subst. apply IH in E1 as (L & M & K). simpl.
      split; [lia | split].
      * intros Hm. specialize (M Hm). lia.
      * intros Hm. destruct (K Hm) as (-> & -> & F).
        repeat split. constructor; assumption.
Qed.

Section Preservation.
Variable P : RECT -> Prop.
Hypothesis P_union : forall a b : RECT, P a -> P (unionRects a b).

(** A property that unions inherit from their first rectangle is passed on
    by a scan, a pass, the loop and [mergeRects]. *)
Lemma scanQueue_preserves (ws : list RECT) :
  forall (rect rect' : RECT) (ws' : list RECT) (merged : bool),
    scanQueue distance horizontalDistance rect ws = (rect', ws', merged) ->
    P rect -> Forall P ws -> P rect' /\ Forall P ws'.
Proof.
  induction ws as [|o rest IH]; intros rect rect' ws' merged H Hr Hws; simpl in H.
  - inversion H; subst. split; [assumption | constructor].
  - inversion Hws as [|? ? Ho Hrest]; subst.
    destruct (near rect o).
    + destruct (scanQueue distance horizontalDistance (unionRects rect o) rest)
        as [[r1 w1] m1] eqn:E1.
      inversion H; subst. eapply IH; [exact E1 | now apply P_union | assumption].
    + destruct (scanQueue distance horizontalDistance rect rest)
        as [[r1 w1] m1] eqn:E1.
      inversion H; subst. destruct (IH _ _ _ _ E1 Hr Hrest) as [V1 V2].
      split; [assumption | constructor; assumption].
Qed.

Lemma mergePass_preserves (fuel : nat) :
  forall (ws new : list RECT) (merged : bool),
    mergePass fuel distance horizontalDistance ws = (new, merged) ->
    Forall P ws -> Forall P new.
Proof.
  induction fuel as [|fuel IH]; intros ws new merged H Hws;
    destruct ws as [|rect rest]; simpl in H;
    try (inversion H; subst; constructor).
  destruct (scanQueue distance horizontalDistance rect rest)
    as [[r1 w1] m1] eqn:E1.
  destruct (mergePass fuel distance horizontalDistance w1) as [nl m2] eqn:E2.
  inversion H; subst; clear H. inversion Hws as [|? ? Hr Hrest]; subst.
  destruct (scanQueue_preserves _ _ _ _ _ E1 Hr Hrest) as [V1 V2].
  constructor; [assumption | eapply IH; eassumption].
Qed.

Lemma mergeLoop_preserves (fuel : nat) :
  forall ws : list RECT,
    Forall P ws -> Forall P (mergeLoop fuel distance horizontalDistance ws).
Proof.
  induction fuel as [|fuel IH]; intros ws Hws; destruct ws as [|rect rest];
    simpl; try assumption.
  destruct (onePass distance horizontalDistance (rect :: rest))
    as [new merged] eqn:E.
  pose proof (mergePass_preserves _ _ _ _ E Hws) as Hnew.
  destruct merged; [apply IH|]; assumption.
Qed.

Lemma filter_preserves (f : RECT -> bool) (l : list RECT) :
  Forall P l -> Forall P (List.filter f l).
Proof.
  induction 1 as [|x l Hx _ IH]; simpl; [constructor|].
  destruct (f x); [constructor|]; assumption.
Qed.

End Preservation.

(** What one pass does, given fuel for every rectangle of the queue. *)
Lemma mergePass_spec (fuel : nat) :
  forall (ws new : list RECT) (merged : bool),
    (length ws <= fuel)%nat ->
    mergePass fuel distance horizontalDistance ws = (new, merged) ->
    (length new <= length ws)%nat /\
    (merged = true -> (length new < length ws)%nat) /\
    (merged = false ->
       new = ws /\ ForallOrdPairs (fun u v => near u v = false) ws) /\
    (ws <> [] -> new <> []).
Proof.
  induction fuel as [|fuel IH]; intros ws new merged Hlen H;
    destruct ws as [|rect rest]; simpl in *;
    try (inversion H; subst; repeat split; auto; try discriminate; constructor).
  - lia.
  - destruct (scanQueue distance horizontalDistance rect rest)
      as [[r1 w1] m1] eqn:E1.
    destruct (mergePass fuel distance horizontalDistance w1) as [nl m2] eqn:E2.
    inversion H; subst; clear H.
    apply scanQueue_spec in E1 as (L1 & M1 & K1).
    apply IH in E2 as (L2 & M2 & K2 & _); [|lia].
    simpl. split; [lia | split; [|split]].
    + intros Hm. apply orb_true_iff in Hm as [Hm|Hm];
        [specialize (M1 Hm) | specialize (M2 Hm)]; lia.
    + intros Hm. apply orb_false_iff in Hm as [Hm1 Hm2].
      destruct (K1 Hm1) as (-> & -> & F). destruct (K2 Hm2) as (-> & P).
      split; [reflexivity | constructor; assumption].
    + discriminate.
Qed.

(** Fuel beyond the length of the queue changes nothing. *)
Lemma mergePass_fuel_irrelevant (fuel1 : nat) :
  forall (fuel2 : nat) (ws : list RECT),
    (length ws <= fuel1)%nat -> (length ws <= fuel2)%nat ->
    mergePass fuel1 distance horizontalDistance ws =
    mergePass fuel2 distance horizontalDistance ws.
Proof.
  induction fuel1 as [|fuel1 IH]; intros fuel2 ws H1 H2;
    destruct ws as [|rect rest]; destruct fuel2 as [|fuel2]; simpl in *;
    try reflexivity; try lia.
  destruct (scanQueue distance horizontalDistance rect rest)
    as [[r1 w1] m1] eqn:E1.
  pose proof (scanQueue_spec _ _ _ _ _ E1) as (L1 & _).
  rewrite (IH fuel2 w1) by lia. reflexivity.
Qed.

Lemma mergePass_fuel (fuel : nat) (ws : list RECT) :
  (length ws <= fuel)%nat ->
  mergePass fuel distance horizontalDistance ws =
  onePass distance horizontalDistance ws.
Proof.
  intros H. unfold onePass. apply mergePass_fuel_irrelevant; [assumption | lia].
Qed.

Local Abbreviation stable := (stable distance horizontalDistance).

Lemma stable_pairwise (ws : list RECT) :
  stable ws -> ForallOrdPairs (fun u v => near u v = false) ws.
Proof.
  intros H. unfold stable, onePass in H.
  apply mergePass_spec in H as (_ & _ & K & _); [|lia].
  now destruct (K eq_refl).
Qed.

(** The outer loop ends on a stable list: [length ws] passes are enough. *)
Lemma mergeLoop_stable (fuel : nat) :
  forall ws : list RECT,
    (length ws <= fuel)%nat ->
    stable (mergeLoop fuel distance horizontalDistance ws).
Proof.
  induction fuel as [|fuel IH]; intros ws Hlen; destruct ws as [|rect rest];
    simpl in *; try reflexivity; [lia|].
  destruct (onePass distance horizontalDistance (rect :: rest))
    as [new merged] eqn:E.
  pose proof E as E'. unfold onePass in E'.
  apply mergePass_spec in E' as (L & M & K & _); [|lia].
  destruct merged.
  - apply IH. specialize (M eq_refl). simpl in M. lia.
  - destruct (K eq_refl) as [-> _]. exact E.
Qed.

Lemma mergeLoop_of_stable (fuel : nat) (ws : list RECT) :
  stable ws -> mergeLoop fuel distance horizontalDistance ws = ws.
Proof.
  intros H. destruct fuel as [|fuel]; destruct ws as [|rect rest];
    simpl; try reflexivity.
  unfold stable in H. now rewrite H.
Qed.

(** The result of [mergeRects] is the list the loop ended on: its final
    filter removes nothing, and a further pass would merge nothing. *)
Lemma mergeRects_stable (rectList : list RECT) :
  stable (mergeRects rectList distance horizontalDistance) /\
  Forall valid (mergeRects rectList distance horizontalDistance).
Proof.
  unfold mergeRects. destruct rectList as [|r0 rs]; [split; [reflexivity | constructor]|].
  set (validRects := List.filter isValidRect (r0 :: rs)).
  destruct validRects as [|v vs] eqn:Ev; [split; [reflexivity | constructor]|].
  rewrite <- Ev.
  assert (Hv : Forall valid validRects) by apply filter_Forall.
  pose proof (mergeLoop_preserves valid (fun a b _ => eq_refl)
                (length validRects) _ Hv) as Hw.
  rewrite (filter_all _ _ Hw).
  split; [apply mergeLoop_stable; lia | assumption].
Qed.

Lemma mergeRects_fixpoint (ws : list RECT) :
  stable ws -> Forall valid ws ->
  mergeRects ws distance horizontalDistance = ws.
Proof.
  intros Hs Hv. unfold mergeRects. destruct ws as [|r0 rs]; [reflexivity|].
  rewrite (filter_all _ _ Hv).
  rewrite (mergeLoop_of_stable _ _ Hs). apply (filter_all _ _ Hv).
Qed.
End MergeFacts.

(** C3.  [mergeRects] is idempotent: merging its own output again, with the
    same thresholds, returns that output, the same rectangles in the same
    order. *)
Theorem mergeRects_idempotent (R : list RECT) (d : Q) (horizontalDistance : option Q) :
  mergeRects (mergeRects R d horizontalDistance) d horizontalDistance =
  mergeRects R d horizontalDistance.
Proof.
  destruct (mergeRects_stable d horizontalDistance R) as [Hs Hv].
  apply mergeRects_fixpoint; assumption.
Qed.




Section AdsorbFacts.
Variable distance : Q.

Lemma adsorbOne_firstNear (rect : RECT) (targets : list RECT) :
  adsorbOne rect distance targets =
  match firstNear rect distance targets with
  | Some (i, target) => (<[i := unionRects rect target]> targets, true)
  | None => (targets, false)
  end.
Proof.
  unfold firstNear. induction targets as [|t rest IH]; simpl; [reflexivity|].
  case_decide as Hn.
  - now rewrite Hn.
  - apply not_true_is_false in Hn. rewrite Hn, IH.
    destruct (list_find _ rest) as [[i target]|]; reflexivity.
Qed.

Lemma firstNear_first (rect : RECT) (targets : list RECT) :
  match firstNear rect distance targets with
  | Some (i, target) =>
      targets !! i = Some target /\ isNear rect target distance = true /\
      Forall (fun t => isNear rect t distance = false) (take i targets)
  | None => Forall (fun t => isNear rect t distance = false) targets
  end.
Proof.
  unfold firstNear.
  destruct (list_find _ targets) as [[i target]|] eqn:E.
  - apply list_find_Some in E as (Hi & Hn & Hfirst).
    split; [assumption | split; [assumption|]].
    apply Forall_lookup. intros j t Hj.
    apply lookup_take_Some in Hj as [Hj Hlt].
    apply not_true_is_false. eapply Hfirst; eassumption.
  - apply list_find_None in E. eapply Forall_impl; [exact E|].
    intros t Ht. now apply not_true_is_false.
Qed.

Lemma adsorbOne_length (rect : RECT) (targets : list RECT) :
  length (adsorbOne rect distance targets).1 = length targets.
Proof.
  rewrite adsorbOne_firstNear.
  destruct (firstNear rect distance targets) as [[i target]|]; simpl;
    [apply length_insert | reflexivity].
Qed.

Lemma adsorbRectsToRects_cons (rect : RECT) (more targets : list RECT) :
  adsorbRectsToRects (rect :: more) targets distance =
  match firstNear rect distance targets with
  | Some (i, target) =>
      adsorbRectsToRects more (<[i := unionRects rect target]> targets) distance
  | None =>
      let rest := adsorbRectsToRects more targets distance in
      (rect :: rest.1, rest.2)
  end.
Proof.
  simpl. rewrite adsorbOne_firstNear.
  destruct (firstNear rect distance targets) as [[i target]|]; simpl.
  - now destruct (adsorbRectsToRects more _ distance).
  - now destruct (adsorbRectsToRects more targets distance).
Qed.

Lemma adsorbRectsToRects_length (sources : list RECT) :
  forall targets : list RECT,
    length (adsorbRectsToRects sources targets distance).2 = length targets.
Proof.
  induction sources as [|rect more IH]; intros targets; [reflexivity|].
  rewrite adsorbRectsToRects_cons.
  destruct (firstNear rect distance targets) as [[i target]|]; simpl.
  - rewrite IH. apply length_insert.
  - apply IH.
Qed.
End AdsorbFacts.

(** C5.  [adsorbRectsToRects] takes the sources one by one: a source is merged
    into the first target, in scan order, that is near it (that target is
    replaced in place by the union and the source is dropped; no later target
    is touched, even a nearer one); a source with no near target is passed on
    unchanged; the updated target list is as long as the given one. *)
Theorem adsorbRectsToRects_greedy_first_match :
  (forall (T : list RECT) (d : Q), adsorbRectsToRects [] T d = ([], T)) /\
  (forall (s : RECT) (S T : list RECT) (d : Q),
      adsorbRectsToRects (s :: S) T d =
      match firstNear s d T with
      | Some (i, target) =>
          adsorbRectsToRects S (<[i := unionRects s target]> T) d
      | None =>
          let rest := adsorbRectsToRects S T d in (s :: rest.1, rest.2)
      end) /\
  (forall (s : RECT) (T : list RECT) (d : Q),
      match firstNear s d T with
      | Some (i, target) =>
          T !! i = Some target /\ isNear s target d = true /\
          Forall (fun t => isNear s t d = false) (take i T)
      | None => Forall (fun t => isNear s t d = false) T
      end) /\
  (forall (S T : list RECT) (d : Q),
      length (adsorbRectsToRects S T d).2 = length T) /\
  Forall (fun t => isNear greedySource t 5 = true) greedyTargets /\
  Qltb (sqGap (bbox greedySource) (bbox (createRect (mkBBox 0 10 9 20))))
       (sqGap (bbox greedySource) (bbox (createRect (mkBBox 24 10 30 20)))) = true /\
  adsorbRectsToRects [greedySource] greedyTargets 5 =
    ([], [ Feature (mkBBox 10 10 30 20); createRect (mkBBox 0 10 9 20) ]).
Proof.
  split; [reflexivity|].
  split; [intros; apply adsorbRectsToRects_cons|].
  split; [intros; apply firstNear_first|].
  split; [intros; apply adsorbRectsToRects_length|].
  split; [repeat constructor|].
  split; vm_compute; reflexivity.
Qed.

(** The adsorption run of test/testRectProcessor.js. *)
Example adsorb_test :
  adsorbRectsToRects
    [createRect (mkBBox 15 15 25 25); createRect (mkBBox 150 150 160 160)]
    [createRect (mkBBox 10 10 30 30); createRect (mkBBox 200 200 220 220)] 10 =
  ([createRect (mkBBox 150 150 160 160)],
   [Feature (mkBBox 10 10 30 30); createRect (mkBBox 200 200 220 220)]).
Proof. vm_compute. reflexivity. Qed.

(** The merge runs of test/testRectProcessor.js and of the specification. *)
Example merge_test_near :
  mergeRects (firstn 2 TEST_RECTS) 5 None = [Feature (mkBBox 10 10 50 22)].
Proof. vm_compute. reflexivity. Qed.

Example merge_test_far :
  mergeRects (firstn 2 (skipn 2 TEST_RECTS)) 5 None = firstn 2 (skipn 2 TEST_RECTS).
Proof. vm_compute. reflexivity. Qed.

Example merge_test_horizontal :
  mergeRects [createRect (mkBBox 10 50 100 51); createRect (mkBBox 10 80 100 81)]
             5 (Some 50%Q) = [Feature (mkBBox 10 50 100 81)].
Proof. vm_compute. reflexivity. Qed.

Section Lines.

Lemma splitLines_nonempty (s : jsstring) : splitLines s <> [].
Proof.
  induction s as [|c rest IH]; simpl; [discriminate|].
  destruct (N.eqb c LF); [discriminate|].
  destruct (splitLines rest); discriminate.
Qed.

Lemma joinLines_cons (line : jsstring) (more : list jsstring) :
  more <> [] -> joinLines (line :: more) = line ++ LF :: joinLines more.
Proof. destruct more; [contradiction | reflexivity]. Qed.

(** [split] followed by [join] gives the text back. *)
Lemma joinLines_splitLines (s : jsstring) : joinLines (splitLines s) = s.
Proof.
  induction s as [|c rest IH]; [reflexivity|].
  cbn [splitLines]. destruct (N.eqb_spec c LF) as [->|Hc].
  - rewrite joinLines_cons by apply splitLines_nonempty. now rewrite IH.
  - pose proof (splitLines_nonempty rest) as Hne.
    destruct (splitLines rest) as [|line lines]; [contradiction|].
    rewrite <- IH. destruct lines; reflexivity.
Qed.

Lemma splitLines_noLF (s : jsstring) : Forall noLF (splitLines s).
Proof.
  induction s as [|c rest IH]; simpl; [repeat constructor|].
  destruct (N.eqb_spec c LF) as [->|Hc]; [constructor; [constructor | assumption]|].
  destruct (splitLines rest) as [|line lines]; [repeat constructor; assumption|].
  inversion IH; subst. constructor; [constructor|]; assumption.
Qed.

Lemma splitLines_app_LF (line rest : jsstring) :
  noLF line -> splitLines (line ++ LF :: rest) = line :: splitLines rest.
Proof.
  induction 1 as [|c line Hc _ IH]; [reflexivity|].
  cbn [app splitLines]. destruct (N.eqb_spec c LF); [contradiction|].
  now rewrite IH.
Qed.

Lemma splitLines_line (line : jsstring) : noLF line -> splitLines line = [line].
Proof.
  induction 1 as [|c line Hc _ IH]; [reflexivity|].
  cbn [splitLines]. destruct (N.eqb_spec c LF); [contradiction|].
  now rewrite IH.
Qed.

(** [join] followed by [split] gives the lines back. *)
Lemma splitLines_joinLines (lines : list jsstring) :
  lines <> [] -> Forall noLF lines -> splitLines (joinLines lines) = lines.
Proof.
  induction lines as [|line more IH]; intros Hne Hall; [contradiction|].
  inversion Hall as [|? ? Hline Hmore]; subst.
  destruct more as [|l2 more].
  - apply splitLines_line; assumption.
  - rewrite joinLines_cons by discriminate.
    rewrite splitLines_app_LF by assumption.
    rewrite IH; [reflexivity | discriminate | assumption].
Qed.

End Lines.

Section Patterns.

Lemma takeWhile_dropWhile (cls : N -> bool) (s : jsstring) :
  takeWhile cls s ++ dropWhile cls s = s.
Proof.
  induction s as [|c s IH]; simpl; [reflexivity|].
  destruct (cls c); simpl; [now rewrite IH | reflexivity].
Qed.

Lemma takeWhile_Forall (cls : N -> bool) (s : jsstring) :
  Forall (fun c => cls c = true) (takeWhile cls s).
Proof.
  induction s as [|c s IH]; simpl; [constructor|].
  destruct (cls c) eqn:E; constructor; assumption.
Qed.

(** When the rest of the pattern cannot fail, a greedy quantifier takes the
    longest run and never backtracks. *)
Lemma star_total {A : Type} (cls : N -> bool)
    (k : jsstring -> jsstring -> option A) :
  (forall a b, k a b <> None) ->
  forall consumed input,
    star cls k consumed input =
    k (consumed ++ takeWhile cls input) (dropWhile cls input).
Proof.
  intros Hk consumed input. revert consumed.
  induction input as [|c input IH]; intros consumed; simpl.
  - now rewrite app_nil_r.
  - destruct (cls c).
    + rewrite IH, <- app_assoc. simpl.
      destruct (k _ _) eqn:E; [reflexivity | now apply Hk in E].
    + now rewrite app_nil_r.
Qed.

(** Closed form of the capture of the heading pattern: what follows the
    hashes and the white space, up to the first line terminator. *)
Lemma headingMatch_closed (line : jsstring) :
  headingMatch line =
  match line with
  | c :: rest =>
      if isHash c
      then Some (takeWhile dot (dropWhile isWhiteSpace (dropWhile isHash rest)))
      else None
  | [] => None
  end.
Proof.
  unfold headingMatch, plus. destruct line as [|c rest]; [reflexivity|].
  destruct (isHash c); [|reflexivity].
  rewrite star_total.
  - rewrite star_total.
    + rewrite star_total by discriminate. reflexivity.
    + intros a b. rewrite star_total by discriminate. discriminate.
  - intros a b. rewrite star_total.
    + rewrite star_total by discriminate. discriminate.
    + intros a' b'. rewrite star_total by discriminate. discriminate.
Qed.

Lemma dot_not_LF (c : N) : dot c = true -> c <> LF.
Proof. intros H ->. discriminate. Qed.

Lemma headingMatch_noLF (line content : jsstring) :
  headingMatch line = Some content -> noLF content.
Proof.
  rewrite headingMatch_closed. destruct line as [|c rest]; [discriminate|].
  destruct (isHash c); [|discriminate]. intros [= <-].
  eapply Forall_impl; [apply takeWhile_Forall|]. intros x. apply dot_not_LF.
Qed.

Lemma replicate_HASH_noLF (n : nat) : noLF (replicate n HASH).
Proof. induction n; constructor; [discriminate | assumption]. Qed.

Lemma adjustLine_noLF (map : gmap jsstring nat) (line : jsstring) :
  noLF line -> noLF (adjustLine map line).
Proof.
  intros Hline. unfold adjustLine.
  destruct (headingMatch line) as [content|] eqn:E; [|assumption].
  destruct (map !! content); [|assumption].
  apply Forall_app; split; [apply replicate_HASH_noLF|].
  constructor; [discriminate | eapply headingMatch_noLF; eassumption].
Qed.

(** The lines of the result are the processed lines, one for one. *)
Lemma adjustMarkdownHeadings_lines (markdownText newTitle : jsstring) :
  splitLines (adjustMarkdownHeadings markdownText newTitle) =
  List.map (adjustLine (createTitleLevelMap newTitle ∅)) (splitLines markdownText).
Proof.
  unfold adjustMarkdownHeadings. apply splitLines_joinLines.
  - pose proof (splitLines_nonempty markdownText).
    destruct (splitLines markdownText); [contradiction | discriminate].
  - pose proof (splitLines_noLF markdownText) as H.
    induction H; simpl; constructor; [apply adjustLine_noLF|]; assumption.
Qed.

(** Every key of the title map is the trimmed title of a heading line of the
    outline (or was in the map before). *)
Lemma fold_setTitleLevel_key (lines : list jsstring) :
  forall (map : gmap jsstring nat) (key : jsstring),
    is_Some (fold_left setTitleLevel lines map !! key) ->
    is_Some (map !! key) \/
    exists line hashes text,
      line ∈ lines /\ titleMatch line = Some (hashes, text) /\ trim text = key.
Proof.
  induction lines as [|line lines IH]; intros map key H; simpl in H; [now left|].
  apply IH in H as [H|(l & h & t & Hin & Hm & Ht)].
  - unfold setTitleLevel in H.
    destruct (titleMatch line) as [[hashes text]|] eqn:E; [|now left].
    destruct (decide (trim text = key)) as [Heq|Hne].
    + right. exists line, hashes, text. split; [left | split; assumption].
    + rewrite lookup_insert_ne in H by assumption. now left.
  - right. exists l, h, t. split; [now right | split; assumption].
Qed.

Lemma createTitleLevelMap_key (outline key : jsstring) :
  is_Some (createTitleLevelMap outline ∅ !! key) ->
  exists line hashes text,
    line ∈ splitLines outline /\ titleMatch line = Some (hashes, text) /\
    trim text = key.
Proof.
  intros H. apply fold_setTitleLevel_key in H as [H|H]; [|assumption].
  rewrite lookup_empty in H. now destruct H.
Qed.

End Patterns.

(** C6.  A heading line of the text whose title (the capture of the heading
    pattern) is not the trimmed title of any heading line of the corrected
    outline comes out of [adjustMarkdownHeadings] unchanged, at its position:
    it is neither removed nor renumbered. *)
Theorem unmatched_heading_passthrough
    (markdownText outline : jsstring) (i : nat) (line content : jsstring) :
  splitLines markdownText !! i = Some line ->
  headingMatch line = Some content ->
  (forall oline hashes text,
      oline ∈ splitLines outline ->
      titleMatch oline = Some (hashes, text) -> trim text <> content) ->
  splitLines (adjustMarkdownHeadings markdownText outline) !! i = Some line.
Proof.
  intros Hi Hm Hno.
  rewrite adjustMarkdownHeadings_lines, list_lookup_fmap, Hi. simpl. f_equal.
  unfold adjustLine. rewrite Hm.
  destruct (createTitleLevelMap outline ∅ !! content) as [level|] eqn:E;
    [|reflexivity].
  destruct (createTitleLevelMap_key outline content) as (l & h & t & Hin & Ht & Hk);
    [now rewrite E|].
  exfalso. eapply Hno; eassumption.
Qed.

Lemma unmatched_heading_passthrough_witness :
  splitLines (adjustMarkdownHeadings sampleText sampleOutline) !! 1%nat =
  Some (str "## Intro").
Proof.
  apply (unmatched_heading_passthrough sampleText sampleOutline 1
           (str "## Intro") (str "Intro")); [reflexivity | reflexivity |].
  intros oline hashes text Hin Hm.
  vm_compute in Hin.
  apply elem_of_cons in Hin as [->|Hin];
    [vm_compute in Hm; injection Hm as <- <-; vm_compute; discriminate|].
  apply elem_of_cons in Hin as [->|Hin];
    [vm_compute in Hm; injection Hm as <- <-; vm_compute; discriminate|].
  apply elem_of_nil in Hin. contradiction.
Defined.

Section Reconciliation.

(** An outline without heading lines leaves the text as it is. *)
Lemma adjustMarkdownHeadings_no_titles (markdownText outline : jsstring) :
  Forall (fun line => titleMatch line = None) (splitLines outline) ->
  adjustMarkdownHeadings markdownText outline = markdownText.
Proof.
  intros Hno. unfold adjustMarkdownHeadings.
  assert (Hmap : createTitleLevelMap outline ∅ = ∅).
  { unfold createTitleLevelMap. generalize (∅ : gmap jsstring nat) as m.
    induction Hno as [|line lines Hline _ IH]; intros m; simpl; [reflexivity|].
    unfold setTitleLevel at 2. rewrite Hline. apply IH. }
  rewrite Hmap.
  rewrite <- (joinLines_splitLines markdownText) at 2. f_equal.
  induction (splitLines markdownText) as [|line lines IH]; simpl; [reflexivity|].
  rewrite IH. f_equal. unfold adjustLine.
  destruct (headingMatch line); [|reflexivity]. now rewrite lookup_empty.
Qed.

(** The fallback of [parsePdf], [convertedTitle || ''], changes nothing. *)
Lemma adjustMarkdownHeadings_empty_outline (markdownText : jsstring) :
  adjustMarkdownHeadings markdownText [] = markdownText.
Proof. apply adjustMarkdownHeadings_no_titles. repeat constructor. Qed.

Lemma startsWith_prefix (needle : jsstring) :
  forall s, startsWith needle s = true -> exists post, s = needle ++ post.
Proof.
  induction needle as [|x needle IH]; intros s H; [now exists s|].
  destruct s as [|y s]; [discriminate|]. simpl in H.
  apply andb_true_iff in H as [Hxy Hs]. apply N.eqb_eq in Hxy as ->.
  destruct (IH s Hs) as [post ->]. now exists post.
Qed.

Lemma indexOf_Some (needle : jsstring) (s : jsstring) :
  forall i, indexOf needle s = Some i ->
            exists pre post, s = pre ++ needle ++ post.
Proof.
  induction s as [|c s IH]; intros i H; cbn [indexOf] in H.
  - destruct (startsWith needle []) eqn:E; [|discriminate].
    apply startsWith_prefix in E as [post ->]. now exists [], post.
  - destruct (startsWith needle (c :: s)) eqn:E.
    + apply startsWith_prefix in E as [post ->]. now exists [], post.
    + destruct (indexOf needle s) as [j|]; [|discriminate].
      destruct (IH j eq_refl) as (pre & post & ->). now exists (c :: pre), post.
Qed.

(** A response in which the opening delimiter does not occur gives
    [undefined]. *)
Lemma extractMdFromLLMOutput_no_opener (output : jsstring) :
  (forall pre post, output <> pre ++ mdFence ++ post) ->
  extractMdFromLLMOutput output = None.
Proof.
  intros Hno. unfold extractMdFromLLMOutput.
  destruct (indexOf mdFence output) as [i|] eqn:E; [|reflexivity].
  apply indexOf_Some in E as (pre & post & E). now apply Hno in E.
Qed.

End Reconciliation.

(** C8.  The response [unclosedResponse] opens a fence and never closes it:
    its only run of three backquotes is the opening delimiter at index 0.
    [extractMdFromLLMOutput] does not return [undefined] for it but the twelve
    code units at the opening delimiter (the [substring] bounds come swapped);
    that value holds no heading line, so the text still passes through
    [adjustMarkdownHeadings] unchanged, as it does with the empty outline. *)
Theorem extractMdFromLLMOutput_unclosed_fence :
  indexOf fence unclosedResponse = Some 0%nat /\
  lastIndexOf fence unclosedResponse = Some 0%nat /\
  extractMdFromLLMOutput unclosedResponse = Some (str "```markdown" ++ [LF]) /\
  (forall c : jsstring,
      adjustMarkdownHeadings c (str "```markdown" ++ [LF]) = c) /\
  (forall c : jsstring, adjustMarkdownHeadings c [] = c).
Proof.
  split; [reflexivity|]. split; [reflexivity|]. split; [reflexivity|].
  split.
  - intros c. apply adjustMarkdownHeadings_no_titles. repeat constructor.
  - exact adjustMarkdownHeadings_empty_outline.
Qed.

Section Frame.

Lemma dropWhile_head (cls : N -> bool) (s : jsstring) :
  dropWhile cls s = [] \/
  exists c t, dropWhile cls s = c :: t /\ cls c = false.
Proof.
  induction s as [|c s IH]; simpl; [now left|].
  destruct (cls c) eqn:E; [assumption | right; now exists c, s].
Qed.

Lemma takeWhile_isHash (s : jsstring) :
  takeWhile isHash s = replicate (length (takeWhile isHash s)) HASH.
Proof.
  induction s as [|c s IH]; simpl; [reflexivity|].
  destruct (isHash c) eqn:E; simpl; [|reflexivity].
  apply N.eqb_eq in E as ->. now rewrite <- IH.
Qed.

(** A line that does not begin with a hash is not a heading line. *)
Lemma headingMatch_None (line : jsstring) :
  headingMatch line = None <-> forall rest, line <> HASH :: rest.
Proof.
  rewrite headingMatch_closed. destruct line as [|c rest]; [easy|].
  destruct (isHash c) eqn:E; split; intros H; try discriminate.
  - apply N.eqb_eq in E as ->. now contradiction (H rest).
  - intros r [= -> ->]. discriminate.
  - reflexivity.
Qed.

(** Shape of a heading line around its capture: hashes, white space, the
    capture, and a tail that is empty or begins with a line terminator. *)
Lemma headingMatch_shape (line content : jsstring) :
  headingMatch line = Some content ->
  exists (k : nat) (ws tail : jsstring),
    line = replicate (S k) HASH ++ ws ++ content ++ tail /\
    Forall (fun c => isWhiteSpace c = true) ws /\
    (tail = [] \/ exists c t, tail = c :: t /\ isLineTerminator c = true).
Proof.
  rewrite headingMatch_closed. destruct line as [|c rest]; [discriminate|].
  destruct (isHash c) eqn:E; [|discriminate]. intros [= <-].
  apply N.eqb_eq in E as ->.
  set (r1 := dropWhile isHash rest). set (r2 := dropWhile isWhiteSpace r1).
  exists (length (takeWhile isHash rest)), (takeWhile isWhiteSpace r1),
    (dropWhile dot r2).
  split; [|split].
  - cbn [replicate app]. f_equal. rewrite <- takeWhile_isHash.
    rewrite (takeWhile_dropWhile dot r2). unfold r2.
    rewrite (takeWhile_dropWhile isWhiteSpace r1). unfold r1.
    now rewrite (takeWhile_dropWhile isHash rest).
  - apply takeWhile_Forall.
  - destruct (dropWhile_head dot r2) as [H|(c & t & H & Hc)]; [now left|].
    right. exists c, t. split; [assumption|].
    unfold dot in Hc. now apply negb_false_iff in Hc.
Qed.

(** What [adjustMarkdownHeadings] keeps: the number of lines, and every line
    but the heading lines whose capture is a key of the title map; such a
    line becomes the new hashes, one space and the capture. *)
Lemma adjustMarkdownHeadings_frame (markdownText outline : jsstring) :
  let map := createTitleLevelMap outline ∅ in
  length (splitLines (adjustMarkdownHeadings markdownText outline)) =
    length (splitLines markdownText) /\
  forall (i : nat) (line : jsstring),
    splitLines markdownText !! i = Some line ->
    splitLines (adjustMarkdownHeadings markdownText outline) !! i =
      Some (adjustLine map line) /\
    ((forall rest, line <> HASH :: rest) -> adjustLine map line = line) /\
    (forall content, headingMatch line = Some content ->
                     map !! content = None -> adjustLine map line = line) /\
    (forall content level,
        headingMatch line = Some content -> map !! content = Some level ->
        adjustLine map line = replicate level HASH ++ SPACE :: content).
Proof.
  intros map. rewrite adjustMarkdownHeadings_lines. split.
  - apply length_map.
  - intros i line Hi. rewrite list_lookup_fmap, Hi. split; [reflexivity|].
    unfold adjustLine. split; [|split].
    + intros H. apply headingMatch_None in H. now rewrite H.
    + intros content Hm Hk. now rewrite Hm, Hk.
    + intros content level Hm Hk. now rewrite Hm, Hk.
Qed.

End Frame.

(** C10.  The heading line [# A<CR>B] with the outline [## A]: the capture of
    the heading pattern stops at the carriage return, [A] is a key of the
    title map, and the line is rewritten to [## A]; the rewrite drops the
    carriage return and the [B] after it, so it changes more than the marker
    run and the white space after it.  In a text with CR LF line ends the
    rewritten heading loses its carriage return in the same way. *)
Theorem adjustMarkdownHeadings_drops_after_CR :
  splitLines crText = [str "# A" ++ [CR] ++ str "B"] /\
  headingMatch (str "# A" ++ [CR] ++ str "B") = Some (str "A") /\
  createTitleLevelMap crOutline ∅ !! str "A" = Some 2%nat /\
  adjustMarkdownHeadings crText crOutline = str "## A" /\
  adjustMarkdownHeadings (str "# A" ++ [CR; LF] ++ str "body" ++ [CR; LF]) crOutline
    = str "## A" ++ [LF] ++ str "body" ++ [CR; LF].
Proof. repeat split; vm_compute; reflexivity. Qed.

(** The heading round trip of the specification: levels 1, 2, 1 become
    2, 3, 2 and the titles are kept. *)
Example heading_round_trip :
  adjustMarkdownHeadings
    (str "# A" ++ [LF] ++ str "## A.1" ++ [LF] ++ str "# B")
    (str "## A" ++ [LF] ++ str "### A.1" ++ [LF] ++ str "## B") =
  str "## A" ++ [LF] ++ str "### A.1" ++ [LF] ++ str "## B".
Proof. vm_compute. reflexivity. Qed.

(** Backtracking in the title pattern: a line of hashes only gives one hash
    back to the title. *)
Example titleMatch_hashes_only : titleMatch (str "##") = Some (str "#", str "#").
Proof. vm_compute. reflexivity. Qed.

Example extract_fenced :
  extractMdFromLLMOutput
    (str "ok ```markdown" ++ [LF] ++ str "# A" ++ [LF] ++ str "``` bye") =
  Some (str "# A" ++ [LF]).
Proof. vm_compute. reflexivity. Qed.

Section Sorting.

Lemma insertPage_Permutation (p : PageContent) (l : list PageContent) :
  insertPage p l ≡ₚ p :: l.
Proof.
  induction l as [|q l IH]; simpl; [reflexivity|].
  destruct (pageIndex p <=? pageIndex q)%nat; [reflexivity|].
  rewrite IH. apply Permutation_swap.
Qed.

Lemma sortByPageIndex_Permutation (l : list PageContent) :
  sortByPageIndex l ≡ₚ l.
Proof.
  induction l as [|p l IH]; simpl; [reflexivity|].
  now rewrite insertPage_Permutation, IH.
Qed.

Lemma insertPage_sorted (p : PageContent) (l : list PageContent) :
  StronglySorted pageLe l -> StronglySorted pageLe (insertPage p l).
Proof.
  induction 1 as [|q l Hl IH Hq]; simpl; [repeat constructor|].
  destruct (Nat.leb_spec (pageIndex p) (pageIndex q)) as [Hle|Hgt].
  - constructor; [constructor; assumption|].
    constructor; [exact Hle|].
    eapply Forall_impl; [exact Hq|]. unfold pageLe. intros x Hx. lia.
  - constructor; [assumption|].
    rewrite insertPage_Permutation. constructor; [unfold pageLe; lia | assumption].
Qed.

Lemma sortByPageIndex_sorted (l : list PageContent) :
  StronglySorted pageLe (sortByPageIndex l).
Proof.
  induction l as [|p l IH]; simpl; [constructor | now apply insertPage_sorted].
Qed.

(** With pairwise different page numbers the ascending order is strict and
    there is only one such arrangement. *)
Lemma NoDup_fmap_inj {A B : Type} (f : A -> B) (l : list A) (x y : A) :
  NoDup (f <$> l) -> x ∈ l -> y ∈ l -> f x = f y -> x = y.
Proof.
  induction l as [|a l IH]; intros Hnd Hx Hy Hf; [now apply elem_of_nil in Hx|].
  rewrite fmap_cons in Hnd. apply NoDup_cons in Hnd as [Ha Hnd].
  apply elem_of_cons in Hx as [->|Hx]; apply elem_of_cons in Hy as [->|Hy].
  - reflexivity.
  - exfalso. apply Ha. rewrite Hf. now apply list_elem_of_fmap_2.
  - exfalso. apply Ha. rewrite <- Hf. now apply list_elem_of_fmap_2.
  - now apply IH.
Qed.

Lemma sorted_unique (l1 l2 : list PageContent) :
  NoDup (pageIndex <$> l1) ->
  StronglySorted pageLe l1 -> StronglySorted pageLe l2 -> l1 ≡ₚ l2 -> l1 = l2.
Proof.
  intros Hnd H1 H2 Hp.
  apply (StronglySorted_unique_strong pageLe); try assumption.
  intros x y Hx Hy Hxy Hyx. unfold pageLe in *.
  apply (NoDup_fmap_inj pageIndex l1); [assumption | assumption | | lia].
  now rewrite Hp.
Qed.

Lemma sorted_strict (l : list PageContent) :
  NoDup (pageIndex <$> l) -> StronglySorted pageLe l ->
  StronglySorted (fun a b => (pageIndex a < pageIndex b)%nat) l.
Proof.
  intros Hnd Hs. induction Hs as [|p l Hl IH Hp]; [constructor|].
  rewrite fmap_cons in Hnd. apply NoDup_cons in Hnd as [Hnot Hnd].
  constructor; [now apply IH|].
  apply Forall_forall. intros q Hq.
  rewrite Forall_forall in Hp. specialize (Hp q Hq). unfold pageLe in Hp.
  destruct (Nat.eq_dec (pageIndex p) (pageIndex q)) as [Heq|Hne]; [|lia].
  exfalso. apply Hnot. rewrite Heq. now apply list_elem_of_fmap_2.
Qed.

End Sorting.

Section ListUpdates.
Context {A B : Type}.

Lemma filter_length_insert (p : A -> bool) (l : list A) :
  forall (i : nat) (x y : A),
    l !! i = Some x ->
    (length (List.filter p (<[i := y]> l)) + (if p x then 1 else 0) =
     length (List.filter p l) + (if p y then 1 else 0))%nat.
Proof.
  induction l as [|a l IH]; intros i x y Hi; [discriminate|].
  destruct i as [|i]; simpl in *.
  - injection Hi as ->. destruct (p x), (p y); simpl; lia.
  - specialize (IH i x y Hi). destruct (p a); simpl; lia.
Qed.

Lemma omap_insert_same (f : A -> option B) (l : list A) :
  forall (i : nat) (x y : A),
    l !! i = Some x -> f y = f x -> omap f (<[i := y]> l) = omap f l.
Proof.
  induction l as [|a l IH]; intros i x y Hi Hf; [reflexivity|].
  destruct i as [|i]; csimpl in *.
  - injection Hi as ->. now rewrite Hf.
  - now rewrite (IH i x y Hi Hf).
Qed.

Lemma omap_insert_new (f : A -> option B) (l : list A) :
  forall (i : nat) (x y : A) (b : B),
    l !! i = Some x -> f x = None -> f y = Some b ->
    omap f (<[i := y]> l) ≡ₚ b :: omap f l.
Proof.
  induction l as [|a l IH]; intros i x y b Hi Hx Hy; [discriminate|].
  destruct i as [|i]; csimpl in *.
  - injection Hi as ->. now rewrite Hx, Hy.
  - destruct (f a); rewrite (IH i x y b Hi Hx Hy);
      [apply Permutation_swap | reflexivity].
Qed.

Lemma fmap_insert_same (f : A -> B) (l : list A) (i : nat) (x y : A) :
  l !! i = Some x -> f y = f x -> f <$> <[i := y]> l = f <$> l.
Proof.
  intros Hi Hf. rewrite list_fmap_insert, Hf. apply list_insert_id.
  now rewrite list_lookup_fmap, Hi.
Qed.

End ListUpdates.

Section PipelineInvariant.
Variable imageFiles : list PageImage.
Variable concurrency : nat.

Local Abbreviation Inv := (Inv imageFiles concurrency).
Local Abbreviation N := (length imageFiles).

Lemma notFulfilled_app (s : State) (t : Task) :
  length (List.filter (fun t => negb (isFulfilled t)) (results s ++ [t])) =
  (notFulfilled s + if isFulfilled t then 0 else 1)%nat.
Proof.
  unfold notFulfilled. rewrite List.filter_app, length_app. simpl.
  destruct (isFulfilled t); reflexivity.
Qed.

Lemma startTask_inv (it : PageImage) (rest : list PageImage) (s : State) :
  Inv s -> queue s = it :: rest -> phase s = Running ->
  (size (inProgress s) < concurrency)%nat ->
  Inv (startTask it rest s).
Proof.
  intros [Hitems Hactive Hbound Hsize Hlimit Hpages Hprog Hdone] Hq Hph Hlt.
  assert (Hfresh : length (results s) ∉ inProgress s).
  { intros Hin. apply Hbound in Hin. lia. }
  constructor; unfold startTask; simpl.
  - rewrite Hq in Hitems. rewrite map_app, <- app_assoc. exact Hitems.
  - intros id t Hid Hf.
    destruct (decide (id < length (results s))%nat) as [Hlt'|Hge].
    + rewrite lookup_app_l in Hid by assumption.
      apply elem_of_union_r. eapply Hactive; eassumption.
    + apply lookup_lt_Some in Hid as Hlen. rewrite length_app in Hlen. simpl in Hlen.
      assert (id = length (results s)) as -> by lia.
      apply elem_of_union_l, elem_of_singleton. reflexivity.
  - intros id Hin. rewrite length_app. simpl.
    apply elem_of_union in Hin as [Hin|Hin].
    + apply elem_of_singleton in Hin as ->. lia.
    + apply Hbound in Hin. lia.
  - rewrite size_union by set_solver. rewrite size_singleton.
    unfold notFulfilled at 1. simpl. rewrite notFulfilled_app. simpl. lia.
  - rewrite size_union by set_solver. rewrite size_singleton. lia.
  - unfold successes. simpl. rewrite omap_app. simpl. now rewrite app_nil_r.
  - rewrite Hph in Hprog. rewrite Hph. exact Hprog.
  - now rewrite Hph.
Qed.

Lemma startTasks_inv (pending : list PageImage) :
  forall s : State,
    Inv s -> queue s = pending -> phase s = Running ->
    let s' := startTasks concurrency pending s in
    Inv s' /\ phase s' = Running /\
    (queue s' = [] \/ (concurrency <= size (inProgress s'))%nat) /\
    (length (queue s') + size (inProgress s') =
     length (queue s) + size (inProgress s))%nat.
Proof.
  induction pending as [|it rest IH]; intros s HI Hq Hph; simpl.
  - split; [assumption | split; [assumption | split; [now left | reflexivity]]].
  - destruct (Nat.ltb_spec (size (inProgress s)) concurrency) as [Hlt|Hge].
    + destruct (IH (startTask it rest s)) as (H1 & H2 & H3 & H4);
        [eapply startTask_inv; eassumption | reflexivity | exact Hph |].
      split; [assumption | split; [assumption | split; [assumption|]]].
      rewrite H4, Hq. unfold startTask. simpl.
      rewrite size_union, size_singleton; [lia|].
      apply disjoint_singleton_l. intros Hin.
      apply (inv_bound _ _ _ HI) in Hin. lia.
    + split; [assumption | split; [assumption | split; [now right | reflexivity]]].
Qed.

Lemma setPhase_inv (p : Phase) (s : State) :
  Inv s ->
  (forall r, phase s <> Resolved r) -> (forall r, p <> Resolved r) ->
  match p with
  | AwaitingOutline c | AwaitingWrite c _ | Resolved (mkParseResult c _) =>
      queue s = [] /\ inProgress s = ∅ /\
      StronglySorted pageLe (pageContents s) /\ c = assemble (pageContents s)
  | Rejected => queue s = [] /\ inProgress s = ∅
  | AwaitingRace settled => settled = false -> (0 < size (inProgress s))%nat
  | Running | Spinning => True
  end ->
  Inv (setPhase p s).
Proof.
  intros [Hitems Hactive Hbound Hsize Hlimit Hpages Hprog Hdone] Hold Hnew Hp.
  constructor; unfold setPhase; simpl; try assumption.
  rewrite Hprog. f_equal. f_equal.
  destruct (phase s); destruct p; try reflexivity;
    first [now contradiction (Hold result) | now contradiction (Hnew result)].
Qed.

Lemma afterPipeline_inv (s : State) :
  Inv s -> phase s = Running -> queue s = [] -> inProgress s = ∅ ->
  Inv (afterPipeline s).
Proof.
  intros [Hitems Hactive Hbound Hsize Hlimit Hpages Hprog Hdone] Hph Hq He.
  pose proof (sortByPageIndex_Permutation (pageContents s)) as Hperm.
  constructor; unfold afterPipeline; simpl; try assumption.
  - transitivity (pageContents s); [exact Hperm | exact Hpages].
  - rewrite (Permutation_length Hperm). rewrite Hph in Hprog. exact Hprog.
  - repeat split; try assumption. apply sortByPageIndex_sorted.
Qed.

Lemma loopCondition_false (s : State) :
  loopCondition s = false -> queue s = [] /\ inProgress s = ∅.
Proof.
  unfold loopCondition. intros H. apply orb_false_iff in H as [Hq Hs].
  apply Nat.ltb_ge in Hq, Hs. split.
  - destruct (queue s); [reflexivity | simpl in Hq; lia].
  - apply leibniz_equiv, size_empty_inv. lia.
Qed.

Lemma runLoop_inv (s : State) :
  Inv s -> phase s = Running -> Inv (runLoop concurrency s).
Proof.
  intros HI Hph. unfold runLoop.
  destruct (loopCondition s) eqn:Hc.
  - destruct (startTasks_inv (queue s) s HI eq_refl Hph) as (HI1 & Hph1 & _).
    set (s1 := startTasks concurrency (queue s) s) in *.
    destruct (Nat.ltb_spec 0 (size (inProgress s1))) as [Hpos|Hz].
    + apply setPhase_inv;
        [assumption | rewrite Hph1; discriminate | discriminate | intros _; exact Hpos].
    + destruct (loopCondition s1) eqn:Hc1.
      * apply setPhase_inv; [assumption | rewrite Hph1; discriminate | discriminate | exact I].
      * apply loopCondition_false in Hc1 as [Hq He].
        eapply afterPipeline_inv; eassumption.
  - apply loopCondition_false in Hc as [Hq He].
    eapply afterPipeline_inv; eassumption.
Qed.

Lemma init_inv : Inv (init imageFiles concurrency).
Proof.
  unfold init. apply runLoop_inv; [|reflexivity].
  constructor; cbn [queue results inProgress pageContents progress phase].
  - reflexivity.
  - intros id t H. discriminate.
  - intros id H. now apply elem_of_empty in H.
  - now rewrite size_empty.
  - rewrite size_empty. lia.
  - reflexivity.
  - reflexivity.
  - exact I.
Qed.

(** While a promise is not fulfilled the body of [parsePdf] is inside
    [processInParallel]. *)
Lemma active_phase (s : State) (id : nat) (t : Task) :
  Inv s -> results s !! id = Some t -> isFulfilled t = false ->
  (forall r, phase s <> Resolved r) /\
  match phase s with Running | AwaitingRace _ | Spinning => True | _ => False end.
Proof.
  intros [Hitems Hactive Hbound Hsize Hlimit Hpages Hprog Hdone] Hid Hf.
  pose proof (Hactive id t Hid Hf) as Hin.
  destruct (phase s) as [|b| |c|c cc|[c cc]|]; simpl in *;
    try (split; [discriminate | exact I]);
    exfalso; assert (He : inProgress s = ∅) by tauto;
    rewrite He in Hin; now apply elem_of_empty in Hin.
Qed.

Lemma insert_task_common (s : State) (id : nat) (old new : Task) :
  Inv s -> results s !! id = Some old -> item new = item old ->
  isFulfilled old = false ->
  List.map item (<[id := new]> (results s)) ++ queue s = imageFiles /\
  (forall id' t, <[id := new]> (results s) !! id' = Some t ->
                 isFulfilled t = false -> id' ∈ inProgress s) /\
  (forall id', id' ∈ inProgress s ->
               (id' < length (<[id := new]> (results s)))%nat) /\
  (length (List.filter (fun t => negb (isFulfilled t)) (<[id := new]> (results s)))
     + 1 = notFulfilled s + (if isFulfilled new then 0 else 1))%nat.
Proof.
  intros [Hitems Hactive Hbound Hsize Hlimit Hpages Hprog Hdone] Hid Hitem Hf.
  split; [|split; [|split]].
  - change (List.map item) with (fmap (M:=list) item).
    rewrite (fmap_insert_same item _ id old new Hid Hitem). exact Hitems.
  - intros id' t Hid' Hf'.
    destruct (decide (id = id')) as [<-|Hne].
    + eapply Hactive; eassumption.
    + rewrite list_lookup_insert_ne in Hid' by assumption.
      eapply Hactive; eassumption.
  - intros id' Hin. rewrite length_insert. now apply Hbound.
  - pose proof (filter_length_insert (fun t => negb (isFulfilled t))
                  (results s) id old new Hid) as Hc.
    cbv beta in Hc. rewrite Hf in Hc. simpl in Hc. unfold notFulfilled.
    destruct (isFulfilled new); simpl in *; lia.
Qed.

Lemma seq_running (k : nat) :
  List.map (fun k => mkProgress k N running) (seq 1 (k + 1)) =
  List.map (fun k => mkProgress k N running) (seq 1 k)
    ++ [mkProgress (k + 1) N running].
Proof.
  rewrite !Nat.add_1_r, seq_S, map_app. reflexivity.
Qed.

Lemma onModelReturns_inv (s : State) (id : nat) (it : PageImage) (d : jsstring) :
  Inv s -> results s !! id = Some (mkTask it Pending) ->
  Inv (onModelReturns N id it d s).
Proof.
  intros HI Hid.
  destruct (active_phase s id _ HI Hid eq_refl) as [Hnr Hph].
  destruct (insert_task_common s id _ (mkTask it (Returned (Success d))) HI Hid
              eq_refl eq_refl) as (H1 & H2 & H3 & H4).
  destruct HI as [Hitems Hactive Hbound Hsize Hlimit Hpages Hprog Hdone].
  constructor; unfold onModelReturns;
    cbn [queue results inProgress pageContents progress phase]; try assumption.
  - rewrite Hsize. unfold notFulfilled at 2.
    cbn [results]. simpl in H4. lia.
  - unfold successes. cbn [results].
    rewrite (omap_insert_new successOf (results s) id (mkTask it Pending)
               (mkTask it (Returned (Success d)))
               (mkPageContent (index it) d) Hid eq_refl eq_refl).
    rewrite <- Permutation_cons_append. now apply Permutation_cons.
  - rewrite Hprog, length_app. cbn [length].
    destruct (phase s); try contradiction;
      rewrite !app_nil_r, seq_running; reflexivity.
  - destruct (phase s); try contradiction;
      first [exact I | exact Hdone | discriminate].
Qed.

Lemma onModelThrows_inv (s : State) (id : nat) (it : PageImage) (m : jsstring) :
  Inv s -> results s !! id = Some (mkTask it Pending) ->
  Inv (onModelThrows id it m s).
Proof.
  intros HI Hid.
  destruct (insert_task_common s id _ (mkTask it (Returned (Failure m))) HI Hid
              eq_refl eq_refl) as (H1 & H2 & H3 & H4).
  destruct HI as [Hitems Hactive Hbound Hsize Hlimit Hpages Hprog Hdone].
  constructor; unfold onModelThrows, setTask;
    cbn [queue results inProgress pageContents progress phase]; try assumption.
  - rewrite Hsize. unfold notFulfilled at 2.
    cbn [results]. simpl in H4. lia.
  - unfold successes. cbn [results].
    now rewrite (omap_insert_same successOf (results s) id (mkTask it Pending)
                   (mkTask it (Returned (Failure m))) Hid eq_refl).
Qed.

Lemma onReaction_inv (s : State) (id : nat) (it : PageImage) (r : Outcome) :
  Inv s -> results s !! id = Some (mkTask it (Returned r)) ->
  Inv (onReaction id it r s).
Proof.
  intros HI Hid.
  destruct (active_phase s id _ HI Hid eq_refl) as [Hnr Hph].
  destruct (insert_task_common s id _ (mkTask it (Fulfilled r)) HI Hid
              eq_refl eq_refl) as (H1 & H2 & H3 & H4).
  destruct HI as [Hitems Hactive Hbound Hsize Hlimit Hpages Hprog Hdone].
  pose proof (Hactive id _ Hid eq_refl) as Hin.
  assert (Hsz : (size (inProgress s ∖ {[id]}) + 1 = size (inProgress s))%nat).
  { rewrite size_difference by set_solver. rewrite size_singleton.
    assert (size (inProgress s) <> 0)%nat; [|lia].
    intros Hz. apply size_empty_inv in Hz. set_solver. }
  constructor; unfold onReaction;
    cbn [queue results inProgress pageContents progress phase]; try assumption.
  - intros id' t Hid' Hf'.
    destruct (decide (id = id')) as [<-|Hne].
    + rewrite list_lookup_insert_eq in Hid' by (eapply lookup_lt_Some; eassumption).
      injection Hid' as <-. discriminate.
    + apply elem_of_difference. split; [eapply H2; eassumption | set_solver].
  - intros id' Hin'. apply H3. now apply elem_of_difference in Hin' as [? _].
  - unfold notFulfilled at 1. cbn [results]. simpl in H4. lia.
  - lia.
  - unfold successes. cbn [results].
    rewrite (omap_insert_same successOf (results s) id (mkTask it (Returned r))
               (mkTask it (Fulfilled r)) Hid); [assumption|].
    unfold successOf. simpl. now destruct r.
  - rewrite Hprog. destruct (phase s); try contradiction; reflexivity.
  - destruct (phase s); try contradiction;
      first [exact I | exact Hdone | discriminate].
Qed.

(** Every event keeps the invariant. *)
Lemma step_inv (s s' : State) (e : Event) :
  Inv s -> step concurrency N s e = Some s' -> Inv s'.
Proof.
  intros HI Hstep. destruct e as [id d|id m|id| |resp| | |]; simpl in Hstep.
  - destruct (results s !! id) as [[it [| |]]|] eqn:Hid; try discriminate.
    injection Hstep as <-. now apply onModelReturns_inv.
  - destruct (results s !! id) as [[it [| |]]|] eqn:Hid; try discriminate.
    injection Hstep as <-. now apply onModelThrows_inv.
  - destruct (results s !! id) as [[it [|r|]]|] eqn:Hid; try discriminate.
    injection Hstep as <-. now apply onReaction_inv.
  - destruct (phase s) as [|[|]| | | | |] eqn:Hph; try discriminate.
    injection Hstep as <-. apply runLoop_inv; [|reflexivity].
    apply setPhase_inv; [assumption | rewrite Hph; discriminate | discriminate | exact I].
  - destruct (phase s) as [| | |c| | |] eqn:Hph; try discriminate.
    injection Hstep as <-. unfold onOutlineReturns.
    pose proof (inv_done _ _ _ HI) as Hd. rewrite Hph in Hd.
    apply setPhase_inv; [assumption | rewrite Hph; discriminate | discriminate | exact Hd].
  - destruct (phase s) as [| | |c| | |] eqn:Hph; try discriminate.
    injection Hstep as <-.
    pose proof (inv_done _ _ _ HI) as Hd. rewrite Hph in Hd.
    apply setPhase_inv; [assumption | rewrite Hph; discriminate | discriminate | tauto].
  - destruct (phase s) as [| | | |c cc| |] eqn:Hph; try discriminate.
    injection Hstep as <-.
    destruct HI as [Hitems Hactive Hbound Hsize Hlimit Hpages Hprog Hdone].
    rewrite Hph in Hdone, Hprog.
    constructor; unfold onWriteDone;
      cbn [queue results inProgress pageContents progress phase]; try assumption.
    rewrite Hprog, app_nil_r. reflexivity.
  - destruct (phase s) as [| | | |c cc| |] eqn:Hph; try discriminate.
    injection Hstep as <-.
    pose proof (inv_done _ _ _ HI) as Hd. rewrite Hph in Hd.
    apply setPhase_inv; [assumption | rewrite Hph; discriminate | discriminate | tauto].
Qed.

Lemma run_inv (events : list Event) :
  forall s s' : State,
    Inv s -> run concurrency N s events = Some s' -> Inv s'.
Proof.
  induction events as [|e events IH]; intros s s' HI Hrun; simpl in Hrun.
  - now injection Hrun as <-.
  - destruct (step concurrency N s e) as [s1|] eqn:Hstep; [|discriminate].
    eapply IH; [eapply step_inv; eassumption | exact Hrun].
Qed.

(** The invariant holds in every state of every run of [parsePdf]. *)
Lemma parsePdf_inv (events : list Event) (s : State) :
  parsePdf imageFiles concurrency events = Some s -> Inv s.
Proof. apply run_inv, init_inv. Qed.

End PipelineInvariant.

Section PipelineFacts.

Lemma filter_length_le {A : Type} (p q : A -> bool) (l : list A) :
  (forall x, p x = true -> q x = true) ->
  (length (List.filter p l) <= length (List.filter q l))%nat.
Proof.
  intros Hpq. induction l as [|a l IH]; simpl; [lia|].
  destruct (p a) eqn:Hp.
  - rewrite (Hpq a Hp). simpl. lia.
  - destruct (q a); simpl; lia.
Qed.

Lemma unsettled_le (s : State) : (unsettled s <= notFulfilled s)%nat.
Proof.
  apply filter_length_le. intros t. unfold isFulfilled.
  destruct (promise t); intros H; try discriminate; reflexivity.
Qed.

Lemma successes_keys (l : list Task) :
  (pageIndex <$> omap successOf l) `sublist_of` ((fun t => index (item t)) <$> l).
Proof.
  induction l as [|t l IH]; csimpl; [constructor|].
  destruct (successOf t) as [pc|] eqn:E; csimpl.
  - assert (pageIndex pc = index (item t)) as ->.
    { unfold successOf in E. destruct (promise t) as [|[d|m]|[d|m]];
        inversion E; reflexivity. }
    now apply sublist_skip.
  - now apply sublist_cons.
Qed.

Lemma successes_length (s : State) : (length (successes s) <= length (results s))%nat.
Proof.
  pose proof (sublist_length _ _ (successes_keys (results s))) as H.
  rewrite !length_fmap in H. exact H.
Qed.

Lemma successes_NoDup (imageFiles : list PageImage) (concurrency : nat) (s : State) :
  Inv imageFiles concurrency s -> NoDup (index <$> imageFiles) ->
  NoDup (pageIndex <$> successes s).
Proof.
  intros HI Hnd. unfold successes.
  eapply sublist_NoDup; [|apply successes_keys].
  rewrite <- (inv_items _ _ _ HI) in Hnd.
  rewrite fmap_app in Hnd. apply NoDup_app in Hnd as [Hnd _].
  change (List.map item (results s)) with (item <$> results s) in Hnd.
  now rewrite <- list_fmap_compose in Hnd.
Qed.

Lemma pages_bound (imageFiles : list PageImage) (concurrency : nat) (s : State) :
  Inv imageFiles concurrency s ->
  (length (pageContents s) <= length imageFiles)%nat.
Proof.
  intros HI. rewrite (Permutation_length (inv_pages _ _ _ HI)).
  pose proof (successes_length s) as H.
  rewrite <- (inv_items _ _ _ HI), length_app, length_map. lia.
Qed.

Lemma seq_sorted (k : nat) :
  forall (a : nat) (tail : list nat),
    Forall (fun n => (a + k <= S n)%nat) tail -> StronglySorted le tail ->
    StronglySorted le (seq a k ++ tail).
Proof.
  induction k as [|k IH]; intros a tail Htail Hs; simpl; [assumption|].
  constructor.
  - apply IH; [|assumption].
    eapply Forall_impl; [exact Htail|]. intros n Hn. simpl in Hn. lia.
  - apply Forall_app. split.
    + apply Forall_forall. intros n Hn. apply elem_of_seq in Hn. lia.
    + eapply Forall_impl; [exact Htail|]. intros n Hn. simpl in Hn. lia.
Qed.

End PipelineFacts.

Section PipelineProgress.
Variable imageFiles : list PageImage.
Variable concurrency : nat.
Hypothesis limit_positive : (1 <= concurrency)%nat.

Local Abbreviation Inv := (Inv imageFiles concurrency).
Local Abbreviation N := (length imageFiles).
Local Abbreviation run := (run concurrency N).

Lemma run_app (events1 events2 : list Event) :
  forall s s1 : State,
    run s events1 = Some s1 -> run s (events1 ++ events2) = run s1 events2.
Proof.
  induction events1 as [|e events1 IH]; intros s s1 H; simpl in *.
  - now injection H as ->.
  - destruct (step concurrency N s e) as [s'|]; [|discriminate]. now apply IH.
Qed.

Lemma run_step (s s1 : State) (e : Event) (events : list Event) :
  step concurrency N s e = Some s1 -> run s (e :: events) = run s1 events.
Proof. intros H. simpl. now rewrite H. Qed.

Lemma exists_unfulfilled (s : State) :
  (0 < notFulfilled s)%nat ->
  exists id t, results s !! id = Some t /\ isFulfilled t = false.
Proof.
  unfold notFulfilled. intros H.
  destruct (List.filter (fun t => negb (isFulfilled t)) (results s))
    as [|t l] eqn:E; [simpl in H; lia|].
  assert (Hin : In t (List.filter (fun t => negb (isFulfilled t)) (results s)))
    by (rewrite E; now left).
  apply filter_In in Hin as [Hin Hf].
  apply list_elem_of_In, list_elem_of_lookup in Hin as [id Hid].
  exists id, t. split; [assumption | now apply negb_true_iff in Hf].
Qed.

(** The reaction of a promise whose invocation has returned can run; it
    frees one slot and wakes the race. *)
Lemma react_one (s : State) (b : bool) (id : nat) (it : PageImage) (r : Outcome) :
  phase s = AwaitingRace b ->
  results s !! id = Some (mkTask it (Returned r)) ->
  exists s',
    step concurrency N s (Reaction id) = Some s' /\
    phase s' = AwaitingRace true /\ queue s' = queue s /\
    (notFulfilled s' + 1 = notFulfilled s)%nat.
Proof.
  intros Hph Hid. exists (onReaction id it r s). simpl. rewrite Hid.
  split; [reflexivity|]. unfold onReaction. simpl. rewrite Hph.
  split; [reflexivity|]. split; [reflexivity|].
  pose proof (filter_length_insert (fun t => negb (isFulfilled t))
                (results s) id _ (mkTask it (Fulfilled r)) Hid) as Hc.
  unfold notFulfilled. simpl in *. lia.
Qed.

(** Any promise that is not fulfilled can be brought to fulfilment, whether
    its call succeeds or, as here, fails. *)
Lemma settle_one (s : State) (b : bool) :
  phase s = AwaitingRace b -> (0 < notFulfilled s)%nat ->
  exists events s',
    run s events = Some s' /\
    phase s' = AwaitingRace true /\ queue s' = queue s /\
    (notFulfilled s' + 1 = notFulfilled s)%nat.
Proof.
  intros Hph Hpos.
  destruct (exists_unfulfilled s Hpos) as (id & [it pr] & Hid & Hf).
  destruct pr as [|r|r]; [| |discriminate].
  - set (s1 := onModelThrows id it [] s).
    assert (Hid1 : results s1 !! id = Some (mkTask it (Returned (Failure [])))).
    { unfold s1, onModelThrows, setTask. simpl.
      apply list_lookup_insert_eq. eapply lookup_lt_Some; eassumption. }
    assert (Hph1 : phase s1 = AwaitingRace b) by exact Hph.
    destruct (react_one s1 b id it _ Hph1 Hid1) as (s' & Hstep & Hp & Hq & Hn).
    exists [ModelThrows id []; Reaction id], s'.
    assert (Hstep0 : step concurrency N s (ModelThrows id []) = Some s1)
      by (simpl; now rewrite Hid).
    rewrite (run_step _ _ _ _ Hstep0), (run_step _ _ _ _ Hstep).
    split; [reflexivity|].
    split; [assumption | split; [assumption|]].
    assert (Hn1 : notFulfilled s1 = notFulfilled s).
    { pose proof (filter_length_insert (fun t => negb (isFulfilled t))
                    (results s) id _ (mkTask it (Returned (Failure []))) Hid) as Hc.
      unfold notFulfilled, s1, onModelThrows, setTask. simpl in *. lia. }
    lia.
  - destruct (react_one s b id it r Hph Hid) as (s' & Hstep & Hp & Hq & Hn).
    exists [Reaction id], s'. rewrite (run_step _ _ _ _ Hstep). auto.
Qed.

(** All promises in progress can be brought to fulfilment. *)
Lemma drain (n : nat) :
  forall (s : State) (b : bool),
    Inv s -> phase s = AwaitingRace b -> notFulfilled s = n ->
    exists events s',
      run s events = Some s' /\
      phase s' = AwaitingRace true /\ queue s' = queue s /\
      notFulfilled s' = 0%nat.
Proof.
  induction n as [|n IH]; intros s b HI Hph Hn.
  - exists [], s. simpl. split; [reflexivity|].
    split; [|split; [reflexivity | assumption]].
    destruct b; [assumption|]. exfalso.
    pose proof (inv_done _ _ _ HI) as Hd. rewrite Hph in Hd.
    specialize (Hd eq_refl). rewrite (inv_size _ _ _ HI) in Hd. lia.
  - destruct (settle_one s b Hph ltac:(lia)) as (ev1 & s1 & Hr1 & Hp1 & Hq1 & Hn1).
    assert (HI1 : Inv s1) by (eapply run_inv; eassumption).
    destruct (IH s1 true HI1 Hp1 ltac:(lia)) as (ev2 & s2 & Hr2 & Hp2 & Hq2 & Hn2).
    exists (ev1 ++ ev2), s2. rewrite (run_app _ _ _ _ Hr1).
    split; [assumption | split; [assumption | split; [congruence | assumption]]].
Qed.

(** With nothing in progress the loop either ends or starts at least one
    more item. *)
Lemma runLoop_progress (s0 : State) :
  Inv s0 -> phase s0 = Running -> size (inProgress s0) = 0%nat ->
  (exists c, phase (runLoop concurrency s0) = AwaitingOutline c) \/
  (phase (runLoop concurrency s0) = AwaitingRace false /\
   (length (queue (runLoop concurrency s0)) < length (queue s0))%nat).
Proof.
  intros HI0 Hph Hz.
  destruct (startTasks_inv imageFiles concurrency (queue s0) s0 HI0 eq_refl Hph)
    as (_ & _ & Hfull & Hsum).
  unfold runLoop, loopCondition. rewrite Hz.
  destruct (queue s0) as [|it rest] eqn:Hq.
  - left. eexists. reflexivity.
  - right. rewrite Hz in Hsum. cbn [length] in Hsum.
    set (s1 := startTasks concurrency (it :: rest) s0) in *.
    assert (Hpos : (0 < size (inProgress s1))%nat).
    { destruct Hfull as [He|Hge]; [rewrite He in Hsum; simpl in Hsum|]; lia. }
    cbn [length Nat.ltb Nat.leb orb].
    destruct (size (inProgress s1)) as [|k]; [lia|].
    split; [reflexivity|]. unfold setPhase. cbn [queue length]. lia.
Qed.

Lemma resume (s : State) :
  Inv s -> phase s = AwaitingRace true -> notFulfilled s = 0%nat ->
  exists s',
    step concurrency N s RaceResumes = Some s' /\
    ((exists c, phase s' = AwaitingOutline c) \/
     (phase s' = AwaitingRace false /\ (length (queue s') < length (queue s))%nat)).
Proof.
  intros HI Hph Hn. exists (runLoop concurrency (setPhase Running s)).
  split; [simpl; now rewrite Hph|].
  apply (runLoop_progress (setPhase Running s)).
  - apply setPhase_inv; [assumption | rewrite Hph; discriminate | discriminate | exact I].
  - reflexivity.
  - unfold setPhase. cbn [inProgress]. now rewrite (inv_size _ _ _ HI).
Qed.

(** From every state inside the pipeline some continuation of the run gets
    out of [processInParallel]: no failure wedges it. *)
Lemma pipeline_drains (q : nat) :
  forall (s : State) (b : bool),
    Inv s -> phase s = AwaitingRace b -> (length (queue s) <= q)%nat ->
    exists events s' c,
      run s events = Some s' /\ phase s' = AwaitingOutline c.
Proof.
  induction q as [|q IH]; intros s b HI Hph Hq;
    destruct (drain _ s b HI Hph eq_refl) as (ev1 & s1 & Hr1 & Hp1 & Hq1 & Hn1);
    assert (HI1 : Inv s1) by (eapply run_inv; eassumption);
    destruct (resume s1 HI1 Hp1 Hn1) as (s2 & Hstep & [[c Hc]|[Hp2 Hlt]]).
  - exists (ev1 ++ [RaceResumes]), s2, c. rewrite (run_app _ _ _ _ Hr1).
    rewrite (run_step _ _ _ _ Hstep). auto.
  - rewrite Hq1 in Hlt. lia.
  - exists (ev1 ++ [RaceResumes]), s2, c. rewrite (run_app _ _ _ _ Hr1).
    rewrite (run_step _ _ _ _ Hstep). auto.
  - assert (HI2 : Inv s2) by (eapply step_inv; eassumption).
    destruct (IH s2 false HI2 Hp2 ltac:(rewrite Hq1 in Hlt; lia))
      as (ev3 & s3 & c & Hr3 & Hc).
    exists (ev1 ++ RaceResumes :: ev3), s3, c. rewrite (run_app _ _ _ _ Hr1).
    rewrite (run_step _ _ _ _ Hstep). auto.
Qed.

End PipelineProgress.

(** Every run of [parsePdf] that is inside the pipeline can be continued to
    the [finished] report, for every limit of at least 1. *)
Lemma parsePdf_can_finish
    (items : list PageImage) (C : nat) (events : list Event) (s : State) (b : bool) :
  (1 <= C)%nat ->
  parsePdf items C events = Some s -> phase s = AwaitingRace b ->
  exists events' s' r,
    parsePdf items C (events ++ events') = Some s' /\ phase s' = Resolved r.
Proof.
  intros HC Hrun Hph. apply parsePdf_inv in Hrun as HI.
  destruct (pipeline_drains items C HC _ s b HI Hph (Nat.le_refl _))
    as (ev1 & s1 & c & Hr1 & Hc).
  exists (ev1 ++ [OutlineReturns []; WriteDone]).
  unfold parsePdf in *. rewrite (run_app _ _ _ _ _ _ Hrun).
  rewrite (run_app _ _ _ _ _ _ Hr1). simpl. rewrite Hc. simpl.
  eexists. eexists. split; reflexivity.
Qed.

(** C2.  In every state of every run, whatever calls fail: the invocations
    that have started and not settled are at most [inProgress.size], which is
    at most the limit; the items started so far, each once and in order,
    followed by the queue are the input list; once [processInParallel] has
    returned, every item has been started and none is unsettled; and with a
    limit of at least 1 a run that is inside the pipeline can always be
    continued until [parsePdf] resolves, so no failure keeps a queued item
    from being started. *)
Theorem processInParallel_bounded
    (items : list PageImage) (C : nat) (events : list Event) (s : State) :
  parsePdf items C events = Some s ->
  (unsettled s <= size (inProgress s))%nat /\
  (size (inProgress s) <= C)%nat /\
  List.map item (results s) ++ queue s = items /\
  match phase s with
  | Running | AwaitingRace _ | Spinning => True
  | _ => List.map item (results s) = items /\ unsettled s = 0%nat
  end /\
  ((1 <= C)%nat ->
   forall b, phase s = AwaitingRace b ->
   exists events' s' r,
     parsePdf items C (events ++ events') = Some s' /\ phase s' = Resolved r).
Proof.
  intros Hrun. apply parsePdf_inv in Hrun as HI.
  pose proof (unsettled_le s) as Hu.
  split; [rewrite (inv_size _ _ _ HI); exact Hu|].
  split; [exact (inv_limit _ _ _ HI)|].
  split; [exact (inv_items _ _ _ HI)|].
  split; [|intros HC b Hph; eapply parsePdf_can_finish; eassumption].
  destruct HI as [Hitems Hactive Hbound Hsize Hlimit Hpages Hprog Hdone].
  destruct (phase s) as [|b| |c|c cc|[c cc]|]; try exact I;
    (assert (Hq : queue s = [] /\ inProgress s = ∅) by tauto;
     destruct Hq as [Hq He]; rewrite Hq, app_nil_r in Hitems;
     split; [assumption|]; rewrite He, size_empty in Hsize; lia).
Qed.

Lemma processInParallel_bounded_witness :
  match parsePdf fivePages 2 failingRun with
  | Some s =>
      (unsettled s <= size (inProgress s))%nat /\
      (size (inProgress s) <= 2)%nat /\
      List.map item (results s) ++ queue s = fivePages /\
      match phase s with
      | Running | AwaitingRace _ | Spinning => True
      | _ => List.map item (results s) = fivePages /\ unsettled s = 0%nat
      end
  | None => False
  end.
Proof.
  destruct (parsePdf fivePages 2 failingRun) as [s|] eqn:E.
  - destruct (processInParallel_bounded fivePages 2 failingRun s E)
      as (H1 & H2 & H3 & H4 & _).
    repeat split; assumption.
  - vm_compute in E. discriminate.
Defined.

(** C7.  The calls of [onProgress] in a run, oldest first, are: the
    [starting] report with [current = 0]; then one [running] report for each
    page invocation that has completed with its content, the k-th of them with
    [current = k], the number of pages completed so far (an invocation that
    fails reports nothing); and, exactly when the whole of [parsePdf] has
    completed, the [finished] report with [current = total].  The [current]
    values never decrease. *)
Theorem onProgress_reports
    (items : list PageImage) (C : nat) (events : list Event) (s : State) :
  parsePdf items C events = Some s ->
  let N := length items in
  let k := length (successes s) in
  progress s =
    mkProgress 0 N starting ::
    List.map (fun j => mkProgress j N running) (seq 1 k) ++
    match phase s with
    | Resolved _ => [mkProgress N N finished]
    | _ => []
    end /\
  (k <= N)%nat /\
  StronglySorted le (List.map current (progress s)) /\
  (forall id pageContent,
      match step C N s (ModelReturns id pageContent) with
      | Some s' => progress s' = progress s ++ [mkProgress (S k) N running]
      | None => True
      end) /\
  (forall id message,
      match step C N s (ModelThrows id message) with
      | Some s' => progress s' = progress s
      | None => True
      end) /\
  (forall id,
      match step C N s (Reaction id) with
      | Some s' => progress s' = progress s
      | None => True
      end).
Proof.
  intros Hrun N k. apply parsePdf_inv in Hrun as HI.
  pose proof (pages_bound _ _ _ HI) as Hb.
  pose proof (Permutation_length (inv_pages _ _ _ HI)) as Hk. fold k in Hk.
  pose proof (inv_progress _ _ _ HI) as Hprog. rewrite Hk in Hprog, Hb.
  fold N in Hprog, Hb.
  split; [exact Hprog|]. split; [exact Hb|]. split; [|split; [|split]].
  - rewrite Hprog. cbn [List.map current]. rewrite map_app, map_map. simpl.
    rewrite map_id. constructor.
    + apply seq_sorted.
      * assert (Hb' : (k <= N)%nat) by exact Hb.
        destruct (phase s); simpl;
          first [apply List.Forall_nil
                | apply List.Forall_cons; [lia | apply List.Forall_nil]].
      * destruct (phase s); simpl;
          first [apply SSorted_nil
                | apply SSorted_cons; [apply SSorted_nil | apply List.Forall_nil]].
    + apply Forall_forall. intros n _. lia.
  - intros id d. simpl.
    destruct (results s !! id) as [[it [| |]]|]; try exact I.
    unfold onModelReturns. simpl. rewrite length_app, Hk. simpl.
    now rewrite Nat.add_1_r.
  - intros id m. simpl.
    destruct (results s !! id) as [[it [| |]]|]; try exact I. reflexivity.
  - intros id. simpl.
    destruct (results s !! id) as [[it [| |]]|]; try exact I. reflexivity.
Qed.

Lemma onProgress_reports_witness :
  match parsePdf fivePages 2 (failingRun ++ [OutlineReturns []; WriteDone]) with
  | Some s =>
      List.map current (progress s) = [0; 1; 2; 3; 5]%nat /\
      List.map taskStatus (progress s) = [starting; running; running; running; finished]
  | None => False
  end.
Proof.
  destruct (parsePdf fivePages 2 (failingRun ++ [OutlineReturns []; WriteDone]))
    as [s|] eqn:E.
  - destruct (onProgress_reports fivePages 2 _ s E) as (Hp & _).
    rewrite Hp.
    assert (Hk : length (successes s) = 3%nat).
    { vm_compute in E. injection E as <-. reflexivity. }
    assert (Hph : exists r, phase s = Resolved r).
    { vm_compute in E. injection E as <-. eexists. reflexivity. }
    destruct Hph as [r Hph]. rewrite Hk, Hph. split; reflexivity.
  - vm_compute in E. discriminate.
Defined.

(** C1.  When the pages have pairwise different numbers, then in every run,
    whatever the order in which the calls completed: the assembled text is
    the concatenation of the contents of [pageContents], each followed by a
    line feed; at that point [pageContents] is in strictly ascending
    [pageIndex] order and holds exactly the pages that succeeded; it is the
    sorted list of those pages, so two runs in which the same pages succeed
    with the same contents assemble the same text. *)
Theorem order_restoration
    (items : list PageImage) (C : nat) (events : list Event) (s : State)
    (assembled : jsstring) :
  NoDup (index <$> items) ->
  parsePdf items C events = Some s ->
  assembledContent s = Some assembled ->
  assembled = assemble (pageContents s) /\
  StronglySorted (fun a b => (pageIndex a < pageIndex b)%nat) (pageContents s) /\
  pageContents s ≡ₚ successes s /\
  pageContents s = sortByPageIndex (successes s) /\
  (forall events' s' assembled',
      parsePdf items C events' = Some s' ->
      assembledContent s' = Some assembled' ->
      successes s' ≡ₚ successes s ->
      assembled' = assembled).
Proof.
  intros Hnd Hrun Hc. apply parsePdf_inv in Hrun as HI.
  assert (Hkey : forall s0 c0,
             Inv items C s0 -> assembledContent s0 = Some c0 ->
             c0 = assemble (pageContents s0) /\
             StronglySorted pageLe (pageContents s0) /\
             pageContents s0 = sortByPageIndex (successes s0)).
  { intros s0 c0 HI0 Hc0.
    pose proof (inv_done _ _ _ HI0) as Hd. pose proof (inv_pages _ _ _ HI0) as Hp.
    pose proof (successes_NoDup _ _ _ HI0 Hnd) as Hn.
    unfold assembledContent in Hc0.
    assert (Hs : StronglySorted pageLe (pageContents s0) /\
                 c0 = assemble (pageContents s0)).
    { destruct (phase s0) as [|b| |c|c cc|[c cc]|]; try discriminate;
        injection Hc0 as <-; tauto. }
    destruct Hs as [Hs ->]. split; [reflexivity|]. split; [assumption|].
    apply sorted_unique; [now rewrite Hp | assumption | apply sortByPageIndex_sorted|].
    now rewrite sortByPageIndex_Permutation. }
  destruct (Hkey s assembled HI Hc) as (Ha & Hs & He).
  pose proof (inv_pages _ _ _ HI) as Hp.
  pose proof (successes_NoDup _ _ _ HI Hnd) as Hn.
  split; [assumption|]. split; [|split; [assumption|split; [assumption|]]].
  - apply sorted_strict; [now rewrite Hp | assumption].
  - intros events' s' assembled' Hrun' Hc' Hperm.
    apply parsePdf_inv in Hrun' as HI'.
    destruct (Hkey s' assembled' HI' Hc') as (Ha' & Hs' & He').
    rewrite Ha, Ha'. f_equal.
    apply sorted_unique; try assumption.
    + rewrite (inv_pages _ _ _ HI'), Hperm. assumption.
    + now rewrite (inv_pages _ _ _ HI'), Hperm, Hp.
Qed.

Lemma order_restoration_witness :
  match parsePdf fivePages 2 reverseOrder with
  | Some s =>
      assembledContent s =
        Some (str "page1" ++ [LF] ++ str "page2" ++ [LF] ++ str "page3" ++ [LF]
              ++ str "page4" ++ [LF] ++ str "page5" ++ [LF]) /\
      StronglySorted (fun a b => (pageIndex a < pageIndex b)%nat) (pageContents s)
  | None => False
  end.
Proof.
  destruct (parsePdf fivePages 2 reverseOrder) as [s|] eqn:E.
  - assert (Hc : assembledContent s =
        Some (str "page1" ++ [LF] ++ str "page2" ++ [LF] ++ str "page3" ++ [LF]
              ++ str "page4" ++ [LF] ++ str "page5" ++ [LF])).
    { vm_compute in E. injection E as <-. reflexivity. }
    assert (Hnd : NoDup (index <$> fivePages)).
    { vm_compute. compute_done. }
    split; [exact Hc|].
    apply (order_restoration fivePages 2 reverseOrder s _ Hnd E Hc).
  - vm_compute in E. discriminate.
Defined.

(* --------------------------------------------------------------------- *)
(** ** Further properties of the geometry primitives                      *)
(* --------------------------------------------------------------------- *)

Section GeometryLaws.
Local Open Scope Q_scope.

Lemma covers_refl (A : BBox) : covers A A.
Proof. unfold covers. repeat split; apply Qle_refl. Qed.

Lemma covers_trans (A B C : BBox) : covers A B -> covers B C -> covers A C.
Proof.
  unfold covers. intros (?&?&?&?) (?&?&?&?).
  repeat split; eapply Qle_trans; eauto.
Qed.

Lemma covers_union_l (a b : RECT) : covers (bbox (unionRects a b)) (bbox a).
Proof.
  unfold covers, unionRects; simpl.
  repeat split; auto using Q.le_min_l, Q.le_max_l.
Qed.

Lemma covers_union_r (a b : RECT) : covers (bbox (unionRects a b)) (bbox b).
Proof.
  unfold covers, unionRects; simpl.
  repeat split; auto using Q.le_min_r, Q.le_max_r.
Qed.

Lemma covers_inside (inner outer : RECT) :
  wellFormed inner -> covers (bbox outer) (bbox inner) -> inside inner outer.
Proof.
  unfold wellFormed, inside, covers, extent. cbn [b0 b1 b2 b3].
  intros [Hx Hy] (G0 & G1 & G2 & G3).
  destruct (Q.min_spec (b0 (bbox outer)) (b2 (bbox outer))) as [[? M1]|[? M1]];
  destruct (Q.min_spec (b1 (bbox outer)) (b3 (bbox outer))) as [[? M2]|[? M2]];
  destruct (Q.max_spec (b0 (bbox outer)) (b2 (bbox outer))) as [[? M3]|[? M3]];
  destruct (Q.max_spec (b1 (bbox outer)) (b3 (bbox outer))) as [[? M4]|[? M4]];
  destruct (Q.min_spec (b0 (bbox inner)) (b2 (bbox inner))) as [[? M5]|[? M5]];
  destruct (Q.min_spec (b1 (bbox inner)) (b3 (bbox inner))) as [[? M6]|[? M6]];
  destruct (Q.max_spec (b0 (bbox inner)) (b2 (bbox inner))) as [[? M7]|[? M7]];
  destruct (Q.max_spec (b1 (bbox inner)) (b3 (bbox inner))) as [[? M8]|[? M8]];
  rewrite M1, M2, M3, M4, M5, M6, M7, M8; repeat split; qlra.
Qed.

Lemma inside_extent (c a : RECT) :
  wellFormed a -> inside a c -> covers (extent (bbox c)) (bbox a).
Proof.
  unfold wellFormed, inside, covers, extent. cbn [b0 b1 b2 b3].
  intros [Hx Hy].
  generalize (Qmin (b0 (bbox c)) (b2 (bbox c))) (Qmin (b1 (bbox c)) (b3 (bbox c)))
             (Qmax (b0 (bbox c)) (b2 (bbox c))) (Qmax (b1 (bbox c)) (b3 (bbox c))).
  intros c0 c1 c2 c3.
  destruct (Q.min_spec (b0 (bbox a)) (b2 (bbox a))) as [[? M5]|[? M5]];
  destruct (Q.min_spec (b1 (bbox a)) (b3 (bbox a))) as [[? M6]|[? M6]];
  destruct (Q.max_spec (b0 (bbox a)) (b2 (bbox a))) as [[? M7]|[? M7]];
  destruct (Q.max_spec (b1 (bbox a)) (b3 (bbox a))) as [[? M8]|[? M8]];
  rewrite M5, M6, M7, M8; intros (G0 & G1 & G2 & G3);
  repeat split; qlra.
Qed.

Lemma extent_inside (c a : RECT) :
  wellFormed a -> covers (extent (bbox c)) (bbox a) -> inside a c.
Proof.
  unfold wellFormed, inside, covers, extent. cbn [b0 b1 b2 b3].
  intros [Hx Hy].
  generalize (Qmin (b0 (bbox c)) (b2 (bbox c))) (Qmin (b1 (bbox c)) (b3 (bbox c)))
             (Qmax (b0 (bbox c)) (b2 (bbox c))) (Qmax (b1 (bbox c)) (b3 (bbox c))).
  intros c0 c1 c2 c3.
  destruct (Q.min_spec (b0 (bbox a)) (b2 (bbox a))) as [[? M5]|[? M5]];
  destruct (Q.min_spec (b1 (bbox a)) (b3 (bbox a))) as [[? M6]|[? M6]];
  destruct (Q.max_spec (b0 (bbox a)) (b2 (bbox a))) as [[? M7]|[? M7]];
  destruct (Q.max_spec (b1 (bbox a)) (b3 (bbox a))) as [[? M8]|[? M8]];
  rewrite M5, M6, M7, M8; intros (G0 & G1 & G2 & G3);
  repeat split; qlra.
Qed.

Lemma Qabs_minus_sym (x y : Q) : Qabs (x - y) == Qabs (y - x).
Proof.
  rewrite <- (Qabs_opp (x - y)).
  apply Qabs_wd. ring.
Qed.

End GeometryLaws.

(** X1 (src/utils.js, getDistance and isNear).  On rectangles with ordered
    bounds the distance and the nearness test do not depend on the order of
    their two arguments. *)
Theorem isNear_symmetric (a b : RECT) (distance buffer : Q) :
  wellFormed a -> wellFormed b ->
  isNear a b distance = isNear b a distance /\
  getDistance a b buffer = getDistance b a buffer.
Proof.
  intros Ha Hb. split.
  - apply isNear_sym; assumption.
  - unfold getDistance. rewrite (overlaps_sym (bbox a) (bbox b)).
    destruct (overlaps (bbox b) (bbox a)); [reflexivity|].
    f_equal. f_equal. apply Qeq_eqR. apply sqGap_sym; assumption.
Qed.

Lemma isNear_symmetric_witness :
  isNear unitSquare closeSquare 5 = isNear closeSquare unitSquare 5 /\
  getDistance unitSquare closeSquare defaultBuffer =
  getDistance closeSquare unitSquare defaultBuffer.
Proof.
  apply (isNear_symmetric unitSquare closeSquare 5 defaultBuffer);
    split; vm_compute; discriminate.
Defined.

(** X2 (src/utils.js, isNear).  Nearness is monotone in the threshold: a pair
    that is near at one threshold is near at every larger one. *)
Theorem isNear_monotone (a b : RECT) (d d' : Q) :
  (d <= d')%Q -> isNear a b d = true -> isNear a b d' = true.
Proof.
  intros Hd. unfold isNear.
  destruct (overlaps (bbox a) (bbox b)).
  - rewrite !Qltb_true. intros H. qlra.
  - generalize (sqGap_nonneg (bbox a) (bbox b)).
    generalize (sqGap (bbox a) (bbox b)). intros s Hs.
    unfold defaultBuffer.
    rewrite !andb_true_iff, !Qltb_true. intros [H1 H2]. split; [qlra|].
    qnra.
Qed.

Lemma isNear_monotone_witness :
  isNear unitSquare closeSquare 5 = true.
Proof.
  apply (isNear_monotone unitSquare closeSquare 0 5); [|reflexivity].
  vm_compute; discriminate.
Defined.

(** X3 (src/utils.js, getDistance and isNear).  With a threshold that is not
    positive, rectangles whose boxes overlap are never near, so a rectangle
    with ordered bounds is not near itself; from -0.2 downwards (twice the
    default buffer) no pair is near at all.  Yet at threshold 0 a pair whose
    boxes do not overlap and lie at most 0.1 apart is near: the buffer puts
    its distance below 0. *)
Theorem isNear_nonpositive_threshold (a b : RECT) (d : Q) :
  (d <= 0)%Q ->
  (overlaps (bbox a) (bbox b) = true -> isNear a b d = false) /\
  (wellFormed a -> isNear a a d = false) /\
  ((d <= - (1 # 5))%Q -> isNear a b d = false) /\
  (overlaps (bbox a) (bbox b) = false ->
   (sqGap (bbox a) (bbox b) <= (1 # 10) * (1 # 10))%Q ->
   isNear a b 0 = true).
Proof.
  intros Hd.
  assert (Hov : forall u v : RECT,
             overlaps (bbox u) (bbox v) = true -> isNear u v d = false).
  { intros u v H. unfold isNear. rewrite H. apply Qltb_false. exact Hd. }
  split; [apply Hov|]. split; [|split].
  - intros [Hx Hy]. apply Hov. unfold overlaps.
    rewrite !andb_true_iff, !Qleb_true. repeat split; assumption.
  - intros Hd'. unfold isNear.
    destruct (overlaps (bbox a) (bbox b)); [apply Qltb_false; exact Hd|].
    cbv zeta. unfold defaultBuffer.
    replace (Qltb 0 (d + (1 # 10) * 2)) with false; [reflexivity|].
    symmetry. apply Qltb_false. qlra.
  - intros Ho Hs. unfold isNear. rewrite Ho. cbv zeta. unfold defaultBuffer.
    apply andb_true_iff. split; apply Qltb_true; qlra.
Qed.

Lemma isNear_nonpositive_threshold_witness :
  isNear unitSquare unitSquare 0 = false /\
  isNear unitSquare closeSquare 0 = true.
Proof.
  destruct (isNear_nonpositive_threshold unitSquare closeSquare 0)
    as (_ & Hself & _ & Hnear).
  - vm_compute; discriminate.
  - split.
    + apply Hself. split; vm_compute; discriminate.
    + apply Hnear; [reflexivity|vm_compute; discriminate].
Defined.

(** X4 (src/utils.js, unionRects).  For two rectangles with ordered bounds
    the union is the least rectangle that holds both: it has ordered bounds,
    each argument lies inside it, and it lies inside every rectangle that
    holds both.  (For bounds out of order this fails: the union of
    [10,10,0,0] and [2,3,4,5] is [2,3,4,5].) *)
Theorem unionRects_least_cover (a b : RECT) :
  wellFormed a -> wellFormed b ->
  wellFormed (unionRects a b) /\
  inside a (unionRects a b) /\
  inside b (unionRects a b) /\
  forall c : RECT, inside a c -> inside b c -> inside (unionRects a b) c.
Proof.
  intros Ha Hb.
  assert (Hu : wellFormed (unionRects a b)) by (apply unionRects_wellFormed, Ha).
  split; [exact Hu|].
  split; [apply covers_inside; [exact Ha|apply covers_union_l]|].
  split; [apply covers_inside; [exact Hb|apply covers_union_r]|].
  intros c Hac Hbc.
  pose proof (inside_extent c a Ha Hac) as (A0 & A1 & A2 & A3).
  pose proof (inside_extent c b Hb Hbc) as (B0 & B1 & B2 & B3).
  apply (extent_inside c (unionRects a b) Hu).
  unfold covers, unionRects. cbn [bbox b0 b1 b2 b3].
  repeat split;
    first [apply Q.min_glb; assumption | apply Q.max_lub; assumption].
Qed.

Lemma unionRects_least_cover_witness :
  wellFormed (unionRects unitSquare closeSquare) /\
  inside unitSquare (unionRects unitSquare closeSquare) /\
  inside closeSquare (unionRects unitSquare closeSquare) /\
  forall c : RECT,
    inside unitSquare c -> inside closeSquare c ->
    inside (unionRects unitSquare closeSquare) c.
Proof.
  apply (unionRects_least_cover unitSquare closeSquare);
    split; vm_compute; discriminate.
Defined.

(** X5 (src/utils.js, isValidRect).  Whatever createRect or unionRects returns
    passes the validity test, also with no area or with bounds out of order;
    a bare polygon passes exactly when its two x-coordinates differ and its
    two y-coordinates differ. *)
Theorem isValidRect_characterised (bounds : BBox) (a b : RECT) :
  isValidRect (createRect bounds) = true /\
  isValidRect (unionRects a b) = true /\
  (isValidRect (Polygon bounds) = true <->
   ~ (b0 bounds == b2 bounds)%Q /\ ~ (b1 bounds == b3 bounds)%Q).
Proof.
  split; [reflexivity|]. split; [reflexivity|].
  destruct bounds as [x0 y0 x1 y1]; simpl.
  rewrite !andb_true_iff, !Qleb_true, !Qltb_true.
  destruct (Q.max_spec x0 x1) as [[? M1]|[? M1]];
  destruct (Q.min_spec x0 x1) as [[? M2]|[? M2]];
  destruct (Q.max_spec y0 y1) as [[? M3]|[? M3]];
  destruct (Q.min_spec y0 y1) as [[? M4]|[? M4]];
  rewrite M1, M2, M3, M4; split.
  all: try (intros (((?&?)&?)&?); split; intros ?; qlra).
  all: intros [Hx Hy];
    destruct (Q_dec x0 x1) as [[?|?]|?]; try contradiction;
    destruct (Q_dec y0 y1) as [[?|?]|?]; try contradiction;
    repeat split; qlra.
Qed.

(** X6 (src/utils.js, isHorizontalNear).  The horizontal test does not depend
    on the order of its arguments, and it accepts a pair only if both
    rectangles are lower than 2 and wider than 10. *)
Theorem isHorizontalNear_symmetric (a b : RECT) (distance : Q) :
  isHorizontalNear a b distance = isHorizontalNear b a distance /\
  (isHorizontalNear a b distance = true ->
   isHorizontalLine a = true /\ isHorizontalLine b = true).
Proof.
  unfold isHorizontalNear, isHorizontalLine.
  destruct (bbox a) as [a0 a1 a2 a3], (bbox b) as [c0 c1 c2 c3].
  cbn [b0 b1 b2 b3]. split.
  - rewrite (andb_comm (Qltb (c3 - c1) 2 && Qltb 10 (c2 - c0))).
    destruct (Qltb (a3 - a1) 2 && Qltb 10 (a2 - a0)); [|reflexivity].
    destruct (Qltb (c3 - c1) 2 && Qltb 10 (c2 - c0)); [|reflexivity].
    cbn [andb].
    rewrite (andb_comm (Qleb c0 a2)).
    rewrite (Qltb_proper (Qabs (c0 - a0)) (Qabs (a0 - c0)) 5 5
               (Qabs_minus_sym _ _) (Qeq_refl _)).
    rewrite (Qltb_proper (Qabs (c2 - a2)) (Qabs (a2 - c2)) 5 5
               (Qabs_minus_sym _ _) (Qeq_refl _)).
    match goal with |- (if ?c then _ else _) = _ => destruct c end;
      [|reflexivity].
    apply Qltb_proper; [|reflexivity].
    rewrite Q.min_comm.
    rewrite (Qabs_minus_sym c1 a3), (Qabs_minus_sym c3 a1). reflexivity.
  - destruct (Qltb (a3 - a1) 2 && Qltb 10 (a2 - a0)); [|discriminate].
    destruct (Qltb (c3 - c1) 2 && Qltb 10 (c2 - c0)); [|discriminate].
    intros _. split; reflexivity.
Qed.

(* --------------------------------------------------------------------- *)
(** ** Further properties of the region clustering                        *)
(* --------------------------------------------------------------------- *)

(** Some rectangle of [l] covers [o]. *)
Local Abbreviation coveredBy :=
  (fun (l : list RECT) (o : RECT) =>
     exists n : RECT, n ∈ l /\ covers (bbox n) (bbox o)).

Lemma coveredBy_self (l : list RECT) : Forall (coveredBy l) l.
Proof.
  apply Forall_forall. intros x Hx. exists x. split; [exact Hx|apply covers_refl].
Qed.

Lemma coveredBy_trans (l1 l2 : list RECT) (o : RECT) :
  coveredBy l1 o -> Forall (coveredBy l2) l1 -> coveredBy l2 o.
Proof.
  intros (n & Hn & Hc) H. rewrite Forall_forall in H.
  destruct (H n Hn) as (m & Hm & Hcm).
  exists m. split; [exact Hm|]. eapply covers_trans; eassumption.
Qed.

Lemma filter_nil_iff {A : Type} (f : A -> bool) (l : list A) :
  List.filter f l = [] <-> Forall (fun x => f x = false) l.
Proof.
  induction l as [|x l IH]; simpl.
  - split; [constructor|reflexivity].
  - destruct (f x) eqn:E; split.
    + discriminate.
    + intros H. inversion H; subst. congruence.
    + intros H. constructor; [exact E|]. apply IH, H.
    + intros H. inversion H; subst. apply IH. assumption.
Qed.

Lemma filter_length_bound {A : Type} (f : A -> bool) (l : list A) :
  (length (List.filter f l) <= length l)%nat.
Proof.
  induction l as [|x l IH]; simpl; [lia|]. destruct (f x); simpl; lia.
Qed.

Lemma valid_union (a b : RECT) :
  isValidRect a = true -> isValidRect (unionRects a b) = true.
Proof. reflexivity. Qed.

Section MergeLaws.
Variable distance : Q.
Variable horizontalDistance : option Q.

Local Abbreviation near := (shouldMerge distance horizontalDistance).

Lemma scanQueue_covers (ws : list RECT) :
  forall (rect rect' : RECT) (ws' : list RECT) (merged : bool),
    scanQueue distance horizontalDistance rect ws = (rect', ws', merged) ->
    covers (bbox rect') (bbox rect) /\
    Forall (fun o => covers (bbox rect') (bbox o) \/ o ∈ ws') ws.
Proof.
  induction ws as [|o rest IH]; intros rect rect' ws' merged H; simpl in H.
  - inversion H; subst. split; [apply covers_refl|constructor].
  - destruct (shouldMerge distance horizontalDistance rect o).
    + destruct (scanQueue distance horizontalDistance (unionRects rect o) rest)
        as [[r1 w1] m1] eqn:E.
      inversion H; subst. destruct (IH _ _ _ _ E) as [Hc Hf].
      split.
      * eapply covers_trans; [exact Hc|apply covers_union_l].
      * constructor; [|exact Hf].
        left. eapply covers_trans; [exact Hc|apply covers_union_r].
    + destruct (scanQueue distance horizontalDistance rect rest)
        as [[r1 w1] m1] eqn:E.
      inversion H; subst. destruct (IH _ _ _ _ E) as [Hc Hf].
      split; [exact Hc|].
      constructor; [right; left|].
      eapply Forall_impl; [exact Hf|].
      intros x [Hx|Hx]; [left; exact Hx|right; right; exact Hx].
Qed.

Lemma mergePass_covers (fuel : nat) :
  forall (ws new : list RECT) (merged : bool),
    (length ws <= fuel)%nat ->
    mergePass fuel distance horizontalDistance ws = (new, merged) ->
    Forall (coveredBy new) ws.
Proof.
  induction fuel as [|fuel IH]; intros ws new merged Hlen H.
  - destruct ws; [constructor|simpl in Hlen; lia].
  - destruct ws as [|rect rest]; [constructor|].
    simpl in H.
    destruct (scanQueue distance horizontalDistance rect rest)
      as [[rect' rest'] m] eqn:E.
    destruct (mergePass fuel distance horizontalDistance rest')
      as [new' m'] eqn:E2.
    inversion H; subst.
    destruct (scanQueue_covers _ _ _ _ _ E) as [Hc Hf].
    destruct (scanQueue_spec _ _ _ _ _ _ _ E) as [Hl _].
    assert (IHr : Forall (coveredBy new') rest').
    { eapply IH; [|exact E2]. simpl in Hlen. lia. }
    constructor.
    + exists rect'. split; [left|exact Hc].
    + eapply Forall_impl; [exact Hf|]. intros o [Ho|Ho].
      * exists rect'. split; [left|exact Ho].
      * rewrite Forall_forall in IHr. destruct (IHr o Ho) as (n & Hn & Hcn).
        exists n. split; [right; exact Hn|exact Hcn].
Qed.

Lemma mergeLoop_covers (fuel : nat) :
  forall ws : list RECT,
    Forall (coveredBy (mergeLoop fuel distance horizontalDistance ws)) ws.
Proof.
  induction fuel as [|fuel IH]; intros ws; simpl.
  - apply coveredBy_self.
  - destruct ws as [|r rest]; [constructor|].
    destruct (onePass distance horizontalDistance (r :: rest)) as [new m] eqn:E.
    assert (Hc : Forall (coveredBy new) (r :: rest)).
    { eapply mergePass_covers; [|exact E]. lia. }
    destruct m; [|exact Hc].
    apply Forall_forall. intros o Ho. rewrite Forall_forall in Hc.
    eapply coveredBy_trans; [apply Hc, Ho|apply IH].
Qed.

Lemma mergeLoop_length (fuel : nat) :
  forall ws : list RECT,
    (length (mergeLoop fuel distance horizontalDistance ws) <= length ws)%nat /\
    (ws <> [] -> mergeLoop fuel distance horizontalDistance ws <> []).
Proof.
  induction fuel as [|fuel IH]; intros ws; simpl.
  - split; [lia|auto].
  - destruct ws as [|r rest]; [split; [simpl; lia|auto]|].
    destruct (onePass distance horizontalDistance (r :: rest)) as [new m] eqn:E.
    destruct (mergePass_spec distance horizontalDistance _ _ _ _ (le_n _) E)
      as (Hl & _ & _ & Hne).
    destruct m.
    + destruct (IH new) as [Hl' Hne']. split; [lia|].
      intros _. apply Hne', Hne. discriminate.
    + split; [exact Hl|exact Hne].
Qed.

Lemma mergeRects_unfold (R : list RECT) :
  mergeRects R distance horizontalDistance =
  mergeLoop (length (List.filter isValidRect R)) distance horizontalDistance
            (List.filter isValidRect R).
Proof.
  unfold mergeRects. destruct R as [|r R']; [reflexivity|].
  destruct (List.filter isValidRect (r :: R')) as [|v vs] eqn:E;
    [reflexivity|].
  apply filter_all.
  apply (mergeLoop_preserves distance horizontalDistance
           (fun r => isValidRect r = true) valid_union).
  rewrite <- E. apply filter_Forall.
Qed.

Lemma scanQueue_quiet (ws : list RECT) (rect : RECT) :
  Forall (fun o => near rect o = false) ws ->
  scanQueue distance horizontalDistance rect ws = (rect, ws, false).
Proof.
  induction ws as [|o rest IH]; intros H; simpl; [reflexivity|].
  inversion H; subst.
  match goal with E : near rect o = false |- _ => rewrite E end.
  rewrite IH by assumption. reflexivity.
Qed.

Lemma mergePass_quiet (fuel : nat) :
  forall ws : list RECT,
    (length ws <= fuel)%nat ->
    ForallOrdPairs (fun u v => near u v = false) ws ->
    mergePass fuel distance horizontalDistance ws = (ws, false).
Proof.
  induction fuel as [|fuel IH]; intros ws Hlen H.
  - destruct ws; [reflexivity|simpl in Hlen; lia].
  - destruct ws as [|rect rest]; [reflexivity|].
    inversion H; subst. simpl.
    rewrite scanQueue_quiet by assumption.
    rewrite IH; [reflexivity|simpl in Hlen; lia|assumption].
Qed.

End MergeLaws.

Lemma mergeRects_length_le (R : list RECT) (d : Q) (horizontalDistance : option Q) :
  (length (mergeRects R d horizontalDistance) <= length R)%nat.
Proof.
  rewrite mergeRects_unfold.
  pose proof (mergeLoop_length d horizontalDistance
                (length (List.filter isValidRect R)) (List.filter isValidRect R))
    as [Hl _].
  pose proof (filter_length_bound isValidRect R). lia.
Qed.


(** X7 (rectProcessor.ts, mergeRects).  Merging never adds a rectangle: the
    result is no longer than the list of valid inputs; and it is empty only
    when no input is valid. *)
Theorem mergeRects_length (R : list RECT) (d : Q) (horizontalDistance : option Q) :
  (length (mergeRects R d horizontalDistance)
     <= length (List.filter isValidRect R))%nat /\
  (length (List.filter isValidRect R) <= length R)%nat /\
  (mergeRects R d horizontalDistance = [] <->
   Forall (fun r => isValidRect r = false) R).
Proof.
  rewrite mergeRects_unfold.
  destruct (mergeLoop_length d horizontalDistance
              (length (List.filter isValidRect R)) (List.filter isValidRect R))
    as [Hl Hne].
  split; [exact Hl|]. split; [apply filter_length_bound|].
  rewrite <- filter_nil_iff. split.
  - intros H. destruct (List.filter isValidRect R) as [|v vs]; [reflexivity|].
    exfalso. apply Hne; [discriminate|exact H].
  - intros H. rewrite H. reflexivity.
Qed.

(** X8 (rectProcessor.ts, mergeRects).  Merging loses no rectangle with
    ordered bounds: every valid input rectangle with ordered bounds lies
    inside some rectangle of the result, whatever else the list holds.  (A
    valid input with bounds out of order can be lost: from [10,10,0,0] and
    [2,3,4,5] at threshold 5 only [2,3,4,5] is left.) *)
Theorem mergeRects_covers_input
    (R : list RECT) (d : Q) (horizontalDistance : option Q) (r : RECT) :
  r ∈ R -> isValidRect r = true -> wellFormed r ->
  exists m : RECT,
    m ∈ mergeRects R d horizontalDistance /\ inside r m.
Proof.
  intros Hr Hv Hw. rewrite mergeRects_unfold.
  assert (Hin : r ∈ List.filter isValidRect R).
  { apply list_elem_of_In, filter_In. split; [apply list_elem_of_In, Hr|exact Hv]. }
  destruct (proj1 (Forall_forall _ _)
              (mergeLoop_covers d horizontalDistance
                 (length (List.filter isValidRect R))
                 (List.filter isValidRect R)) r Hin) as (m & Hm & Hc).
  exists m. split; [exact Hm|]. apply covers_inside; assumption.
Qed.

Lemma mergeRects_covers_input_witness :
  exists m : RECT,
    m ∈ mergeRects (firstn 2 TEST_RECTS) 5 None /\
    inside (createRect (mkBBox 32 12 50 22)) m.
Proof.
  apply (mergeRects_covers_input (firstn 2 TEST_RECTS) 5 None
           (createRect (mkBBox 32 12 50 22))).
  - right; left.
  - reflexivity.
  - split; vm_compute; discriminate.
Defined.

(** X9 (rectProcessor.ts, mergeRects).  The result is the list of valid
    inputs, unchanged and in order, exactly when no valid input should be
    merged with a later one. *)
Theorem mergeRects_nothing_to_merge
    (R : list RECT) (d : Q) (horizontalDistance : option Q) :
  mergeRects R d horizontalDistance = List.filter isValidRect R <->
  ForallOrdPairs (fun u v => shouldMerge d horizontalDistance u v = false)
                 (List.filter isValidRect R).
Proof.
  split.
  - intros H. rewrite <- H.
    apply stable_pairwise. apply mergeRects_stable.
  - intros H. rewrite mergeRects_unfold.
    apply mergeLoop_of_stable. unfold stable, onePass.
    apply mergePass_quiet; [lia|exact H].
Qed.

Section MergeAgreement.
Variable distance : Q.
Variables h1 h2 : option Q.
Variable P : RECT -> Prop.
Hypothesis P_union : forall a b : RECT, P a -> P (unionRects a b).
Hypothesis agree :
  forall a b : RECT, P a -> shouldMerge distance h1 a b = shouldMerge distance h2 a b.

Lemma scanQueue_agree (ws : list RECT) :
  forall rect : RECT,
    P rect ->
    scanQueue distance h1 rect ws = scanQueue distance h2 rect ws.
Proof.
  induction ws as [|o rest IH]; intros rect Hr; simpl; [reflexivity|].
  rewrite (agree rect o Hr).
  destruct (shouldMerge distance h2 rect o).
  - rewrite IH by (apply P_union, Hr). reflexivity.
  - rewrite IH by exact Hr. reflexivity.
Qed.

Lemma mergePass_agree (fuel : nat) :
  forall ws : list RECT,
    Forall P ws ->
    mergePass fuel distance h1 ws = mergePass fuel distance h2 ws.
Proof.
  induction fuel as [|fuel IH]; intros ws Hws; [reflexivity|].
  destruct ws as [|rect rest]; [reflexivity|].
  inversion Hws; subst. simpl.
  rewrite scanQueue_agree by assumption.
  destruct (scanQueue distance h2 rect rest) as [[rect' rest'] m] eqn:E.
  destruct (scanQueue_preserves distance h2 P P_union _ _ _ _ _ E)
    as [_ Hrest']; [assumption|assumption|].
  rewrite IH by exact Hrest'. reflexivity.
Qed.

Lemma mergeLoop_agree (fuel : nat) :
  forall ws : list RECT,
    Forall P ws ->
    mergeLoop fuel distance h1 ws = mergeLoop fuel distance h2 ws.
Proof.
  induction fuel as [|fuel IH]; intros ws Hws; [reflexivity|].
  destruct ws as [|r rest]; [reflexivity|].
  cbn [mergeLoop]. unfold onePass.
  rewrite mergePass_agree by exact Hws.
  destruct (mergePass (length (r :: rest)) distance h2 (r :: rest))
    as [new m] eqn:E.
  destruct m; [|reflexivity].
  apply IH. eapply mergePass_preserves; [exact P_union|exact E|exact Hws].
Qed.

Lemma mergeRects_agree (R : list RECT) :
  Forall P R -> mergeRects R distance h1 = mergeRects R distance h2.
Proof.
  intros H. rewrite !mergeRects_unfold.
  apply mergeLoop_agree. apply filter_preserves. exact H.
Qed.

End MergeAgreement.

Lemma isHorizontalNear_tall (a b : RECT) (h : Q) :
  (2 <= b3 (bbox a) - b1 (bbox a))%Q -> isHorizontalNear a b h = false.
Proof.
  intros H. unfold isHorizontalNear.
  destruct (Qltb (b3 (bbox a) - b1 (bbox a)) 2) eqn:E; [|reflexivity].
  apply Qltb_true in E. exfalso. qlra.
Qed.

Lemma tall_union (a b : RECT) :
  (2 <= b3 (bbox a) - b1 (bbox a))%Q ->
  (2 <= b3 (bbox (unionRects a b)) - b1 (bbox (unionRects a b)))%Q.
Proof.
  intros H. destruct (covers_union_l a b) as (_ & H1 & _ & H3). qlra.
Qed.

(** X10 (rectProcessor.ts, mergeRects).  A horizontal threshold of 0 is the
    same as none: [horizontalDistance && ...] skips the horizontal test for
    0 as it does for null. *)
Theorem mergeRects_horizontal_zero (R : list RECT) (d : Q) :
  mergeRects R d (Some 0%Q) = mergeRects R d None.
Proof.
  apply (mergeRects_agree d (Some 0%Q) None (fun _ => True)).
  - intros; exact I.
  - intros a b _. unfold shouldMerge. cbn. reflexivity.
  - apply Forall_forall. intros; exact I.
Qed.

(** X11 (rectProcessor.ts, mergeRects; src/utils.js, isHorizontalNear).  The
    horizontal threshold matters for thin rectangles only: on a list whose
    rectangles are all at least 2 high the result is the same with and
    without it. *)
Theorem mergeRects_horizontal_irrelevant (R : list RECT) (d h : Q) :
  Forall (fun r => (2 <= b3 (bbox r) - b1 (bbox r))%Q) R ->
  mergeRects R d (Some h) = mergeRects R d None.
Proof.
  apply (mergeRects_agree d (Some h) None).
  - exact tall_union.
  - intros a b Ha. unfold shouldMerge.
    rewrite (isHorizontalNear_tall a b h Ha), andb_false_r. reflexivity.
Qed.

Lemma mergeRects_horizontal_irrelevant_witness :
  mergeRects (firstn 4 TEST_RECTS) 5 (Some 50%Q) =
  mergeRects (firstn 4 TEST_RECTS) 5 None.
Proof.
  apply (mergeRects_horizontal_irrelevant (firstn 4 TEST_RECTS) 5 50).
  repeat constructor; vm_compute; discriminate.
Defined.

(* --------------------------------------------------------------------- *)
(** ** Further properties of the adsorption                               *)
(* --------------------------------------------------------------------- *)

Local Abbreviation grown :=
  (Forall2 (fun t t' : RECT => covers (bbox t') (bbox t))).

Lemma grown_refl (T : list RECT) : grown T T.
Proof.
  apply Forall_Forall2_diag, Forall_forall. intros; apply covers_refl.
Qed.

Lemma grown_trans (T1 T2 T3 : list RECT) :
  grown T1 T2 -> grown T2 T3 -> grown T1 T3.
Proof.
  intros H12. revert T3. induction H12 as [|a b l1 l2 Hab _ IH]; intros T3 H23.
  - inversion H23; subst. constructor.
  - inversion H23 as [|b' c l2' l3 Hbc H23']; subst. constructor.
    + eapply covers_trans; eassumption.
    + apply IH, H23'.
Qed.

Lemma grown_covered (T T' : list RECT) (o : RECT) :
  grown T T' -> coveredBy T o -> coveredBy T' o.
Proof.
  intros Hg (n & Hn & Hc).
  apply list_elem_of_lookup in Hn as [i Hi].
  destruct (Forall2_lookup_l _ _ _ _ _ Hg Hi) as (n' & Hi' & Hc').
  exists n'. split; [eapply list_elem_of_lookup_2; exact Hi'|].
  eapply covers_trans; eassumption.
Qed.

Lemma adsorbOne_grows (rect : RECT) (d : Q) (T : list RECT) :
  grown T (adsorbOne rect d T).1 /\
  ((adsorbOne rect d T).2 = true -> coveredBy (adsorbOne rect d T).1 rect) /\
  ((adsorbOne rect d T).2 = false ->
   (adsorbOne rect d T).1 = T /\ Forall (fun t => isNear rect t d = false) T).
Proof.
  induction T as [|t rest IH]; simpl.
  - split; [constructor|]. split; [discriminate|]. intros _. split; [reflexivity|constructor].
  - destruct (isNear rect t d) eqn:E; simpl.
    + split; [constructor; [apply covers_union_r|apply grown_refl]|].
      split; [|discriminate].
      intros _. exists (unionRects rect t). split; [left|apply covers_union_l].
    + destruct (adsorbOne rect d rest) as [rest' ads]; simpl in *.
      destruct IH as (Hg & Hc & Hn).
      split; [constructor; [apply covers_refl|exact Hg]|]. split.
      * intros Ha. destruct (Hc Ha) as (n & Hn' & Hcn).
        exists n. split; [right; exact Hn'|exact Hcn].
      * intros Ha. destruct (Hn Ha) as [-> Hf].
        split; [reflexivity|]. constructor; assumption.
Qed.


Lemma grown_inside (T T' : list RECT) :
  Forall wellFormed T -> grown T T' -> Forall2 inside T T'.
Proof.
  intros HT Hg. induction Hg as [|t t' T0 T1 Hc _ IH]; [constructor|].
  inversion HT; subst. constructor; [|apply IH; assumption].
  apply covers_inside; assumption.
Qed.

Lemma adsorbRectsToRects_account (S T : list RECT) (d : Q) :
  (adsorbRectsToRects S T d).1 `sublist_of` S /\
  Forall2 (fun t t' => covers (bbox t') (bbox t)) T (adsorbRectsToRects S T d).2 /\
  Forall (fun s => s ∈ (adsorbRectsToRects S T d).1 \/
                   exists t', t' ∈ (adsorbRectsToRects S T d).2 /\
                              covers (bbox t') (bbox s)) S.
Proof.
  revert T. induction S as [|s S IH]; intros T; simpl.
  - split; [constructor|]. split; [apply grown_refl|constructor].
  - destruct (adsorbOne_grows s d T) as (Hg & Hc & _).
    destruct (adsorbOne s d T) as [T1 ads]; simpl in Hg, Hc.
    destruct (IH T1) as (Hs & Hg' & Hf).
    destruct (adsorbRectsToRects S T1 d) as [rest T']; simpl in *.
    split; [|split].
    + destruct ads; [apply sublist_cons, Hs|apply sublist_skip, Hs].
    + eapply grown_trans; eassumption.
    + constructor.
      * destruct ads; [right|left; left].
        eapply grown_covered; [exact Hg'|apply Hc; reflexivity].
      * eapply Forall_impl; [exact Hf|]. intros x [Hx|Hx]; [left|right; exact Hx].
        destruct ads; [exact Hx|right; exact Hx].
Qed.

(** X12 (rectProcessor.ts, adsorbRectsToRects).  On rectangles with ordered
    bounds adsorption loses nothing: the unabsorbed list is a sublist of the
    sources, every target lies inside the updated target at its position,
    and every source is either returned unabsorbed or lies inside some
    updated target.  (A source with bounds out of order can be lost:
    adsorbing [10,10,0,0] to [2,3,4,5] at threshold 5 leaves [2,3,4,5].) *)
Theorem adsorbRectsToRects_nothing_lost (S T : list RECT) (d : Q) :
  Forall wellFormed S -> Forall wellFormed T ->
  (adsorbRectsToRects S T d).1 `sublist_of` S /\
  Forall2 inside T (adsorbRectsToRects S T d).2 /\
  Forall (fun s => s ∈ (adsorbRectsToRects S T d).1 \/
                   exists t', t' ∈ (adsorbRectsToRects S T d).2 /\ inside s t') S.
Proof.
  intros HS HT.
  destruct (adsorbRectsToRects_account S T d) as (Hsub & Hg & Hf).
  split; [exact Hsub|]. split.
  - apply grown_inside; assumption.
  - apply Forall_forall. intros s Hs. rewrite Forall_forall in Hf, HS.
    destruct (Hf s Hs) as [H|(t' & Ht' & Hc)]; [left; exact H|right].
    exists t'. split; [exact Ht'|].
    apply covers_inside; [apply HS, Hs|exact Hc].
Qed.

Lemma adsorbRectsToRects_nothing_lost_witness :
  let S := [createRect (mkBBox 15 15 25 25); createRect (mkBBox 150 150 160 160)] in
  let T := [createRect (mkBBox 10 10 30 30); createRect (mkBBox 200 200 220 220)] in
  (adsorbRectsToRects S T 10).1 `sublist_of` S /\
  Forall2 inside T (adsorbRectsToRects S T 10).2 /\
  Forall (fun s => s ∈ (adsorbRectsToRects S T 10).1 \/
                   exists t', t' ∈ (adsorbRectsToRects S T 10).2 /\ inside s t') S.
Proof.
  apply (adsorbRectsToRects_nothing_lost
           [createRect (mkBBox 15 15 25 25); createRect (mkBBox 150 150 160 160)]
           [createRect (mkBBox 10 10 30 30); createRect (mkBBox 200 200 220 220)]
           10);
    repeat constructor; vm_compute; discriminate.
Defined.

(** X13 (rectProcessor.ts, adsorbRectsToRects).  When no source is near any
    target, nothing is absorbed: both lists come back unchanged.  This covers
    the case of an empty target list. *)
Theorem adsorbRectsToRects_nothing_near (S T : list RECT) (d : Q) :
  Forall (fun s => Forall (fun t => isNear s t d = false) T) S ->
  adsorbRectsToRects S T d = (S, T).
Proof.
  induction S as [|s S IH]; intros H; simpl; [reflexivity|].
  inversion H as [|? ? Hs HS]; subst.
  assert (E : adsorbOne s d T = (T, false)).
  { clear -Hs. induction Hs as [|t T Ht _ IHT]; simpl; [reflexivity|].
    rewrite Ht, IHT. reflexivity. }
  rewrite E, (IH HS). reflexivity.
Qed.

Lemma adsorbRectsToRects_nothing_near_witness :
  adsorbRectsToRects [createRect (mkBBox 150 150 160 160)]
                     [createRect (mkBBox 10 10 30 30);
                      createRect (mkBBox 200 200 220 220)] 10 =
  ([createRect (mkBBox 150 150 160 160)],
   [createRect (mkBBox 10 10 30 30); createRect (mkBBox 200 200 220 220)]).
Proof.
  apply (adsorbRectsToRects_nothing_near
           [createRect (mkBBox 150 150 160 160)]
           [createRect (mkBBox 10 10 30 30);
            createRect (mkBBox 200 200 220 220)] 10).
  repeat constructor.
Defined.

(* --------------------------------------------------------------------- *)
(** ** The size filter and the regions of a page                          *)
(* --------------------------------------------------------------------- *)

Lemma filter_filter_andb {A : Type} (f g : A -> bool) (l : list A) :
  List.filter g (List.filter f l) = List.filter (fun x => f x && g x) l.
Proof.
  induction l as [|x l IH]; simpl; [reflexivity|].
  destruct (f x); simpl; [|exact IH].
  destruct (g x); [f_equal|]; exact IH.
Qed.

Lemma filter_ext_bool {A : Type} (f g : A -> bool) (l : list A) :
  (forall x, f x = g x) -> List.filter f l = List.filter g l.
Proof.
  intros H. induction l as [|x l IH]; simpl; [reflexivity|].
  rewrite H, IH. reflexivity.
Qed.

Lemma filter_sublist {A : Type} (f : A -> bool) (l : list A) :
  List.filter f l `sublist_of` l.
Proof.
  induction l as [|x l IH]; simpl; [constructor|].
  destruct (f x); [apply sublist_skip|apply sublist_cons]; exact IH.
Qed.

Lemma Qltb_max (a b x : Q) : Qltb a x && Qltb b x = Qltb (Qmax a b) x.
Proof.
  destruct (Q.max_spec a b) as [[Hab M]|[Hab M]];
    rewrite (Qltb_proper (Qmax a b) _ x x M (Qeq_refl x)).
  - destruct (Qltb b x) eqn:E; [|apply andb_false_r].
    rewrite andb_true_r. apply Qltb_true in E. apply Qltb_true. qlra.
  - destruct (Qltb a x) eqn:E; [|reflexivity].
    apply Qltb_true in E. apply Qltb_true. qlra.
Qed.

(** X14 (rectProcessor.ts, filterSmallRects).  The filter keeps a sublist of
    its input, and two filters in a row are one filter with the larger
    threshold on each axis; so filtering twice with the same thresholds
    changes nothing more. *)
Theorem filterSmallRects_compose (rects : list RECT) (w1 h1 w2 h2 : Q) :
  filterSmallRects rects w1 h1 `sublist_of` rects /\
  filterSmallRects (filterSmallRects rects w1 h1) w2 h2 =
    filterSmallRects rects (Qmax w1 w2) (Qmax h1 h2) /\
  filterSmallRects (filterSmallRects rects w1 h1) w1 h1 =
    filterSmallRects rects w1 h1.
Proof.
  assert (Hc : forall u1 v1 u2 v2,
             filterSmallRects (filterSmallRects rects u1 v1) u2 v2 =
             filterSmallRects rects (Qmax u1 u2) (Qmax v1 v2)).
  { intros. unfold filterSmallRects. rewrite filter_filter_andb.
    apply filter_ext_bool. intros r. cbv beta zeta.
    rewrite <- !Qltb_max.
    repeat match goal with |- context [Qltb ?a ?b] =>
      generalize (Qltb a b); intro end.
    repeat match goal with b : bool |- _ => destruct b end; reflexivity. }
  split; [apply filter_sublist|]. split; [apply Hc|].
  rewrite Hc. unfold filterSmallRects. apply filter_ext_bool. intros r.
  cbv beta zeta. f_equal; apply Qltb_proper; first [apply Q.max_id|reflexivity].
Qed.


Lemma ForallOrdPairs_filter {A : Type} (R : A -> A -> Prop) (f : A -> bool)
    (l : list A) :
  ForallOrdPairs R l -> ForallOrdPairs R (List.filter f l).
Proof.
  induction 1 as [|a l Ha _ IH]; simpl; [constructor|].
  destruct (f a); [|exact IH].
  constructor; [|exact IH].
  clear IH. induction Ha as [|x l Hx _ IH]; simpl; [constructor|].
  destruct (f x); [constructor; assumption|assumption].
Qed.

Lemma ForallOrdPairs_map {A B : Type} (R : B -> B -> Prop) (g : A -> B)
    (l : list A) :
  ForallOrdPairs (fun x y => R (g x) (g y)) l -> ForallOrdPairs R (List.map g l).
Proof.
  induction 1 as [|a l Ha _ IH]; simpl; constructor; [|exact IH].
  clear IH. induction Ha; simpl; constructor; assumption.
Qed.

Section PageRegions.
Variables drawing image largeText smallText : list BBox.

Local Abbreviation clusters :=
  (clusterRects (List.map createRect drawing) (List.map createRect image)
                (List.map createRect largeText) (List.map createRect smallText)).

Lemma clusterRects_pairwise :
  ForallOrdPairs (fun u v => isNear u v 10 = false) clusters.
Proof.
  unfold clusterRects.
  match goal with |- ForallOrdPairs _ (mergeRects ?U _ _) =>
    pose proof (mergeRects_stable 10%Q None U) as [Hs _];
    apply stable_pairwise in Hs
  end.
  eapply ForallOrdPairs_ind with (P := fun l => ForallOrdPairs _ l);
    [constructor| |exact Hs].
  intros a l Ha _ IH. constructor; [|exact IH].
  eapply Forall_impl; [exact Ha|]. intros b Hb. unfold shouldMerge in Hb.
  rewrite orb_false_r in Hb. exact Hb.
Qed.

Lemma clusterRects_length :
  (length clusters <=
   length drawing + length image + length largeText + length smallText)%nat.
Proof.
  unfold clusterRects.
  etransitivity; [apply mergeRects_length_le|].
  match goal with
  | |- (length (if ?c then _ else _) <= _)%nat => destruct c
  end.
  - rewrite !adsorbRectsToRects_length.
    etransitivity; [apply mergeRects_length_le|].
    rewrite !length_app, !length_map. lia.
  - etransitivity; [apply mergeRects_length_le|].
    rewrite !length_app, !length_map. lia.
Qed.


End PageRegions.

(** X15 (src/pdfParser.js, parseRects).  Every region returned for a page is
    wider than 15 and higher than 10, no region is near a later one at
    threshold 10, and there are at most as many regions as rectangles were
    read from the page. *)
Theorem parseRects_regions (drawing image largeText smallText : list BBox) :
  Forall (fun A => (15 < b2 A - b0 A)%Q /\ (10 < b3 A - b1 A)%Q)
         (parseRects drawing image largeText smallText) /\
  ForallOrdPairs (fun A B => isNear (createRect A) (createRect B) 10 = false)
                 (parseRects drawing image largeText smallText) /\
  (length (parseRects drawing image largeText smallText) <=
   length drawing + length image + length largeText + length smallText)%nat.
Proof.
  unfold parseRects. cbv zeta. split; [|split].
  - apply Forall_map.
    eapply Forall_impl; [apply filter_Forall|].
    intros r Hr. cbv beta zeta in Hr.
    apply andb_true_iff in Hr as [Hw Hh].
    apply Qltb_true in Hw, Hh. split; assumption.
  - apply ForallOrdPairs_map, ForallOrdPairs_filter.
    apply clusterRects_pairwise.
  - rewrite length_map.
    etransitivity; [apply filter_length_bound|apply clusterRects_length].
Qed.



(* --------------------------------------------------------------------- *)
(** ** Further properties of the heading reconciliation                   *)
(* --------------------------------------------------------------------- *)

Section PatternShapes.

Lemma star_Some {A : Type} (cls : N -> bool) (k : jsstring -> jsstring -> option A) :
  forall (input consumed : jsstring) (r : A),
    star cls k consumed input = Some r ->
    exists taken rest,
      input = taken ++ rest /\ Forall (fun c => cls c = true) taken /\
      k (consumed ++ taken) rest = Some r.
Proof.
  induction input as [|c input IH]; intros consumed r H; simpl in H.
  - exists [], []. split; [reflexivity|]. split; [constructor|].
    rewrite app_nil_r. exact H.
  - destruct (cls c) eqn:E.
    + destruct (star cls k (consumed ++ [c]) input) as [r'|] eqn:E'.
      * inversion H; subst r'.
        destruct (IH _ _ E') as (taken & rest & -> & Hf & Hk).
        exists (c :: taken), rest. rewrite <- app_assoc in Hk.
        split; [reflexivity|]. split; [constructor; assumption|exact Hk].
      * exists [], (c :: input). split; [reflexivity|]. split; [constructor|].
        rewrite app_nil_r. exact H.
    + exists [], (c :: input). split; [reflexivity|]. split; [constructor|].
      rewrite app_nil_r. exact H.
Qed.

Lemma plus_Some {A : Type} (cls : N -> bool) (k : jsstring -> jsstring -> option A)
    (input : jsstring) (r : A) :
  plus cls k input = Some r ->
  exists c taken rest,
    input = c :: taken ++ rest /\ cls c = true /\
    Forall (fun c => cls c = true) taken /\ k (c :: taken) rest = Some r.
Proof.
  unfold plus. destruct input as [|c input]; [discriminate|].
  destruct (cls c) eqn:E; [|discriminate]. intros H.
  destruct (star_Some cls k _ _ _ H) as (taken & rest & -> & Hf & Hk).
  exists c, taken, rest. repeat split; assumption.
Qed.

Lemma titleMatch_Some (line hashes text : jsstring) :
  titleMatch line = Some (hashes, text) ->
  hashes = replicate (length hashes) HASH /\ (1 <= length hashes)%nat /\
  text <> [].
Proof.
  unfold titleMatch. intros H.
  apply plus_Some in H as (c & taken & rest & _ & Hc & Hf & H).
  apply star_Some in H as (taken2 & rest2 & _ & _ & H).
  apply plus_Some in H as (c3 & taken3 & rest3 & _ & _ & _ & H).
  inversion H; subst. split; [|split; [simpl; lia|discriminate]].
  assert (Hall : Forall (fun x => x = HASH) (c :: taken)).
  { constructor; [apply N.eqb_eq, Hc|].
    eapply Forall_impl; [exact Hf|]. intros x Hx. apply N.eqb_eq, Hx. }
  clear -Hall. induction Hall as [|x l Hx _ IH]; [reflexivity|].
  simpl. rewrite Hx. f_equal. exact IH.
Qed.

Lemma dropWhile_replicate_HASH (n : nat) (s : jsstring) :
  dropWhile isHash (replicate n HASH ++ SPACE :: s) = SPACE :: s.
Proof. induction n as [|n IH]; [reflexivity|exact IH]. Qed.

Lemma takeWhile_idem (cls : N -> bool) (s : jsstring) :
  takeWhile cls (takeWhile cls s) = takeWhile cls s.
Proof.
  induction s as [|c s IH]; simpl; [reflexivity|].
  destruct (cls c) eqn:E; [|reflexivity]. simpl. rewrite E, IH. reflexivity.
Qed.

Lemma dropWhile_takeWhile_dropWhile (s : jsstring) :
  dropWhile isWhiteSpace (takeWhile dot (dropWhile isWhiteSpace s)) =
  takeWhile dot (dropWhile isWhiteSpace s).
Proof.
  destruct (dropWhile_head isWhiteSpace s) as [->|(c & t & -> & Hc)];
    [reflexivity|].
  simpl. destruct (dot c); [|reflexivity]. simpl. rewrite Hc. reflexivity.
Qed.

End PatternShapes.

Section LevelMaps.

(** Every level of the map counts at least one [#]. *)
Local Abbreviation positive :=
  (fun map : gmap jsstring nat =>
     forall key level, map !! key = Some level -> (1 <= level)%nat).

Lemma setTitleLevel_origin (map : gmap jsstring nat) (line key : jsstring) (level : nat) :
  setTitleLevel map line !! key = Some level ->
  map !! key = Some level \/
  exists hashes text,
    titleMatch line = Some (hashes, text) /\ trim text = key /\
    length hashes = level.
Proof.
  unfold setTitleLevel.
  destruct (titleMatch line) as [[hashes text]|] eqn:E; [|left; assumption].
  destruct (decide (trim text = key)) as [Heq|Hne].
  - subst key. rewrite lookup_insert_eq. intros [= <-].
    right. exists hashes, text. repeat split; reflexivity.
  - rewrite lookup_insert_ne by exact Hne. left; assumption.
Qed.

Lemma fold_setTitleLevel_origin (lines : list jsstring) :
  forall (map : gmap jsstring nat) (key : jsstring) (level : nat),
    fold_left setTitleLevel lines map !! key = Some level ->
    map !! key = Some level \/
    exists line hashes text,
      line ∈ lines /\ titleMatch line = Some (hashes, text) /\
      trim text = key /\ length hashes = level.
Proof.
  induction lines as [|l lines IH]; intros map key level H; simpl in H.
  - left; exact H.
  - destruct (IH _ _ _ H) as [H1|(line & hs & tx & Hin & Hm & Ht & Hl)].
    + destruct (setTitleLevel_origin _ _ _ _ H1) as [H0|(hs & tx & Hm & Ht & Hl)].
      * left; exact H0.
      * right. exists l, hs, tx. repeat split; [left|..]; assumption.
    + right. exists line, hs, tx. repeat split; [right|..]; assumption.
Qed.

Lemma createTitleLevelMap_positive (outline : jsstring) :
  positive (createTitleLevelMap outline ∅).
Proof.
  intros key level H.
  destruct (fold_setTitleLevel_origin _ _ _ _ H)
    as [H0|(line & hs & tx & _ & Hm & _ & <-)].
  - rewrite lookup_empty in H0. discriminate.
  - apply titleMatch_Some in Hm. apply Hm.
Qed.

Lemma fold_setTitleLevel_keep (lines : list jsstring) :
  forall (map : gmap jsstring nat) (key : jsstring) (level : nat),
    map !! key = Some level ->
    Forall (fun l => forall hs tx, titleMatch l = Some (hs, tx) -> trim tx <> key)
           lines ->
    fold_left setTitleLevel lines map !! key = Some level.
Proof.
  induction lines as [|l lines IH]; intros map key level H Hf; simpl;
    [exact H|].
  inversion Hf as [|? ? Hl Hrest]; subst. apply IH; [|exact Hrest].
  unfold setTitleLevel.
  destruct (titleMatch l) as [[hs tx]|] eqn:E; [|exact H].
  rewrite lookup_insert_ne; [exact H|]. eapply Hl; reflexivity.
Qed.

Lemma createTitleLevelMap_last
    (outline : jsstring) (before after : list jsstring)
    (oline hashes text : jsstring) (map : gmap jsstring nat) :
  splitLines outline = before ++ oline :: after ->
  titleMatch oline = Some (hashes, text) ->
  Forall (fun l => forall hs tx, titleMatch l = Some (hs, tx) -> trim tx <> trim text)
         after ->
  createTitleLevelMap outline map !! trim text = Some (length hashes).
Proof.
  intros Hs Hm Hf. unfold createTitleLevelMap.
  rewrite Hs, fold_left_app. cbn [fold_left].
  apply fold_setTitleLevel_keep; [|exact Hf].
  unfold setTitleLevel at 1. rewrite Hm. apply lookup_insert_eq.
Qed.

Lemma adjustLine_headingMatch (map : gmap jsstring nat) (line : jsstring) :
  positive map -> headingMatch (adjustLine map line) = headingMatch line.
Proof.
  intros Hpos. unfold adjustLine.
  destruct (headingMatch line) as [content|] eqn:E; [|exact E].
  destruct (map !! content) as [level|] eqn:El; [|exact E].
  pose proof (Hpos _ _ El) as Hl.
  destruct level as [|n]; [lia|].
  rewrite headingMatch_closed in E.
  destruct line as [|c rest]; [discriminate|].
  destruct (isHash c); [|discriminate]. inversion E as [Hc].
  rewrite headingMatch_closed. cbn [replicate app].
  change (isHash HASH) with true. cbv iota.
  rewrite dropWhile_replicate_HASH. cbn [dropWhile].
  change (isWhiteSpace SPACE) with true. cbv iota.
  rewrite dropWhile_takeWhile_dropWhile, takeWhile_idem. reflexivity.
Qed.

Lemma adjustLine_idem (map : gmap jsstring nat) (line : jsstring) :
  positive map -> adjustLine map (adjustLine map line) = adjustLine map line.
Proof.
  intros Hpos.
  pose proof (adjustLine_headingMatch map line Hpos) as Hh.
  unfold adjustLine at 1. rewrite Hh.
  destruct (headingMatch line) as [content|] eqn:E; [|reflexivity].
  destruct (map !! content) as [level|] eqn:El; [|reflexivity].
  unfold adjustLine. rewrite E, El. reflexivity.
Qed.

End LevelMaps.



(** X18 (src/utils.ts, adjustMarkdownHeadings).  Rewriting never changes
    which lines are headings nor the title text the pattern captures from
    them: line by line the match is the same before and after. *)
Theorem adjustMarkdownHeadings_keeps_titles (markdownText newTitle : jsstring) :
  List.map headingMatch (splitLines (adjustMarkdownHeadings markdownText newTitle)) =
  List.map headingMatch (splitLines markdownText).
Proof.
  rewrite adjustMarkdownHeadings_lines, map_map.
  apply map_ext. intros line.
  apply adjustLine_headingMatch, createTitleLevelMap_positive.
Qed.

(** X19 (src/utils.ts, adjustMarkdownHeadings).  Rewriting the headings a
    second time with the same outline changes nothing. *)
Theorem adjustMarkdownHeadings_idempotent (markdownText newTitle : jsstring) :
  adjustMarkdownHeadings (adjustMarkdownHeadings markdownText newTitle) newTitle =
  adjustMarkdownHeadings markdownText newTitle.
Proof.
  unfold adjustMarkdownHeadings at 1. cbv zeta.
  rewrite adjustMarkdownHeadings_lines, map_map.
  unfold adjustMarkdownHeadings. cbv zeta. f_equal.
  apply map_ext. intros line.
  apply adjustLine_idem, createTitleLevelMap_positive.
Qed.

(** X20 (src/utils.ts, adjustMarkdownHeadings and createTitleLevelMap).  A
    heading whose title is named by the outline gets the level of the LAST
    outline line with that title: the line becomes that line's run of [#],
    one space, and the title. *)
Theorem adjustMarkdownHeadings_matched
    (markdownText outline : jsstring) (i : nat) (line content : jsstring)
    (before after : list jsstring) (oline hashes text : jsstring) :
  splitLines markdownText !! i = Some line ->
  headingMatch line = Some content ->
  splitLines outline = before ++ oline :: after ->
  titleMatch oline = Some (hashes, text) ->
  trim text = content ->
  Forall (fun l => forall hs tx, titleMatch l = Some (hs, tx) -> trim tx <> content)
         after ->
  splitLines (adjustMarkdownHeadings markdownText outline) !! i =
  Some (hashes ++ SPACE :: content).
Proof.
  intros Hi Hm Hs Ht Hc Hf. subst content.
  rewrite adjustMarkdownHeadings_lines, list_lookup_fmap, Hi. cbn [fmap option_fmap option_map].
  unfold adjustLine. rewrite Hm.
  rewrite (createTitleLevelMap_last outline before after oline hashes text ∅ Hs Ht Hf).
  destruct (titleMatch_Some _ _ _ Ht) as (Hh & _ & _).
  rewrite <- Hh. reflexivity.
Qed.

Lemma adjustMarkdownHeadings_matched_witness :
  splitLines (adjustMarkdownHeadings sampleText sampleOutline) !! 3%nat =
  Some (str "###" ++ SPACE :: str "B").
Proof.
  apply (adjustMarkdownHeadings_matched sampleText sampleOutline 3
           (str "# B") (str "B") [str "## A"] [] (str "### B")
           (str "###") (str "B")); try reflexivity.
  constructor.
Defined.

(** X21 (src/utils.ts, createTitleLevelMap).  Every entry of the resulting
    map is either an entry of the map passed in or records a heading line of
    the data: its key is the trimmed title and its level, at least 1, the
    number of [#] of that line. *)
Theorem createTitleLevelMap_entries
    (data : jsstring) (map : gmap jsstring nat) (key : jsstring) (level : nat) :
  createTitleLevelMap data map !! key = Some level ->
  map !! key = Some level \/
  (1 <= level)%nat /\
  exists line hashes text,
    line ∈ splitLines data /\ titleMatch line = Some (hashes, text) /\
    trim text = key /\ length hashes = level.
Proof.
  intros H.
  destruct (fold_setTitleLevel_origin _ _ _ _ H)
    as [H0|(line & hs & tx & Hin & Hm & Ht & Hl)]; [left; exact H0|right].
  split.
  - rewrite <- Hl. apply titleMatch_Some in Hm. apply Hm.
  - exists line, hs, tx. repeat split; assumption.
Qed.

Lemma createTitleLevelMap_entries_witness :
  (∅ : gmap jsstring nat) !! str "B" = Some 3%nat \/
  (1 <= 3)%nat /\
  exists line hashes text,
    line ∈ splitLines sampleOutline /\ titleMatch line = Some (hashes, text) /\
    trim text = str "B" /\ length hashes = 3%nat.
Proof.
  apply (createTitleLevelMap_entries sampleOutline ∅ (str "B") 3).
  vm_compute. reflexivity.
Defined.

Section Fences.

Lemma startsWith_app (needle post : jsstring) :
  startsWith needle (needle ++ post) = true.
Proof.
  induction needle as [|n needle IH]; simpl; [reflexivity|].
  rewrite N.eqb_refl. exact IH.
Qed.

Lemma indexOf_complete (needle pre post : jsstring) :
  is_Some (indexOf needle (pre ++ needle ++ post)).
Proof.
  induction pre as [|x pre IH]; cbn [app].
  - destruct (needle ++ post) as [|c s] eqn:E.
    + destruct needle; [eexists; reflexivity|discriminate].
    + cbn [indexOf]. rewrite <- E, startsWith_app. eexists; reflexivity.
  - cbn [indexOf].
    destruct (startsWith needle (x :: pre ++ needle ++ post));
      [eexists; reflexivity|].
    destruct IH as [i ->]. eexists; reflexivity.
Qed.

Lemma lastIndexOf_complete (needle pre post : jsstring) :
  is_Some (lastIndexOf needle (pre ++ needle ++ post)).
Proof.
  induction pre as [|x pre IH]; cbn [app].
  - destruct (needle ++ post) as [|c s] eqn:E.
    + destruct needle; [eexists; reflexivity|discriminate].
    + cbn [lastIndexOf]. destruct (lastIndexOf needle s); [eexists; reflexivity|].
      rewrite <- E, startsWith_app. eexists; reflexivity.
  - cbn [lastIndexOf]. destruct IH as [i ->]. eexists; reflexivity.
Qed.

Lemma indexOf_first (n0 : N) (needle' pre post : jsstring) :
  Forall (fun c => c <> n0) pre ->
  indexOf (n0 :: needle') (pre ++ (n0 :: needle') ++ post) = Some (length pre).
Proof.
  induction 1 as [|x pre Hx _ IH].
  - cbn [app length indexOf].
    change (n0 :: needle' ++ post) with ((n0 :: needle') ++ post).
    rewrite startsWith_app. reflexivity.
  - cbn [app length indexOf startsWith].
    destruct (N.eqb_spec n0 x) as [->|_]; [contradiction|].
    cbn [andb]. cbn [app] in IH. rewrite IH. reflexivity.
Qed.

Lemma lastIndexOf_app (needle pre s : jsstring) (i : nat) :
  lastIndexOf needle s = Some i ->
  lastIndexOf needle (pre ++ s) = Some (length pre + i)%nat.
Proof.
  intros H. induction pre as [|x pre IH]; simpl; [exact H|].
  rewrite IH. reflexivity.
Qed.

Lemma lastIndexOf_no_backtick (post : jsstring) :
  Forall (fun c => c <> BACKTICK) post -> lastIndexOf fence post = None.
Proof.
  induction 1 as [|c post Hc _ IH]; [reflexivity|].
  cbn [lastIndexOf]. rewrite IH.
  change fence with [BACKTICK; BACKTICK; BACKTICK]. cbn [startsWith].
  destruct (N.eqb_spec BACKTICK c) as [<-|_]; [contradiction|reflexivity].
Qed.

Lemma lastIndexOf_closing_fence (post : jsstring) :
  Forall (fun c => c <> BACKTICK) post ->
  lastIndexOf fence (fence ++ post) = Some 0%nat.
Proof.
  intros H. pose proof (lastIndexOf_no_backtick post H) as Hn.
  change fence with [BACKTICK; BACKTICK; BACKTICK] in *.
  cbn [app lastIndexOf]. rewrite Hn.
  destruct H as [|c post Hc _].
  - reflexivity.
  - cbn [startsWith].
    destruct (N.eqb_spec BACKTICK c) as [<-|_]; [contradiction|].
    rewrite N.eqb_refl. cbn [andb]. reflexivity.
Qed.

End Fences.

(** X22 (src/utils.ts, extractMdFromLLMOutput).  The function returns a text
    exactly when the opening delimiter occurs somewhere in the model's
    output; whether a closing fence follows plays no part. *)
Theorem extractMdFromLLMOutput_defined_iff (output : jsstring) :
  is_Some (extractMdFromLLMOutput output) <->
  exists pre post, output = pre ++ mdFence ++ post.
Proof.
  unfold extractMdFromLLMOutput. split.
  - destruct (indexOf mdFence output) as [i|] eqn:E.
    + intros _. eapply indexOf_Some, E.
    + intros [? H]. discriminate.
  - intros (pre & post & ->).
    destruct (indexOf_complete mdFence pre post) as [i ->].
    change mdFence with (fence ++ str "markdown") at 1.
    rewrite <- (app_assoc fence).
    destruct (lastIndexOf_complete fence pre (str "markdown" ++ post)) as [j ->].
    eexists; reflexivity.
Qed.

(** X23 (src/utils.ts, extractMdFromLLMOutput).  Round trip for a fenced
    answer: when the text before the opening delimiter and the text after
    the closing fence hold no backtick, the function returns what stands
    between the code unit after the opening delimiter (the line break) and
    the closing fence, whatever that body contains. *)
Theorem extractMdFromLLMOutput_fenced (pre body post : jsstring) (c : N) :
  Forall (fun x => x <> BACKTICK) pre ->
  Forall (fun x => x <> BACKTICK) post ->
  extractMdFromLLMOutput (pre ++ mdFence ++ c :: body ++ fence ++ post) = Some body.
Proof.
  intros Hpre Hpost. unfold extractMdFromLLMOutput.
  change mdFence with (BACKTICK :: List.tl mdFence) at 1 2.
  rewrite (indexOf_first BACKTICK (List.tl mdFence) pre _ Hpre).
  change (BACKTICK :: List.tl mdFence) with mdFence.
  replace (pre ++ mdFence ++ c :: body ++ fence ++ post)
    with ((pre ++ mdFence ++ [c] ++ body) ++ fence ++ post)
    by (rewrite <- !app_assoc; reflexivity).
  rewrite (lastIndexOf_app fence _ _ 0 (lastIndexOf_closing_fence post Hpost)).
  f_equal. unfold substring.
  assert (Hm : length mdFence = 11%nat) by reflexivity.
  rewrite !length_app, Hm. cbn [length].
  replace (Nat.min (length pre + 12)
             (length pre + (11 + (1 + length body)) + (length fence + length post)))
    with (length pre + 12)%nat by lia.
  replace (Nat.min (length pre + (11 + (1 + length body)) + 0)
             (length pre + (11 + (1 + length body)) + (length fence + length post)))
    with (length pre + 12 + length body)%nat by lia.
  replace (Nat.max (length pre + 12) (length pre + 12 + length body)
           - Nat.min (length pre + 12) (length pre + 12 + length body))%nat
    with (length body) by lia.
  replace (Nat.min (length pre + 12) (length pre + 12 + length body))
    with (length (pre ++ mdFence ++ [c])) by (rewrite !length_app, Hm; simpl; lia).
  replace ((pre ++ mdFence ++ [c] ++ body) ++ fence ++ post)
    with ((pre ++ mdFence ++ [c]) ++ body ++ fence ++ post)
    by (rewrite <- !app_assoc; reflexivity).
  rewrite drop_app_length, take_app_length. reflexivity.
Qed.

Lemma extractMdFromLLMOutput_fenced_witness :
  extractMdFromLLMOutput
    (str "Here it is: " ++ mdFence ++ LF :: (str "# A" ++ [LF]) ++ fence ++ str " done")
  = Some (str "# A" ++ [LF]).
Proof.
  apply (extractMdFromLLMOutput_fenced (str "Here it is: ") (str "# A" ++ [LF])
           (str " done") LF);
    repeat constructor; vm_compute; discriminate.
Defined.

(* --------------------------------------------------------------------- *)
(** ** Further properties of the page pipeline                            *)
(* --------------------------------------------------------------------- *)

Section PipelineLaws.
Variable imageFiles : list PageImage.
Variable concurrency : nat.

Local Abbreviation Inv := (Inv imageFiles concurrency).
Local Abbreviation N := (length imageFiles).

Lemma runLoop_saturated (s : State) :
  Inv s -> phase s = Running -> saturated concurrency (runLoop concurrency s).
Proof.
  intros HI Hp. unfold runLoop, saturated.
  destruct (loopCondition s); [|discriminate].
  destruct (startTasks_inv imageFiles concurrency (queue s) s HI eq_refl Hp)
    as (HI' & _ & Hfull & _).
  destruct (0 <? size (inProgress (startTasks concurrency (queue s) s)))%nat.
  - intros _. cbn [setPhase queue inProgress].
    destruct Hfull as [Hq|Hc]; [left; exact Hq|right].
    pose proof (inv_limit _ _ _ HI'). lia.
  - destruct (loopCondition (startTasks concurrency (queue s) s)); discriminate.
Qed.

Lemma init_saturated : saturated concurrency (init imageFiles concurrency).
Proof.
  unfold init. apply runLoop_saturated; [|reflexivity].
  constructor; cbn [queue results inProgress pageContents progress phase].
  - reflexivity.
  - intros id t H. discriminate.
  - intros id H. now apply elem_of_empty in H.
  - now rewrite size_empty.
  - rewrite size_empty. lia.
  - reflexivity.
  - reflexivity.
  - exact I.
Qed.

Lemma step_saturated (s s' : State) (e : Event) :
  Inv s -> saturated concurrency s ->
  step concurrency N s e = Some s' -> saturated concurrency s'.
Proof.
  intros HI Hs H. destruct e; simpl in H.
  - destruct (results s !! id) as [[it []]|]; try discriminate.
    inversion H; subst. exact Hs.
  - destruct (results s !! id) as [[it []]|]; try discriminate.
    inversion H; subst. exact Hs.
  - destruct (results s !! id) as [[it []]|]; try discriminate.
    inversion H; subst. unfold saturated, onReaction. cbn [phase].
    destruct (phase s); discriminate.
  - destruct (phase s) as [| [] | | | | |] eqn:Hp; try discriminate.
    inversion H; subst. apply runLoop_saturated; [|reflexivity].
    apply setPhase_inv; [exact HI| |discriminate|exact I].
    intros r Hr. rewrite Hp in Hr. discriminate.
  - destruct (phase s); try discriminate. inversion H; subst. discriminate.
  - destruct (phase s); try discriminate. inversion H; subst. discriminate.
  - destruct (phase s); try discriminate. inversion H; subst. discriminate.
  - destruct (phase s); try discriminate. inversion H; subst. discriminate.
Qed.

Lemma run_saturated (events : list Event) :
  forall s s' : State,
    Inv s -> saturated concurrency s ->
    run concurrency N s events = Some s' -> saturated concurrency s'.
Proof.
  induction events as [|e events IH]; intros s s' HI Hs H; simpl in H.
  - inversion H; subst. exact Hs.
  - destruct (step concurrency N s e) as [s1|] eqn:E; [|discriminate].
    eapply IH; [| |exact H].
    + eapply step_inv; eassumption.
    + eapply step_saturated; eassumption.
Qed.

Lemma run_snoc (events : list Event) (e : Event) :
  forall s s' : State,
    run concurrency N s (events ++ [e]) = Some s' ->
    exists s1, run concurrency N s events = Some s1 /\
               step concurrency N s1 e = Some s'.
Proof.
  induction events as [|e0 events IH]; intros s s' H; cbn [app run] in *.
  - destruct (step concurrency N s e) as [s1|] eqn:E; [|discriminate].
    inversion H; subst. exists s. split; [reflexivity|exact E].
  - destruct (step concurrency N s e0) as [s1|]; [|discriminate].
    apply IH, H.
Qed.

Lemma runLoop_phase (s : State) :
  match phase (runLoop concurrency s) with
  | AwaitingRace false | Spinning | AwaitingOutline _ => True
  | _ => False
  end.
Proof.
  unfold runLoop, afterPipeline.
  repeat match goal with
         | |- context [if ?c then _ else _] => destruct c
         end; exact I.
Qed.

(** The only step into [Resolved] is the completion of the write. *)
Lemma resolved_origin (s1 s : State) (e : Event) (r : ParseResult) :
  Inv s1 -> step concurrency N s1 e = Some s -> phase s = Resolved r ->
  e = WriteDone /\ phase s1 = AwaitingWrite (resultContent r) (mdFile r) /\
  pageContents s = pageContents s1.
Proof.
  intros HI H Hp. destruct e; simpl in H.
  - destruct (results s1 !! id) as [[it []]|] eqn:El; try discriminate.
    destruct (active_phase _ _ _ _ _ HI El eq_refl) as [Hn _].
    inversion H; subst. cbn [phase onModelReturns] in Hp. destruct (Hn _ Hp).
  - destruct (results s1 !! id) as [[it []]|] eqn:El; try discriminate.
    destruct (active_phase _ _ _ _ _ HI El eq_refl) as [Hn _].
    inversion H; subst. destruct (Hn _ Hp).
  - destruct (results s1 !! id) as [[it []]|] eqn:El; try discriminate.
    destruct (active_phase _ _ _ _ _ HI El eq_refl) as [_ Hr].
    inversion H; subst. cbn [phase onReaction] in Hp.
    destruct (phase s1); try discriminate; destruct Hr.
  - destruct (phase s1) as [| [] | | | | |]; try discriminate.
    inversion H; subst.
    pose proof (runLoop_phase (setPhase Running s1)) as Hl.
    rewrite Hp in Hl. destruct Hl.
  - destruct (phase s1); try discriminate. inversion H; subst. discriminate.
  - destruct (phase s1); try discriminate. inversion H; subst. discriminate.
  - destruct (phase s1) as [| | | | c file | |]; try discriminate.
    inversion H; subst. cbn [phase onWriteDone] in Hp. inversion Hp; subst.
    repeat split; reflexivity.
  - destruct (phase s1); try discriminate. inversion H; subst. discriminate.
Qed.

(** The only step into [AwaitingWrite] is the answer to the outline request,
    and the text to be written is made from that answer. *)
Lemma awaitingWrite_origin (s1 s : State) (e : Event) (c file : jsstring) :
  Inv s1 -> step concurrency N s1 e = Some s -> phase s = AwaitingWrite c file ->
  exists response : jsstring,
    e = OutlineReturns response /\ phase s1 = AwaitingOutline c /\
    file = adjustMarkdownHeadings c (default [] (extractMdFromLLMOutput response)).
Proof.
  intros HI H Hp. destruct e; simpl in H.
  - destruct (results s1 !! id) as [[it []]|] eqn:El; try discriminate.
    destruct (active_phase _ _ _ _ _ HI El eq_refl) as [_ Hr].
    inversion H; subst. cbn [phase onModelReturns] in Hp.
    rewrite Hp in Hr. destruct Hr.
  - destruct (results s1 !! id) as [[it []]|] eqn:El; try discriminate.
    destruct (active_phase _ _ _ _ _ HI El eq_refl) as [_ Hr].
    inversion H; subst. cbn [phase onModelThrows setTask] in Hp.
    rewrite Hp in Hr. destruct Hr.
  - destruct (results s1 !! id) as [[it []]|] eqn:El; try discriminate.
    destruct (active_phase _ _ _ _ _ HI El eq_refl) as [_ Hr].
    inversion H; subst. cbn [phase onReaction] in Hp.
    destruct (phase s1); try discriminate; destruct Hr.
  - destruct (phase s1) as [| [] | | | | |]; try discriminate.
    inversion H; subst.
    pose proof (runLoop_phase (setPhase Running s1)) as Hl.
    rewrite Hp in Hl. destruct Hl.
  - destruct (phase s1) as [| | |c0| | |] eqn:E1; try discriminate.
    inversion H; subst. cbn [phase onOutlineReturns setPhase] in Hp.
    inversion Hp; subst. exists response. repeat split; reflexivity.
  - destruct (phase s1); try discriminate. inversion H; subst. discriminate.
  - destruct (phase s1); try discriminate. inversion H; subst. discriminate.
  - destruct (phase s1); try discriminate. inversion H; subst. discriminate.
Qed.

End PipelineLaws.

(** X24 (src/index.ts, processInParallel).  With a limit of 0 and at least
    one page, no invocation is ever started and the outer loop never reaches
    an await: the run consists of its first state, nothing can happen in it,
    and the only report is the starting one. *)
Theorem processInParallel_limit_zero
    (items : list PageImage) (events : list Event) (s : State) :
  items <> [] ->
  parsePdf items 0 events = Some s ->
  events = [] /\ phase s = Spinning /\ results s = [] /\ queue s = items /\
  progress s = [mkProgress 0 (length items) starting].
Proof.
  intros Hne H. destruct items as [|it rest]; [congruence|clear Hne].
  unfold parsePdf in H.
  destruct events as [|e events].
  - inversion H; subst. repeat split; reflexivity.
  - exfalso. cbn [run] in H.
    destruct e; discriminate H.
Qed.

Lemma processInParallel_limit_zero_witness :
  match parsePdf fivePages 0 [] with
  | Some s => phase s = Spinning /\ results s = []
  | None => False
  end.
Proof.
  pose proof (processInParallel_limit_zero fivePages [] (init fivePages 0)
                ltac:(discriminate) eq_refl) as (_ & Hp & Hr & _).
  exact (conj Hp Hr).
Defined.

(** X25 (src/index.ts, processInParallel).  The pool is kept full: whenever
    the loop waits and no promise has settled since, either no page is left
    in the queue or as many invocations are in progress as the limit
    allows. *)
Theorem processInParallel_saturated
    (items : list PageImage) (C : nat) (events : list Event) (s : State) :
  parsePdf items C events = Some s ->
  phase s = AwaitingRace false ->
  queue s = [] \/ size (inProgress s) = C.
Proof.
  intros H. unfold parsePdf in H.
  eapply (run_saturated items C events);
    [apply init_inv|apply init_saturated|exact H].
Qed.

Lemma processInParallel_saturated_witness :
  match parsePdf fivePages 2 [ModelThrows 0 (str "timeout")] with
  | Some s => queue s = [] \/ size (inProgress s) = 2%nat
  | None => False
  end.
Proof.
  apply (processInParallel_saturated fivePages 2 [ModelThrows 0 (str "timeout")]);
    reflexivity.
Defined.

(** X26 (src/index.ts, parsePdf).  What is returned and what is saved.  A
    run that resolves ends with the answer to the outline request followed
    by the completion of the write; the [content] of the result is the text
    assembled from the pages, without any correction; the file holds that
    text with its headings rewritten after the outline extracted from that
    very answer (after the empty outline, if none can be extracted); both
    have the same number of lines. *)
Theorem parsePdf_saved_file
    (items : list PageImage) (C : nat) (events : list Event) (s : State)
    (r : ParseResult) :
  parsePdf items C events = Some s ->
  phase s = Resolved r ->
  exists (before : list Event) (response : jsstring) (s0 : State),
    events = before ++ [OutlineReturns response; WriteDone] /\
    parsePdf items C before = Some s0 /\
    phase s0 = AwaitingOutline (resultContent r) /\
    resultContent r = assemble (pageContents s) /\
    mdFile r = adjustMarkdownHeadings (resultContent r)
                 (default [] (extractMdFromLLMOutput response)) /\
    length (splitLines (mdFile r)) = length (splitLines (resultContent r)).
Proof.
  intros H Hp.
  pose proof (parsePdf_inv items C events s H) as HI.
  pose proof (inv_done _ _ _ HI) as Hd. rewrite Hp in Hd.
  unfold parsePdf in H.
  destruct events as [|e1 ev1 _] using rev_ind.
  { inversion H; subst. pose proof (runLoop_phase C
      (mkState items [] ∅ [] [mkProgress 0 (length items) starting] Running)) as Hl.
    unfold init in Hp. rewrite Hp in Hl. destruct Hl. }
  apply run_snoc in H as (s1 & H1 & E1).
  pose proof (run_inv items C ev1 _ _ (init_inv items C) H1) as HI1.
  destruct (resolved_origin items C s1 s e1 r HI1 E1 Hp) as (-> & Hp1 & Hpages).
  destruct ev1 as [|e2 ev2 _] using rev_ind.
  { inversion H1; subst. pose proof (runLoop_phase C
      (mkState items [] ∅ [] [mkProgress 0 (length items) starting] Running)) as Hl.
    unfold init in Hp1. rewrite Hp1 in Hl. destruct Hl. }
  apply run_snoc in H1 as (s0 & H0 & E0).
  pose proof (run_inv items C ev2 _ _ (init_inv items C) H0) as HI0.
  destruct (awaitingWrite_origin items C s0 s1 e2 _ _ HI0 E0 Hp1)
    as (response & -> & Hp0 & Hfile).
  exists ev2, response, s0.
  split; [rewrite <- app_assoc; reflexivity|].
  split; [exact H0|]. split; [exact Hp0|].
  destruct r as [c file]. cbn [resultContent mdFile] in *.
  destruct Hd as (_ & _ & _ & Hc).
  split; [exact Hc|]. split; [exact Hfile|].
  rewrite Hfile. apply adjustMarkdownHeadings_frame.
Qed.

Lemma parsePdf_saved_file_witness :
  match parsePdf onePage 1 headingRun with
  | Some s =>
      match phase s with
      | Resolved r =>
          resultContent r = str "# A" ++ [LF] /\ mdFile r = str "## A" ++ [LF]
      | _ => False
      end
  | None => False
  end.
Proof.
  destruct (parsePdf onePage 1 headingRun) as [s|] eqn:E.
  - assert (Hph : exists r, phase s = Resolved r /\
                            resultContent r = str "# A" ++ [LF]).
    { vm_compute in E. injection E as <-. eexists. split; reflexivity. }
    destruct Hph as (r & Hph & Hc). rewrite Hph.
    destruct (parsePdf_saved_file onePage 1 headingRun s r E Hph)
      as (before & response & s0 & Hev & _ & _ & _ & Hfile & _).
    split; [exact Hc|].
    change headingRun
      with ([ModelReturns 0 (str "# A"); Reaction 0; RaceResumes]
              ++ [OutlineReturns outlineAnswer; WriteDone]) in Hev.
    change [OutlineReturns outlineAnswer; WriteDone]
      with ([OutlineReturns outlineAnswer] ++ [WriteDone]) in Hev.
    change [OutlineReturns response; WriteDone]
      with ([OutlineReturns response] ++ [WriteDone]) in Hev.
    rewrite !app_assoc in Hev.
    apply app_inj_tail in Hev as [Hev _].
    apply app_inj_tail in Hev as [_ Hr].
    injection Hr as <-. rewrite Hfile, Hc. vm_compute. reflexivity.
  - vm_compute in E. discriminate.
Defined.

(* --------------------------------------------------------------------- *)
(** ** Page images and batches                                            *)
(* --------------------------------------------------------------------- *)

(** X27 (src/imageGenerator.js, generateFullPageImages).  The pages are
    numbered 1, 2, ..., numPages in order; so the numbers are pairwise
    different, which is what the restoration of the page order relies on. *)
Theorem generateFullPageImages_numbering (numPages : nat) (render : nat -> jsstring) :
  List.map index (generateFullPageImages numPages render) = seq 1 numPages /\
  NoDup (index <$> generateFullPageImages numPages render) /\
  length (generateFullPageImages numPages render) = numPages.
Proof.
  assert (H : List.map index (generateFullPageImages numPages render) =
              seq 1 numPages).
  { unfold generateFullPageImages. rewrite map_map. cbn [index].
    rewrite <- fmap_S_seq. apply map_ext. intros i. lia. }
  split; [exact H|]. split.
  - change (index <$> generateFullPageImages numPages render)
      with (List.map index (generateFullPageImages numPages render)).
    rewrite H. apply NoDup_seq.
  - unfold generateFullPageImages. rewrite length_map. apply length_seq.
Qed.

Section Crop.
Local Open Scope Q_scope.


End Crop.


Section Batches.
Context {A : Type}.

Lemma awaitBatches_closed (concurrency : nat) (tasks : list A) :
  (1 <= concurrency)%nat ->
  forall (fuel i : nat) (results : list A),
    (length tasks - i < fuel)%nat ->
    awaitBatches fuel concurrency i tasks results = Some (results ++ drop i tasks).
Proof.
  intros Hc. induction fuel as [|fuel IH]; intros i results Hf; [lia|].
  cbn [awaitBatches].
  destruct (i <? length tasks)%nat eqn:E.
  - apply Nat.ltb_lt in E. rewrite IH by lia.
    rewrite <- app_assoc, <- drop_drop, take_drop. reflexivity.
  - apply Nat.ltb_ge in E. rewrite drop_ge by exact E.
    rewrite app_nil_r. reflexivity.
Qed.


End Batches.

(** X29 (src/markdownConverter.js, convertImagesToMarkdown).  With a
    concurrency of at least 1 the batch loop ends (one round more than there
    are tasks is enough) and has collected the answer of every task, once
    each and in the order of the tasks, whatever the size of the batches. *)
Theorem awaitBatches_collects_all
    (concurrency fuel : nat) (tasks : list jsstring) :
  (1 <= concurrency)%nat -> (length tasks < fuel)%nat ->
  awaitBatches fuel concurrency 0 tasks [] = Some tasks.
Proof.
  intros Hc Hf.
  rewrite (awaitBatches_closed concurrency tasks Hc fuel 0 []) by lia.
  reflexivity.
Qed.

Lemma awaitBatches_collects_all_witness :
  awaitBatches 4 2 0 [str "a"; str "b"; str "c"] [] =
  Some [str "a"; str "b"; str "c"].
Proof.
  apply (awaitBatches_collects_all 2 4 [str "a"; str "b"; str "c"]);
    simpl; lia.
Defined.

(** X30 (src/markdownConverter.js, convertImagesToMarkdown).  With a
    concurrency of 0 and at least one region the batch loop never ends: the
    index does not advance and every batch is empty. *)
Theorem awaitBatches_zero_never_ends (fuel : nat) (tasks results : list jsstring) :
  tasks <> [] -> awaitBatches fuel 0 0 tasks results = None.
Proof.
  intros Hne. revert results.
  induction fuel as [|fuel IH]; intros results; [reflexivity|].
  cbn [awaitBatches]. destruct tasks as [|t tasks']; [congruence|].
  cbn [length Nat.ltb Nat.leb Nat.add]. apply IH.
Qed.

Lemma awaitBatches_zero_never_ends_witness :
  awaitBatches 1000 0 0 [str "a"] [] = None.
Proof.
  apply (awaitBatches_zero_never_ends 1000 [str "a"] []). discriminate.
Defined.
